(** * Key Vault managed storage account sample: the orchestration workflow

    A shallow embedding of the two generations of the sample
    ([storage_account_sample.js] with its [sample_util.js]): the older one
    written against [azure-keyvault] / [ms-rest-azure] (module [Legacy]) and
    the newer one written against the [@azure/...] packages (module
    [Modern]).

    Every awaited SDK operation is a [Call]; the remote services, the
    identity library and the random-name generators are gathered in a
    [World], which answers each call from the history of calls made so far.
    The script itself is a state-and-exception computation over the
    process memory (the vault objects, [config.vault], [config._userId]),
    the log of calls and the console.

    What an SDK does inside one operation belongs to the world.  The
    authenticator callbacks that [sample_util.js] hands to the Key Vault
    clients ([_getKeyVaultUserClient], [_getKeyVaultClient]) are code of
    the script: they run in the process whenever a client puts a challenge
    to them, with their calls, their output and their change of
    [config._userId]; only the challenges come from the world. *)

From Stdlib Require Import String List Bool Arith Lia.
From stdpp Require Import base option list strings pretty gmap.

Local Open Scope string_scope.

(** ** JavaScript values that the script inspects *)

(** A thrown value: the [name] of its class, the service's [code] when it
    carries one, and its [message]. *)
Record JsError := {
  err_name : string;
  err_code : option string;
  err_message : string
}.

Definition Error (msg : string) : JsError :=
  {| err_name := "Error"; err_code := None; err_message := msg |}.
Definition TypeError (msg : string) : JsError :=
  {| err_name := "TypeError"; err_code := None; err_message := msg |}.
Definition ReferenceError (msg : string) : JsError :=
  {| err_name := "ReferenceError"; err_code := None; err_message := msg |}.

(** What [console.log(e)] and the runtime's crash report show of [e]. *)
Definition show_error (e : JsError) : string :=
  err_name e +:+ ": " +:+ err_message e.

(** Truthiness of a possibly-undefined string: [undefined] and [''] are
    falsy.  The result is the string itself when it is truthy. *)
Definition truthy (v : option string) : option string :=
  match v with
  | Some s => if decide (s = EmptyString) then None else Some s
  | None => None
  end.

(** [a || b] on possibly-undefined strings. *)
Definition js_or (a : option string) (b : string) : string :=
  match truthy a with Some s => s | None => b end.

(** [Array.prototype.toString]: the elements joined by commas. *)
Fixpoint array_toString (l : list string) : string :=
  match l with
  | [] => EmptyString
  | [x] => x
  | x :: rest => x +:+ "," +:+ array_toString rest
  end.

(** ** Data model *)

Record Permissions := {
  perm_keys : list string;
  perm_secrets : list string;
  perm_storage : list string;
  perm_certificates : option (list string)
}.

Record AccessPolicyEntry := {
  tenantId : string;
  objectId : string;
  permissions : Permissions
}.

(** A vault as the management client returns it: [vault.name],
    [vault.properties.vaultUri], [vault.properties.accessPolicies]. *)
Record Vault := {
  vault_name : string;
  vaultUri : string;
  accessPolicies : list AccessPolicyEntry
}.

(** The [kvParams] object of [_getSampleVault]. *)
Record KvParams := {
  kv_location : string;
  kv_sku_family : option string;
  kv_sku_name : string;
  kv_accessPolicies : list AccessPolicyEntry;
  kv_enabledForDeployment : bool;
  kv_tenantId : string;
  kv_enableSoftDelete : option bool;
  kv_enablePurgeProtection : option bool
}.

(** [vaults.createOrUpdate] receives either fresh parameters or a whole
    vault object. *)
Inductive VaultPayload :=
| NewVault (p : KvParams)
| WholeVault (v : Vault).

Record StorageAccount := {
  sa_id : string;
  sa_name : string;
  sa_identity : option string   (* storageAccount.identity.principalId *)
}.

Record StorageCreateParams := {
  scp_location : string;
  scp_sku : string;
  scp_kind : string;
  scp_identity : option string
}.

Record RoleDefinition := { role_id : string }.

Record Credentials := {
  cred_username : string;
  cred_tokenAudience : string;
  cred_domain : string
}.

Record AdalToken := { tok_resource : string; tok_userId : string }.
Record UserToken := {
  tok_oid : string;
  tok_tokenType : string;
  tok_accessToken : string
}.

(** The challenge a Key Vault client hands to its authenticator. *)
Record Challenge := { ch_authorization : string; ch_resource : string }.

Record StorageAccountItem := { item_resourceId : string }.
Record SasDefinition := { sas_id : string; sas_secretId : string }.
Record SecretIdentifier := { sid_vault : string; sid_name : string }.
Record Secret := { secret_value : string }.
Record AccountSas := { accountSasToken : string }.

(** The policy handed to [generateAccountSharedAccessSignature]. *)
Record AccountSasPolicy := {
  pol_Services : string;
  pol_ResourceTypes : string;
  pol_Permissions : string;
  pol_Expiry : string
}.

(** The parameters of [storageAccounts.listAccountSAS]. *)
Record AccountSasParameters := {
  asp_keyToSign : string;
  asp_sharedAccessStartTime : string;
  asp_sharedAccessExpiryTime : string;
  asp_protocols : string;
  asp_services : string;
  asp_resourceTypes : string;
  asp_permissions : string
}.

(** The [encryption] member of a [storageAccounts.update] patch. *)
Record Encryption := {
  enc_keySource : string;
  enc_keyVaultProperties : option (string * string);  (* keyName, keyVaultUri *)
  enc_blob : option (bool * string)                   (* enabled, keyType *)
}.

(** The two patches [updateStorageAccount] sends through the vault. *)
Inductive ManagedAccountPatch :=
| ActiveKeyName (k : string)
| AutoRegenerateKey (b : bool).

(** A blob service created from a host and a SAS token. *)
Record BlobService := { bs_host : string; bs_sas : string }.

(** ** Calls into the SDKs

    One constructor per awaited operation, indexed by the type of what it
    resolves to.  The first group is used by the older sample, the second
    by the newer one, the third by both. *)
Inductive Call : Type → Type :=
(* ms-rest-azure / adal-node *)
| InteractiveLogin (tokenAudience domain : string) : Call Credentials
| AcquireToken (resource userId clientId : string) : Call AdalToken
| LoginWithServicePrincipalSecret (clientId secret tenant : string) : Call Credentials
| CredsGetToken (creds : Credentials) : Call UserToken
| AcquireTokenWithClientCredentials (authority resource clientId secret : string)
    : Call UserToken
(* azure-arm-storage, azure-arm-keyvault, azure-keyvault, azure-storage *)
| StorageAccountsCreate (group name : string) (p : StorageCreateParams) : Call StorageAccount
| VaultsCreateOrUpdate (group name : string) (body : VaultPayload) : Call Vault
| SetStorageAccount (uri account resourceId activeKey : string)
    (autoRegenerate : bool) (regenerationPeriod : string) (enabled : bool) : Call unit
| UpdateStorageAccount (uri account : string) (patch : ManagedAccountPatch) : Call unit
| RegenerateStorageAccountKey (uri account key : string) : Call unit
| GetStorageAccounts (uri : string) : Call (list StorageAccountItem)
| SetSasDefinition (uri account defName template sasType validity : string)
    (enabled : bool) : Call SasDefinition
| GetSecret (vault name version : string) : Call Secret
| GetSasDefinitions (uri account : string) : Call (list SasDefinition)
| DeleteStorageAccount (uri account : string) : Call unit
| CreateContainerIfNotExists (svc : BlobService) (container : string) : Call unit
| CreateBlockBlobFromText (svc : BlobService) (container blob text : string) : Call unit
(* @azure/arm-storage, @azure/arm-keyvault, @azure/keyvault-keys, @azure/storage-blob *)
| StorageAccountsBeginCreateAndWait (group name : string) (p : StorageCreateParams)
    : Call StorageAccount
| VaultsBeginCreateOrUpdateAndWait (group name : string) (body : VaultPayload) : Call Vault
| CreateKey (uri name kty : string) : Call unit
| StorageAccountsUpdate (group name : string) (enc : Encryption) : Call unit
| StorageAccountsRegenerateKey (group name key : string) : Call unit
| StorageAccountsListAccountSAS (group name : string) (p : AccountSasParameters)
    : Call AccountSas
| ContainerCreate (serviceUrl container : string) : Call unit
| BlockBlobUpload (serviceUrl container blob content : string) (len : nat) : Call unit
(* both *)
| VaultsGet (group name : string) : Call Vault
| ResourceGroupsCreateOrUpdate (group location : string) : Call unit
| RoleDefinitionsList (scope filter : string) : Call (list RoleDefinition)
| RoleAssignmentsCreate (scope name roleDefinitionId principalId : string) : Call unit.

(** The operation as the script spells it. *)
Definition method {R} (c : Call R) : string :=
  match c with
  | InteractiveLogin _ _ => "interactiveLogin"
  | AcquireToken _ _ _ => "acquireToken"
  | LoginWithServicePrincipalSecret _ _ _ => "loginWithServicePrincipalSecret"
  | CredsGetToken _ => "getToken"
  | AcquireTokenWithClientCredentials _ _ _ _ => "acquireTokenWithClientCredentials"
  | StorageAccountsCreate _ _ _ => "storageAccounts.create"
  | VaultsCreateOrUpdate _ _ _ => "vaults.createOrUpdate"
  | SetStorageAccount _ _ _ _ _ _ _ => "setStorageAccount"
  | UpdateStorageAccount _ _ _ => "updateStorageAccount"
  | RegenerateStorageAccountKey _ _ _ => "regenerateStorageAccountKey"
  | GetStorageAccounts _ => "getStorageAccounts"
  | SetSasDefinition _ _ _ _ _ _ _ => "setSasDefinition"
  | GetSecret _ _ _ => "getSecret"
  | GetSasDefinitions _ _ => "getSasDefinitions"
  | DeleteStorageAccount _ _ => "deleteStorageAccount"
  | CreateContainerIfNotExists _ _ => "createContainerIfNotExists"
  | CreateBlockBlobFromText _ _ _ _ => "createBlockBlobFromText"
  | StorageAccountsBeginCreateAndWait _ _ _ => "storageAccounts.beginCreateAndWait"
  | VaultsBeginCreateOrUpdateAndWait _ _ _ => "vaults.beginCreateOrUpdateAndWait"
  | CreateKey _ _ _ => "createKey"
  | StorageAccountsUpdate _ _ _ => "storageAccounts.update"
  | StorageAccountsRegenerateKey _ _ _ => "storageAccounts.regenerateKey"
  | StorageAccountsListAccountSAS _ _ _ => "storageAccounts.listAccountSAS"
  | ContainerCreate _ _ => "containerClient.create"
  | BlockBlobUpload _ _ _ _ _ => "blockBlobClient.upload"
  | VaultsGet _ _ => "vaults.get"
  | ResourceGroupsCreateOrUpdate _ _ => "resourceGroups.createOrUpdate"
  | RoleDefinitionsList _ _ => "roleDefinitions.list"
  | RoleAssignmentsCreate _ _ _ _ => "roleAssignments.create"
  end.

(** The vault definition a call pushes to the service, if it pushes one. *)
Definition pushed_vault {R} (c : Call R) : option VaultPayload :=
  match c with
  | VaultsCreateOrUpdate _ _ body => Some body
  | VaultsBeginCreateOrUpdateAndWait _ _ body => Some body
  | _ => None
  end.

(** The name under which a call creates or updates a vault. *)
Definition pushed_vault_name {R} (c : Call R) : option string :=
  match c with
  | VaultsCreateOrUpdate _ name _ => Some name
  | VaultsBeginCreateOrUpdateAndWait _ name _ => Some name
  | _ => None
  end.

(** ** The log of calls *)

(** A call that was issued, with the error it was rejected with, if any. *)
Inductive Event :=
| Ev {R} (c : Call R) (rejected : option JsError).

Definition ev_method (ev : Event) : string :=
  match ev with Ev c _ => method c end.
Definition ev_error (ev : Event) : option JsError :=
  match ev with Ev _ r => r end.
Definition ev_pushed_vault (ev : Event) : option VaultPayload :=
  match ev with Ev c _ => pushed_vault c end.
Definition ev_pushed_vault_name (ev : Event) : option string :=
  match ev with Ev c _ => pushed_vault_name c end.

Definition Result (A : Type) : Type := (JsError + A)%type.

Definition rejection {A} (r : Result A) : option JsError :=
  match r with inl e => Some e | inr _ => None end.

(** ** The world outside the script *)

(** [respond] answers a call given the calls made before it.
    [challenges] are the challenges that a Key Vault client puts to its
    authenticator in the course of one operation, given the calls made
    before it: none when the client has what it needs, one or more when
    the service asks it to authenticate.  The generators [random_id] (the
    repository's [random_id.js], which is not among the sources) and
    [uuidv4] are streams indexed by the number of draws already made.  The
    remaining fields are constants and local helpers of the SDKs. *)
Record World := {
  respond : ∀ R, list Event → Call R → Result R;
  challenges : ∀ R, list Event → Call R → list Challenge;
  random_id : nat → string;
  uuidv4 : nat → string;
  DEFAULT_ADAL_CLIENT_ID : string;
  CLOUD_BLOB_HOST : string;
  generateAccountSharedAccessSignature : string → string → AccountSasPolicy → string;
  generateSharedAccessSignature : string → string → string → string → string;
  getUrl : string → string → string → string;
  parseSecretIdentifier : string → Result SecretIdentifier
}.

(** ** Process memory and the computation monad *)

(** References to vault objects are positions in [heap]: [config.vault]
    and the [vault] variable of [main] hold the same reference, so a push
    through one is seen through the other. *)
Definition VaultRef := nat.

Record Mem := {
  heap : list Vault;
  cfg_vault : option VaultRef;     (* config.vault *)
  cfg_userId : option string;      (* config._userId *)
  draws : nat;                     (* random_id() calls so far *)
  uuids : nat                      (* uuidv4() calls so far *)
}.

Record State := {
  mem : Mem;
  calls : list Event;
  console : list string
}.

Definition M (A : Type) : Type := State → Result A * State.

Definition ret {A} (a : A) : M A := λ st, (inr a, st).

Definition bind {A B} (m : M A) (f : A → M B) : M B :=
  λ st, match m st with
        | (inr a, st') => f a st'
        | (inl e, st') => (inl e, st')
        end.

Definition throw {A} (e : JsError) : M A := λ st, (inl e, st).

Definition try_catch {A} (m : M A) (handler : JsError → M A) : M A :=
  λ st, match m st with
        | (inr a, st') => (inr a, st')
        | (inl e, st') => handler e st'
        end.

#[global] Instance M_ret : MRet M := @ret.
#[global] Instance M_bind : MBind M := λ A B f m, bind m f.

Definition gets {A} (f : Mem → A) : M A := λ st, (inr (f (mem st)), st).

Definition modify (f : Mem → Mem) : M unit :=
  λ st, (inr tt, {| mem := f (mem st); calls := calls st; console := console st |}).

Definition console_log (line : string) : M unit :=
  λ st, (inr tt, {| mem := mem st; calls := calls st; console := console st ++ [line] |}).

Definition record_call (ev : Event) (st : State) : State :=
  {| mem := mem st; calls := calls st ++ [ev]; console := console st |}.

Fixpoint forEach {A} (l : list A) (f : A → M unit) : M unit :=
  match l with
  | [] => ret tt
  | x :: rest => f x ;; forEach rest f
  end.

Definition with_heap (h : list Vault) (m : Mem) : Mem :=
  {| heap := h; cfg_vault := cfg_vault m; cfg_userId := cfg_userId m;
     draws := draws m; uuids := uuids m |}.
Definition with_cfg_vault (r : option VaultRef) (m : Mem) : Mem :=
  {| heap := heap m; cfg_vault := r; cfg_userId := cfg_userId m;
     draws := draws m; uuids := uuids m |}.
Definition with_cfg_userId (u : option string) (m : Mem) : Mem :=
  {| heap := heap m; cfg_vault := cfg_vault m; cfg_userId := u;
     draws := draws m; uuids := uuids m |}.
Definition with_draws (n : nat) (m : Mem) : Mem :=
  {| heap := heap m; cfg_vault := cfg_vault m; cfg_userId := cfg_userId m;
     draws := n; uuids := uuids m |}.
Definition with_uuids (n : nat) (m : Mem) : Mem :=
  {| heap := heap m; cfg_vault := cfg_vault m; cfg_userId := cfg_userId m;
     draws := draws m; uuids := n |}.

(** Property access on [undefined]. *)
Definition undefined_property (p : string) : JsError :=
  TypeError ("Cannot read property '" +:+ p +:+ "' of undefined").

(** A freshly received object gets a new place in the heap. *)
Definition new_object (v : Vault) : M VaultRef :=
  r ← gets (λ m, length (heap m));
  modify (λ m, with_heap (heap m ++ [v]) m);;
  ret r.

Definition deref (r : VaultRef) : M Vault :=
  h ← gets heap;
  match h !! r with
  | Some v => ret v
  | None => throw (undefined_property "properties")
  end.

(** [vault.properties.accessPolicies.push(entry)]: the object is changed
    in place. *)
Definition push_accessPolicy (r : VaultRef) (entry : AccessPolicyEntry) : M unit :=
  v ← deref r;
  modify (λ m, with_heap
    (<[r := {| vault_name := vault_name v; vaultUri := vaultUri v;
               accessPolicies := accessPolicies v ++ [entry] |}]> (heap m)) m).

Section Primitives.
Context (w : World).

(** [await] of an SDK promise: the call is logged with its outcome; a
    rejection is thrown at the [await]. *)
Definition await {R} (c : Call R) : M R :=
  λ st, let r := respond w R (calls st) c in
        (r, record_call (Ev c (rejection r)) st).

(** The challenges a client meets on its way to [c]. *)
Definition asked {R} (c : Call R) : M (list Challenge) :=
  λ st, (inr (challenges w R (calls st) c), st).

Definition call_random_id : M string :=
  n ← gets draws;
  modify (with_draws (S n));;
  ret (random_id w n).

Definition call_uuidv4 : M string :=
  n ← gets uuids;
  modify (with_uuids (S n));;
  ret (uuidv4 w n).
End Primitives.

(** ** Configuration ([sample_util.js], module level) *)

Record Config := {
  cfg_subscriptionId : string;
  cfg_tenantId : string;
  cfg_clientId : string;
  cfg_objectId : string;
  cfg_secret : string;
  cfg_azureLocation : string;
  cfg_groupName : string;
  cfg_storageAccName : string;
  cfg_vaultName : option string
}.

(** [process.env]. *)
Abbreviation Env := (gmap string string).

(** [if (!process.env[name]) envs.push(name);] *)
Definition push_if_unset (env : Env) (name : string) (envs : list string) : list string :=
  match truthy (env !! name) with
  | Some _ => envs
  | None => envs ++ [name]
  end.

Definition unset_variables (env : Env) : list string :=
  let envs := [] in
  let envs := push_if_unset env "AZURE_SUBSCRIPTION_ID" envs in
  let envs := push_if_unset env "AZURE_TENANT_ID" envs in
  let envs := push_if_unset env "AZURE_CLIENT_ID" envs in
  let envs := push_if_unset env "AZURE_CLIENT_OID" envs in
  let envs := push_if_unset env "AZURE_CLIENT_SECRET" envs in
  envs.

(** Names every CommonJS module can refer to without declaring them. *)
Definition node_module_scope : list string :=
  ["exports"; "require"; "module"; "__filename"; "__dirname";
   "process"; "console"; "global"; "Buffer"; "Error"; "Promise"].

(** Reading an identifier: a name that is neither declared in the file
    nor provided by the runtime raises a [ReferenceError]. *)
Definition read_identifier (declared : list string) (x : string) : Result unit :=
  if decide (x ∈ (declared ++ node_module_scope)%list) then inr tt
  else inl (ReferenceError (x +:+ " is not defined")).

(** [util.format('... %s', s)] with a string argument. *)
Definition util_format_s (prefix s : string) : string := prefix +:+ s.

(** The validation block at the top of [sample_util.js]; [declared] are
    the file's own top-level names. *)
Definition validate_env (declared : list string) (env : Env) : Result unit :=
  let envs := unset_variables env in
  if decide (0 < length envs) then
    match read_identifier declared "util" with
    | inl e => inl e
    | inr _ =>
        inl (Error (util_format_s
          "please set/export the following environment variables: "
          (array_toString envs)))
    end
  else inr tt.

(** The [config] object, built once validation has passed.  The storage
    account name takes the first draw of [random_id]. *)
Definition build_config (w : World) (env : Env) : Config * Mem :=
  ({| cfg_subscriptionId := default EmptyString (env !! "AZURE_SUBSCRIPTION_ID");
      cfg_tenantId := default EmptyString (env !! "AZURE_TENANT_ID");
      cfg_clientId := default EmptyString (env !! "AZURE_CLIENT_ID");
      cfg_objectId := default EmptyString (env !! "AZURE_CLIENT_OID");
      cfg_secret := default EmptyString (env !! "AZURE_CLIENT_SECRET");
      cfg_azureLocation := js_or (env !! "AZURE_LOCATION") "westus";
      cfg_groupName := js_or (env !! "AZURE_RESOURCE_GROUP") "azure-sample-group";
      cfg_storageAccName := "sa" +:+ random_id w 0;
      cfg_vaultName := truthy (env !! "AZURE_SAMPLE_VAULT_NAME") |},
   {| heap := []; cfg_vault := None; cfg_userId := None; draws := 1; uuids := 0 |}).

Definition load_sample_util (declared : list string) (w : World) (env : Env)
  : Result (Config * Mem) :=
  match validate_env declared env with
  | inl e => inl e
  | inr _ => inr (build_config w env)
  end.

(** ** The process around [main]

    [main().then(() => console.log("Sample execution complete."))] has no
    rejection handler.  What the runtime does with the rejected promise is
    its [--unhandled-rejections] mode, which the script does not set.  The
    promise chain of the user client's authenticator has no handler
    either, so that an error that ends the run there is left to the same
    mode.  The authenticator of the service principal's client throws the
    error of its token request from inside the identity library's
    callback ([if (err) throw err]), outside every promise: the process
    then ends with an uncaught exception, whatever the mode. *)
Inductive RejectionMode := ModeThrow | ModeStrict | ModeWarn | ModeWarnWithErrorCode | ModeNone.

Record Exit := {
  exit_code : nat;
  stdout : list string;
  stderr : list string;
  issued : list Event
}.

Definition uncaught_exception (e : JsError) (st : State) : Exit :=
  {| exit_code := 1; stdout := console st; stderr := [show_error e]; issued := calls st |}.

Definition unhandled_rejection (mode : RejectionMode) (e : JsError) (st : State) : Exit :=
  match mode with
  | ModeThrow | ModeStrict => uncaught_exception e st
  | ModeWarn =>
      {| exit_code := 0; stdout := console st;
         stderr := ["UnhandledPromiseRejectionWarning: " +:+ show_error e];
         issued := calls st |}
  | ModeWarnWithErrorCode =>
      {| exit_code := 1; stdout := console st;
         stderr := ["UnhandledPromiseRejectionWarning: " +:+ show_error e];
         issued := calls st |}
  | ModeNone =>
      {| exit_code := 0; stdout := console st; stderr := []; issued := calls st |}
  end.

(** The modes under which an unhandled rejection makes the exit status
    non-zero: [throw] (the default since Node 15), [strict] and
    [warn-with-error-code]; under [warn] (the default before Node 15) and
    [none] the status stays zero. *)
Definition fails_on_rejection (mode : RejectionMode) : bool :=
  match mode with
  | ModeThrow | ModeStrict | ModeWarnWithErrorCode => true
  | ModeWarn | ModeNone => false
  end.

Definition initial_state (m : Mem) : State :=
  {| mem := m; calls := []; console := [] |}.

(** Whether a run that has ended with an error has ended in the throw of
    the service principal's authenticator: only there is
    [acquireTokenWithClientCredentials] called, and its rejection is
    thrown at once, so that it is the last entry of the log. *)
Definition thrown_in_callback (evs : list Event) : bool :=
  match last evs with
  | Some ev =>
      bool_decide (ev_method ev = "acquireTokenWithClientCredentials")
      && bool_decide (is_Some (ev_error ev))
  | None => false
  end.

(** [node storage_account_sample.js]: load [sample_util], then run
    [main] and attach the completion message to its fulfilment. *)
Definition node (mode : RejectionMode) (loaded : Result (Config * Mem))
    (main : Config → M unit) : Exit :=
  match loaded with
  | inl e => uncaught_exception e (initial_state
      {| heap := []; cfg_vault := None; cfg_userId := None; draws := 0; uuids := 0 |})
  | inr (cfg, m) =>
      match main cfg (initial_state m) with
      | (inr _, st) =>
          {| exit_code := 0; stdout := console st ++ ["Sample execution complete."];
             stderr := []; issued := calls st |}
      | (inl e, st) =>
          if thrown_in_callback (calls st) then uncaught_exception e st
          else unhandled_rejection mode e st
      end
  end.

(** The fixed principal of the Key Vault service and the role it is given. *)
Definition KEY_VAULT_SERVICE_ID : string := "93c27d83-f79b-4cb2-8dd4-4aa716542e74".
Definition KEY_OPERATOR_ROLE_FILTER : string :=
  "roleName eq 'Storage Account Key Operator Service Role'".

(** The double-quote character, and the message logged after a granted
    role: [Granted role "Storage Account Key Operator Service Role" to Key
    Vault on storage account]. *)
Definition dquote : string :=
  String (Ascii.Ascii false true false false false true false false) EmptyString.
Definition GRANTED_ROLE_MESSAGE : string :=
  "Granted role " +:+ dquote +:+ "Storage Account Key Operator Service Role" +:+ dquote
  +:+ " to Key Vault on storage account".

(** [roleList[0].id] *)
Definition first_role_id (roleList : list RoleDefinition) : M string :=
  match roleList with
  | r :: _ => ret (role_id r)
  | [] => throw (undefined_property "id")
  end.

(** * The older sample: [azure-keyvault], [ms-rest-azure], [adal-node] *)
Module Legacy.

(** Top-level names of this generation's [sample_util.js]. *)
Definition declared : list string :=
  ["msRestAzure"; "azureConstants"; "AzureEnvironment"; "KeyVault";
   "KeyVaultManagementClient"; "ResourceManagementClient"; "random_id";
   "adal"; "request"; "envs"; "config";
   "_getManagementCredentials"; "_getKeyVaultUserClient"; "_getKeyVaultClient";
   "_getUserCredentials"; "_tokenFromUserCredentials"; "_getSampleVault"].

Definition load (w : World) (env : Env) : Result (Config * Mem) :=
  load_sample_util declared w env.

Section Sample.
Context (w : World) (config : Config).

(** ** [sample_util.js] *)

Definition _getManagementCredentials : M Credentials :=
  await w (LoginWithServicePrincipalSecret
             (cfg_clientId config) (cfg_secret config) (cfg_tenantId config)).

Definition _getUserCredentials (resource clientId : option string) : M Credentials :=
  let clientId := js_or clientId (DEFAULT_ADAL_CLIENT_ID w) in
  let resource := js_or resource "https://management.core.windows.net/" in
  userId ← gets cfg_userId;
  (* the [return] inside [try] is the [Some] below *)
  returned ←
    match truthy userId with
    | Some userId =>
        try_catch
          (token ← await w (AcquireToken resource userId (DEFAULT_ADAL_CLIENT_ID w));
           ret (Some {| cred_username := tok_userId token;
                        cred_tokenAudience := tok_resource token;
                        cred_domain := cfg_tenantId config |}))
          (λ e, console_log (show_error e);; ret None)
    | None => ret None
    end;
  match returned with
  | Some creds => ret creds
  | None =>
      creds ← await w (InteractiveLogin resource (cfg_tenantId config));
      modify (with_cfg_userId (Some (cred_username creds)));;
      ret creds
  end.

Definition _tokenFromUserCredentials (creds : Credentials) : M UserToken :=
  await w (CredsGetToken creds).

(** The value of the HTTP [Authorization] header made from a token. *)
Definition authorization_header (tokenResponse : UserToken) : string :=
  tok_tokenType tokenResponse +:+ " " +:+ tok_accessToken tokenResponse.

(** The [adalCallback] of [_getKeyVaultUserClient].  The result is the
    header passed to [callback]; a rejection here is a rejection of the
    callback's own promise chain, which has no handler, and [callback]
    is then never called. *)
Definition _getKeyVaultUserClient_adalCallback (challenge : Challenge) : M string :=
  creds ← _getUserCredentials (Some (ch_resource challenge)) (Some (cfg_clientId config));
  tokenResponse ← _tokenFromUserCredentials creds;
  ret (authorization_header tokenResponse).

(** The [adalCallback] of [_getKeyVaultClient].  An error of the token
    request is thrown from inside the identity library's callback, and
    [callback] is then never called. *)
Definition _getKeyVaultClient_adalCallback (challenge : Challenge) : M string :=
  tokenResponse ← await w (AcquireTokenWithClientCredentials
                             (ch_authorization challenge) (ch_resource challenge)
                             (cfg_clientId config) (cfg_secret config));
  ret (authorization_header tokenResponse).

(** The client answers each of its challenges through [adalCallback]. *)
Definition answer_each (adalCallback : Challenge → M string)
    (challenges : list Challenge) : M unit :=
  forEach challenges (λ challenge, adalCallback challenge;; ret tt).

(** An operation [c] of a client made by
    [new KeyVault.KeyVaultClient(new KeyVault.KeyVaultCredentials(adalCallback))].
    The client puts the challenges it meets to [adalCallback] and
    sends its request with the header it is called back with; the
    outcome of the request is the outcome of the operation.  An
    authenticator that ends with an error has not called back: the
    operation is never completed, no later statement of [main] runs,
    and the error is what the run ends with ([node] tells how the
    process ends then). *)
Definition client_operation (adalCallback : Challenge → M string) {R} (c : Call R)
  : M R :=
  challenges ← asked w c;
  answer_each adalCallback challenges;;
  await w c.

(** [_getKeyVaultUserClient().operation(...)] *)
Definition _getKeyVaultUserClient {R} (c : Call R) : M R :=
  client_operation _getKeyVaultUserClient_adalCallback c.

(** [_getKeyVaultClient().operation(...)] *)
Definition _getKeyVaultClient {R} (c : Call R) : M R :=
  client_operation _getKeyVaultClient_adalCallback c.

Definition _getSampleVault : M VaultRef :=
  cached ← gets cfg_vault;
  match cached with
  | Some vault => ret vault
  | None =>
      credentials ← _getManagementCredentials;
      match truthy (cfg_vaultName config) with
      | Some vaultName =>
          v ← await w (VaultsGet (cfg_groupName config) vaultName);
          vault ← new_object v;
          modify (with_cfg_vault (Some vault));;
          ret vault
      | None =>
          await w (ResourceGroupsCreateOrUpdate
                     (cfg_groupName config) (cfg_azureLocation config));;
          let kvParams :=
            {| kv_location := cfg_azureLocation config;
               kv_sku_family := None;
               kv_sku_name := "standard";
               kv_accessPolicies :=
                 [ {| tenantId := cfg_tenantId config;
                      objectId := cfg_objectId config;
                      permissions :=
                        {| perm_keys := ["all"];
                           perm_secrets := ["all"];
                           perm_storage := ["all"];
                           perm_certificates := Some ["all"] |} |} ];
               kv_enabledForDeployment := false;
               kv_tenantId := cfg_tenantId config;
               kv_enableSoftDelete := None;
               kv_enablePurgeProtection := None |} in
          kvName ← call_random_id w;
          console_log ("Creating sample key vault: " +:+ kvName);;
          v ← await w (VaultsCreateOrUpdate (cfg_groupName config) kvName
                         (NewVault kvParams));
          vault ← new_object v;
          modify (with_cfg_vault (Some vault));;
          ret vault
      end
  end.

(** ** [storage_account_sample.js] *)

(** The [try { ... } catch (e) { ... }] around the role assignment. *)
Definition grant_key_operator_role
    (storageAccount : StorageAccount) (roleAssignmentName roleDefinitionId : string)
  : M unit :=
  try_catch
    (await w (RoleAssignmentsCreate (sa_id storageAccount) roleAssignmentName
                roleDefinitionId KEY_VAULT_SERVICE_ID);;
     console_log GRANTED_ROLE_MESSAGE)
    (λ e, if decide (err_code e ≠ Some "RoleAssignmentExists")
          then throw e
          else ret tt).

(** The rest of [addStorageAccount], from the comment "We now can
    grant the user access to the vault" on. *)
Definition grant_vault_access_and_register
    (vault : VaultRef) (userCreds : Credentials) (storageAccount : StorageAccount)
  : M StorageAccount :=
  managementCreds ← _getManagementCredentials;
  userToken ← _tokenFromUserCredentials userCreds;
  let accessPolicyEntry :=
    {| tenantId := cfg_tenantId config;
       objectId := tok_oid userToken;
       permissions :=
         {| perm_keys := ["all"];
            perm_secrets := ["all"];
            perm_storage := ["all"];
            perm_certificates := Some ["all"] |} |} in
  push_accessPolicy vault accessPolicyEntry;;
  v ← deref vault;
  await w (VaultsCreateOrUpdate (cfg_groupName config) (vault_name v) (WholeVault v));;
  console_log "Granted user access to vault.";;
  v ← deref vault;
  _getKeyVaultUserClient
    (SetStorageAccount (vaultUri v) (sa_name storageAccount)
       (sa_id storageAccount) "key1" true "P30D" true);;
  console_log "Added storage account to vault.";;
  ret storageAccount.

Definition addStorageAccount (vault : VaultRef) : M StorageAccount :=
  userCreds ← _getUserCredentials None None;
  console_log ("Creating storage account: " +:+ cfg_storageAccName config);;
  let createParams :=
    {| scp_location := cfg_azureLocation config;
       scp_sku := "Standard_RAGRS";
       scp_kind := "Storage";
       scp_identity := None |} in
  storageAccount ← await w (StorageAccountsCreate (cfg_groupName config)
                              (cfg_storageAccName config) createParams);
  roleList ← await w (RoleDefinitionsList "/" KEY_OPERATOR_ROLE_FILTER);
  roleDefinitionId ← first_role_id roleList;
  roleAssignmentName ← call_uuidv4 w;
  grant_key_operator_role storageAccount roleAssignmentName roleDefinitionId;;
  grant_vault_access_and_register vault userCreds storageAccount.

Definition updateStorageAccount (storageAccount : StorageAccount) (vault : VaultRef)
  : M unit :=
  console_log "Updating storage account active key";;
  v ← deref vault;
  _getKeyVaultClient
    (UpdateStorageAccount (vaultUri v) (sa_name storageAccount)
       (ActiveKeyName "key2"));;
  console_log "Disabling automatic key regeneration";;
  v ← deref vault;
  _getKeyVaultClient
    (UpdateStorageAccount (vaultUri v) (sa_name storageAccount)
       (AutoRegenerateKey false)).

Definition regenerateStorageAccountKey (storageAccount : StorageAccount)
    (vault : VaultRef) : M unit :=
  console_log "Regenerating storage account key1";;
  v ← deref vault;
  _getKeyVaultUserClient
    (RegenerateStorageAccountKey (vaultUri v) (sa_name storageAccount) "key1").

Definition getStorageAccounts (vault : VaultRef) : M unit :=
  v ← deref vault;
  result ← _getKeyVaultClient (GetStorageAccounts (vaultUri v));
  console_log EmptyString;;
  console_log "Listing storage accounts";;
  forEach result (λ account,
    console_log ("Storage account: '" +:+ item_resourceId account +:+ "'"));;
  console_log EmptyString.

(** [createBlobServiceWithSas(storageAccount.name + "." + CLOUD_BLOB_HOST, token)] *)
Definition blob_service_with_sas (storageAccount : StorageAccount) (token : Secret)
  : BlobService :=
  {| bs_host := sa_name storageAccount +:+ "." +:+ CLOUD_BLOB_HOST w;
     bs_sas := secret_value token |}.

(** [KeyVault.parseSecretIdentifier], which throws on a malformed id. *)
Definition parse_secret_id (id : string) : M SecretIdentifier :=
  match parseSecretIdentifier w id with
  | inr s => ret s
  | inl e => throw e
  end.

Definition createAccountSASDefinition (storageAccount : StorageAccount)
    (vault : VaultRef) : M unit :=
  let policy :=
    {| pol_Services := "bfqt"; pol_ResourceTypes := "sco";
       pol_Permissions := "acdlpruw"; pol_Expiry := "2020-01-01" |} in
  let sasTemplate :=
    generateAccountSharedAccessSignature w (sa_name storageAccount) "00000000" policy in
  v ← deref vault;
  sasDef ← _getKeyVaultClient
             (SetSasDefinition (vaultUri v) (sa_name storageAccount)
                "acctall" sasTemplate "account" "PT2H" true);
  secretId ← parse_secret_id (sas_secretId sasDef);
  accountSasToken ← _getKeyVaultClient
                      (GetSecret (sid_vault secretId) (sid_name secretId) EmptyString);
  let blobService := blob_service_with_sas storageAccount accountSasToken in
  await w (CreateContainerIfNotExists blobService "sample-container");;
  await w (CreateBlockBlobFromText blobService "sample-container" "blob1" "test data");;
  console_log "Created sample blob using account SAS definition.".

Definition createBlobSASDefinition (storageAccount : StorageAccount)
    (vault : VaultRef) : M unit :=
  let token :=
    generateSharedAccessSignature w (sa_name storageAccount) "00000000"
      "sample-container" "racwdl" in
  let sasTemplate := getUrl w (sa_name storageAccount) "sample-container" token in
  v ← deref vault;
  sasDef ← _getKeyVaultClient
             (SetSasDefinition (vaultUri v) (sa_name storageAccount)
                "blobcontall" sasTemplate "service" "PT2H" true);
  secretId ← parse_secret_id (sas_secretId sasDef);
  containerToken ← _getKeyVaultClient
                     (GetSecret (sid_vault secretId) (sid_name secretId) EmptyString);
  let blobService := blob_service_with_sas storageAccount containerToken in
  await w (CreateBlockBlobFromText blobService "sample-container" "blob1" "test data");;
  console_log "Created sample blob using container SAS definition.".

Definition getSASDefinitions (storageAccount : StorageAccount) (vault : VaultRef)
  : M unit :=
  v ← deref vault;
  result ← _getKeyVaultClient (GetSasDefinitions (vaultUri v) (sa_name storageAccount));
  console_log EmptyString;;
  console_log "Listing SAS definitions";;
  forEach result (λ def, console_log ("SAS def id: " +:+ sas_id def));;
  console_log EmptyString.

Definition deleteStorageAccount (vault : VaultRef) (storageAccount : StorageAccount)
  : M unit :=
  v ← deref vault;
  _getKeyVaultClient (DeleteStorageAccount (vaultUri v) (sa_name storageAccount));;
  console_log "The storage account has been removed from the vault".

Definition main : M unit :=
  console_log "Azure Key Vault - Managed Storage Account Key Sample";;
  vault ← _getSampleVault;
  storageAccount ← addStorageAccount vault;
  updateStorageAccount storageAccount vault;;
  regenerateStorageAccountKey storageAccount vault;;
  getStorageAccounts vault;;
  createAccountSASDefinition storageAccount vault;;
  createBlobSASDefinition storageAccount vault;;
  getSASDefinitions storageAccount vault;;
  deleteStorageAccount vault storageAccount.
End Sample.

Definition program (w : World) (mode : RejectionMode) (env : Env) : Exit :=
  node mode (load w env) (main w).
End Legacy.

(** * The newer sample: the [@azure/...] packages *)
Module Modern.

(** Top-level names of this generation's [sample_util.js]. *)
Definition declared : list string :=
  ["util"; "KeyVaultManagementClient"; "ResourceManagementClient"; "random_id";
   "adal"; "ClientSecretCredential"; "envs"; "config";
   "_getManagementCredentials"; "_getSampleVault"].

Definition load (w : World) (env : Env) : Result (Config * Mem) :=
  load_sample_util declared w env.

(** [new ClientSecretCredential(tenantId, clientId, secret)]: built
    locally, no request is sent. *)
Record ClientSecretCredential := {
  csc_tenantId : string;
  csc_clientId : string;
  csc_secret : string
}.

(** The permissions this generation grants, on the new vault and to the
    storage account's identity alike. *)
Definition sample_permissions : Permissions :=
  {| perm_keys := ["all"];
     perm_secrets := ["get"; "list"; "set"; "delete"; "backup"; "restore";
                      "recover"; "purge"];
     perm_storage := ["get"; "list"; "delete"; "set"; "update"; "regeneratekey";
                      "recover"; "purge"; "backup"; "restore"; "setsas";
                      "listsas"; "getsas"; "deletesas"];
     perm_certificates := None |}.

Section Sample.
Context (w : World) (config : Config).

(** ** [sample_util.js] *)

Definition _getManagementCredentials : ClientSecretCredential :=
  {| csc_tenantId := cfg_tenantId config;
     csc_clientId := cfg_clientId config;
     csc_secret := cfg_secret config |}.

Definition _getSampleVault : M VaultRef :=
  cached ← gets cfg_vault;
  match cached with
  | Some vault => ret vault
  | None =>
      let credentials := _getManagementCredentials in
      match truthy (cfg_vaultName config) with
      | Some vaultName =>
          v ← await w (VaultsGet (cfg_groupName config) vaultName);
          vault ← new_object v;
          modify (with_cfg_vault (Some vault));;
          ret vault
      | None =>
          await w (ResourceGroupsCreateOrUpdate
                     (cfg_groupName config) (cfg_azureLocation config));;
          let kvParams :=
            {| kv_location := cfg_azureLocation config;
               kv_sku_family := Some "A";
               kv_sku_name := "standard";
               kv_accessPolicies :=
                 [ {| tenantId := cfg_tenantId config;
                      objectId := cfg_objectId config;
                      permissions := sample_permissions |} ];
               kv_enabledForDeployment := false;
               kv_tenantId := cfg_tenantId config;
               kv_enableSoftDelete := Some true;
               kv_enablePurgeProtection := Some true |} in
          kvName ← call_random_id w;
          console_log ("Creating sample key vault: " +:+ kvName);;
          v ← await w (VaultsBeginCreateOrUpdateAndWait (cfg_groupName config) kvName
                         (NewVault kvParams));
          vault ← new_object v;
          modify (with_cfg_vault (Some vault));;
          ret vault
      end
  end.

(** ** [storage_account_sample.js] *)

(** The [try { ... } catch (e) { ... }] around the role assignment. *)
Definition grant_key_operator_role
    (storageAccount : StorageAccount) (roleAssignmentName roleDefinitionId : string)
  : M unit :=
  try_catch
    (await w (RoleAssignmentsCreate (sa_id storageAccount) roleAssignmentName
                roleDefinitionId KEY_VAULT_SERVICE_ID);;
     console_log GRANTED_ROLE_MESSAGE)
    (λ e, if decide (err_code e ≠ Some "RoleAssignmentExists")
          then throw e
          else ret tt).

(** [storageAccount.identity.principalId] *)
Definition identity_principalId (storageAccount : StorageAccount) : M string :=
  match sa_identity storageAccount with
  | Some p => ret p
  | None => throw (undefined_property "principalId")
  end.

(** The [encryption] patch that binds the account to a vault key. *)
Definition keyvault_encryption (keyName uri : string) : Encryption :=
  {| enc_keySource := "Microsoft.Keyvault";
     enc_keyVaultProperties := Some (keyName, uri);
     enc_blob := Some (true, "Account") |}.

(** The rest of [addStorageAccount], from the comment "We now can
    grant the user access to the vault" on. *)
Definition grant_vault_access_and_register
    (vault : VaultRef) (storageAccount : StorageAccount) : M StorageAccount :=
  principalId ← identity_principalId storageAccount;
  let accessPolicyEntry :=
    {| tenantId := cfg_tenantId config;
       objectId := principalId;
       permissions := sample_permissions |} in
  push_accessPolicy vault accessPolicyEntry;;
  v ← deref vault;
  await w (VaultsBeginCreateOrUpdateAndWait (cfg_groupName config) (vault_name v)
             (WholeVault v));;
  console_log "Granted user access to vault.";;
  v ← deref vault;
  await w (CreateKey (vaultUri v) "key1" "RSA");;
  v ← deref vault;
  await w (StorageAccountsUpdate (cfg_groupName config) (sa_name storageAccount)
             (keyvault_encryption "key1" (vaultUri v)));;
  console_log "Added storage account to vault.";;
  ret storageAccount.

Definition addStorageAccount (vault : VaultRef) : M StorageAccount :=
  console_log ("Creating storage account: " +:+ cfg_storageAccName config);;
  let createParams :=
    {| scp_location := cfg_azureLocation config;
       scp_sku := "Standard_RAGRS";
       scp_kind := "StorageV2";
       scp_identity := Some "SystemAssigned" |} in
  storageAccount ← await w (StorageAccountsBeginCreateAndWait (cfg_groupName config)
                              (cfg_storageAccName config) createParams);
  roleList ← await w (RoleDefinitionsList "/" KEY_OPERATOR_ROLE_FILTER);
  roleDefinitionId ← first_role_id roleList;
  roleAssignmentName ← call_uuidv4 w;
  grant_key_operator_role storageAccount roleAssignmentName roleDefinitionId;;
  grant_vault_access_and_register vault storageAccount.

Definition updateStorageAccount (storageAccount : StorageAccount) (vault : VaultRef)
  : M unit :=
  v ← deref vault;
  await w (CreateKey (vaultUri v) "key2" "RSA");;
  v ← deref vault;
  await w (StorageAccountsUpdate (cfg_groupName config) (sa_name storageAccount)
             (keyvault_encryption "key2" (vaultUri v))).

Definition regenerateStorageAccountKey (storageAccount : StorageAccount) : M unit :=
  console_log "Regenerating storage account key1";;
  await w (StorageAccountsRegenerateKey (cfg_groupName config)
             (sa_name storageAccount) "key1").

Definition createAccountSASDefinition (storageAccount : StorageAccount) : M unit :=
  let policy :=
    {| asp_keyToSign := "key1";
       asp_sharedAccessStartTime := "2022-04-11";
       asp_sharedAccessExpiryTime := "2022-05-24";
       asp_protocols := "https,http";
       asp_services := "bfqt";
       asp_resourceTypes := "sco";
       asp_permissions := "acdlpruw" |} in
  sasToken ← await w (StorageAccountsListAccountSAS (cfg_groupName config)
                        (sa_name storageAccount) policy);
  let serviceUrl :=
    "https://" +:+ sa_name storageAccount +:+ ".blob.core.windows.net?"
    +:+ accountSasToken sasToken in
  console_log "Created sample container using account SAS definition.";;
  await w (ContainerCreate serviceUrl "sample-container");;
  console_log "Created sample blob using account SAS definition.";;
  let content := "test data" in
  let blobName := "blob1" in
  await w (BlockBlobUpload serviceUrl "sample-container" blobName content
             (String.length content));;
  console_log ("Upload block blob " +:+ blobName +:+ " successfully").

Definition deleteStorageAccount (storageAccount : StorageAccount) : M unit :=
  await w (StorageAccountsUpdate (cfg_groupName config) (sa_name storageAccount)
             {| enc_keySource := "Microsoft.Storage";
                enc_keyVaultProperties := None;
                enc_blob := None |});;
  console_log "The storage account has been removed from the vault".

Definition main : M unit :=
  console_log "Azure Key Vault - Managed Storage Account Key Sample";;
  vault ← _getSampleVault;
  storageAccount ← addStorageAccount vault;
  updateStorageAccount storageAccount vault;;
  regenerateStorageAccountKey storageAccount;;
  createAccountSASDefinition storageAccount;;
  deleteStorageAccount storageAccount.
End Sample.

Definition program (w : World) (mode : RejectionMode) (env : Env) : Exit :=
  node mode (load w env) (main w).
End Modern.


(** * The two generations side by side *)

Inductive Generation := LegacySdk | ModernSdk.

Definition load_of (g : Generation) : World → Env → Result (Config * Mem) :=
  match g with LegacySdk => Legacy.load | ModernSdk => Modern.load end.

Definition getSampleVault_of (g : Generation) : World → Config → M VaultRef :=
  match g with
  | LegacySdk => Legacy._getSampleVault
  | ModernSdk => Modern._getSampleVault
  end.

Definition addStorageAccount_of (g : Generation)
  : World → Config → VaultRef → M StorageAccount :=
  match g with
  | LegacySdk => Legacy.addStorageAccount
  | ModernSdk => Modern.addStorageAccount
  end.

Definition grant_key_operator_role_of (g : Generation)
  : World → StorageAccount → string → string → M unit :=
  match g with
  | LegacySdk => Legacy.grant_key_operator_role
  | ModernSdk => Modern.grant_key_operator_role
  end.

(** Teardown, with the arguments [main] gives it. *)
Definition deleteStorageAccount_of (g : Generation)
  : World → Config → VaultRef → StorageAccount → M unit :=
  match g with
  | LegacySdk => λ w config vault sa, Legacy.deleteStorageAccount w config vault sa
  | ModernSdk => λ w config _ sa, Modern.deleteStorageAccount w config sa
  end.

Definition main_of (g : Generation) : World → Config → M unit :=
  match g with LegacySdk => Legacy.main | ModernSdk => Modern.main end.

Definition program_of (g : Generation) : World → RejectionMode → Env → Exit :=
  match g with LegacySdk => Legacy.program | ModernSdk => Modern.program end.

(** * Properties of call logs *)

Definition one_of (names : list string) (x : string) : bool :=
  bool_decide (x ∈ names).

(** The rejection [addStorageAccount] recovers from. *)
Definition conflict_swallowed (ev : Event) : bool :=
  match ev_error ev with
  | Some e => bool_decide (ev_method ev = "roleAssignments.create"
                           ∧ err_code e = Some "RoleAssignmentExists")
  | None => false
  end.

(** A call has completed when it was accepted, or rejected with the
    conflict the script treats as acceptance. *)
Definition completed (ev : Event) : bool :=
  match ev_error ev with
  | None => true
  | Some _ => conflict_swallowed ev
  end.

(** The other rejection the script recovers from: a token of the
    logged-in user that [acquireToken] does not give.  The older
    [_getUserCredentials] prints the error and logs in interactively. *)
Definition refresh_swallowed (ev : Event) : bool :=
  match ev_error ev with
  | Some _ => bool_decide (ev_method ev = "acquireToken")
  | None => false
  end.

Definition swallowed (ev : Event) : bool :=
  conflict_swallowed ev || refresh_swallowed ev.

(** A call is settled when the run can go on after it: it was accepted,
    or its rejection is one of the two that are swallowed. *)
Definition settled (ev : Event) : bool :=
  match ev_error ev with
  | None => true
  | Some _ => swallowed ev
  end.

(** The kinds of calls by which a user logs in or a token is obtained for
    a Key Vault client.  The authenticators of the clients make them, as
    often as the clients ask; [addStorageAccount] of the older sample makes
    the first login and one [getToken] itself. *)
Definition authentication : string → bool :=
  one_of ["interactiveLogin"; "acquireToken"; "getToken";
          "acquireTokenWithClientCredentials"].

(** The steps of a log: its calls other than those of [authentication]. *)
Definition steps (evs : list Event) : list Event :=
  filter (λ ev, authentication (ev_method ev) = false) evs.

(** Shape of what one computation adds to the log: every call settled,
    except that a thrown error may stem from a last, rejected call. *)
Definition stops_at_failure {A} (evs : list Event) (r : Result A) : Prop :=
  match r with
  | inr _ => Forall (λ ev, settled ev = true) evs
  | inl e =>
      Forall (λ ev, settled ev = true) evs
      ∨ ∃ pre ev, evs = (pre ++ [ev])%list
                  ∧ Forall (λ ev, settled ev = true) pre
                  ∧ ev_error ev = Some e ∧ settled ev = false
  end.

(** The same when every error is a rejection that is thrown on. *)
Definition ends_at_rejection {A} (evs : list Event) (r : Result A) : Prop :=
  match r with
  | inr _ => Forall (λ ev, settled ev = true) evs
  | inl e =>
      ∃ pre ev, evs = (pre ++ [ev])%list
                ∧ Forall (λ ev, settled ev = true) pre
                ∧ ev_error ev = Some e ∧ settled ev = false
  end.

(** What the authenticator of [_getKeyVaultClient] asks for: a token for
    the service principal of [config]. *)
Definition client_token_request (config : Config) (ev : Event) : Prop :=
  match ev with
  | Ev (AcquireTokenWithClientCredentials _ _ clientId secret) _ =>
      clientId = cfg_clientId config ∧ secret = cfg_secret config
  | _ => False
  end.

(** What the authenticator of [_getKeyVaultUserClient] asks for: a token
    of the logged-in user under the library's client id, an interactive
    login in the tenant of [config], the token of the credentials. *)
Definition user_token_request (w : World) (config : Config) (ev : Event) : Prop :=
  match ev with
  | Ev (AcquireToken _ _ clientId) _ => clientId = DEFAULT_ADAL_CLIENT_ID w
  | Ev (InteractiveLogin _ domain) _ => domain = cfg_tenantId config
  | Ev (CredsGetToken _) _ => True
  | _ => False
  end.

(** Every token refresh that was rejected is directly followed by an
    interactive login. *)
Definition refresh_falls_back (evs : list Event) : Prop :=
  ∀ pre ev post, evs = (pre ++ ev :: post)%list → refresh_swallowed ev = true →
    ∃ next rest, post = next :: rest ∧ ev_method next = "interactiveLogin".

(** [follows P m L Q]: started in a memory satisfying [P], the computation
    [m] takes the steps named by [L], in that order, stopping early only
    when it throws; when it returns, the memory satisfies [Q]. *)
Definition follows {A} (P : Mem → Prop) (m : M A) (L : list string) (Q : Mem → Prop)
  : Prop :=
  ∀ st r st', P (mem st) → m st = (r, st') →
    ∃ evs, calls st' = (calls st ++ evs)%list
           ∧ stops_at_failure evs r
           ∧ match r with
             | inr _ => ev_method <$> steps evs = L ∧ Q (mem st')
             | inl _ => (ev_method <$> steps evs) `prefix_of` L
             end.

Definition anyhow : Mem → Prop := λ _, True.

(** The kinds of calls that are steps. *)
Definition kind_of_steps (K : string → bool) : Prop :=
  ∀ x, K x = true → authentication x = false.

(** "Every call of kind [B] comes after a completed call of kind [A]". *)
Definition completes_before (A B : string → bool) (tr : list Event) : Prop :=
  ∀ pre ev post, tr = (pre ++ ev :: post)%list → B (ev_method ev) = true →
    ∃ ev', ev' ∈ pre ∧ A (ev_method ev') = true ∧ completed ev' = true.

(** The same on a list of operation names, as a check: scanning from the
    left, an [A] must have been seen before each [B]. *)
Fixpoint guarded (A B : string → bool) (seen : bool) (L : list string) : bool :=
  match L with
  | [] => true
  | x :: L' => (if B x then seen else true) && guarded A B (seen || A x) L'
  end.

(** Kinds of calls. *)
Definition vault_acquisition : string → bool :=
  one_of ["vaults.get"; "vaults.createOrUpdate"; "vaults.beginCreateOrUpdateAndWait"].
Definition storage_account_creation : string → bool :=
  one_of ["storageAccounts.create"; "storageAccounts.beginCreateAndWait"].
Definition role_assignment : string → bool :=
  one_of ["roleAssignments.create"].
Definition key_management : string → bool :=
  one_of ["setStorageAccount"; "updateStorageAccount"; "regenerateStorageAccountKey";
          "createKey"; "storageAccounts.update"; "storageAccounts.regenerateKey"].
Definition sas_definition : string → bool :=
  one_of ["setSasDefinition"; "storageAccounts.listAccountSAS"].
Definition sas_token_issuance : string → bool :=
  one_of ["getSecret"; "storageAccounts.listAccountSAS"].
Definition data_plane_write : string → bool :=
  one_of ["createContainerIfNotExists"; "createBlockBlobFromText";
          "containerClient.create"; "blockBlobClient.upload"].
Definition vault_management : string → bool :=
  one_of ["vaults.get"; "vaults.createOrUpdate"; "vaults.beginCreateOrUpdateAndWait";
          "vaults.delete"; "vaults.update"; "vaults.updateAccessPolicy";
          "vaults.purgeDeleted"].
Definition storage_account_deletion : string → bool :=
  one_of ["storageAccounts.delete"; "storageAccounts.beginDeleteAndWait"].

(** The steps of a whole run of [main], in order. *)
Definition vault_script (g : Generation) (config : Config) : list string :=
  match g, truthy (cfg_vaultName config) with
  | LegacySdk, Some _ => ["loginWithServicePrincipalSecret"; "vaults.get"]
  | LegacySdk, None =>
      ["loginWithServicePrincipalSecret"; "resourceGroups.createOrUpdate";
       "vaults.createOrUpdate"]
  | ModernSdk, Some _ => ["vaults.get"]
  | ModernSdk, None =>
      ["resourceGroups.createOrUpdate"; "vaults.beginCreateOrUpdateAndWait"]
  end.

Definition workflow_script (g : Generation) : list string :=
  match g with
  | LegacySdk =>
      ["storageAccounts.create"; "roleDefinitions.list";
       "roleAssignments.create"; "loginWithServicePrincipalSecret";
       "vaults.createOrUpdate"; "setStorageAccount";
       "updateStorageAccount"; "updateStorageAccount";
       "regenerateStorageAccountKey";
       "getStorageAccounts";
       "setSasDefinition"; "getSecret"; "createContainerIfNotExists";
       "createBlockBlobFromText";
       "setSasDefinition"; "getSecret"; "createBlockBlobFromText";
       "getSasDefinitions";
       "deleteStorageAccount"]
  | ModernSdk =>
      ["storageAccounts.beginCreateAndWait"; "roleDefinitions.list";
       "roleAssignments.create"; "vaults.beginCreateOrUpdateAndWait";
       "createKey"; "storageAccounts.update";
       "createKey"; "storageAccounts.update";
       "storageAccounts.regenerateKey";
       "storageAccounts.listAccountSAS"; "containerClient.create";
       "blockBlobClient.upload";
       "storageAccounts.update"]
  end.

Definition script (g : Generation) (config : Config) : list string :=
  (vault_script g config ++ workflow_script g)%list.

(** The memory [main] starts from: no vault cached, no user logged in. *)
Definition at_start (m : Mem) : Prop := cfg_vault m = None ∧ cfg_userId m = None.

(** ** The access-policy lists only grow *)

Definition heap_extends (h h' : list Vault) : Prop :=
  ∀ r v, h !! r = Some v →
    ∃ v', h' !! r = Some v' ∧ accessPolicies v `prefix_of` accessPolicies v'.

Definition append_only {A} (m : M A) : Prop :=
  ∀ st r st', m st = (r, st') → heap_extends (heap (mem st)) (heap (mem st')).


(** The names under which vaults were created or updated, in order. *)
Definition vault_creations (evs : list Event) : list string :=
  omap ev_pushed_vault_name evs.

(** The vault lookups, with the group and name looked up. *)
Definition vault_lookup (ev : Event) : option (string * string) :=
  match ev with
  | Ev (VaultsGet group name) _ => Some (group, name)
  | _ => None
  end.

Definition vault_lookups (evs : list Event) : list (string * string) :=
  omap vault_lookup evs.

(** The calls that a first acquisition without a configured name makes
    before it creates the vault. *)
Definition before_vault_creation : string → bool :=
  one_of ["loginWithServicePrincipalSecret"; "resourceGroups.createOrUpdate"].

(** The one call teardown makes to the services, given the vault object
    and the account. *)
Definition teardown_call (g : Generation) (config : Config) (v : Vault)
    (sa : StorageAccount) (rejected : option JsError) : Event :=
  match g with
  | LegacySdk => Ev (DeleteStorageAccount (vaultUri v) (sa_name sa)) rejected
  | ModernSdk =>
      Ev (StorageAccountsUpdate (cfg_groupName config) (sa_name sa)
            {| enc_keySource := "Microsoft.Storage";
               enc_keyVaultProperties := None;
               enc_blob := None |}) rejected
  end.

(** ** Finding one call in a log *)

(** The first entry satisfying [P], with what precedes and follows it. *)
Fixpoint split_on (P : Event → bool) (l : list Event)
  : option (list Event * Event * list Event) :=
  match l with
  | [] => None
  | x :: l' =>
      if P x then Some ([], x, l')
      else match split_on P l' with
           | Some (pre, y, post) => Some (x :: pre, y, post)
           | None => None
           end
  end.

Definition is_role_assignment (ev : Event) : bool :=
  match ev with
  | Ev (RoleAssignmentsCreate _ _ _ _) _ => true
  | _ => false
  end.

(** Calls that send a whole vault object to the service. *)
Definition pushes_whole_vault (ev : Event) : bool :=
  match ev_pushed_vault ev with
  | Some (WholeVault _) => true
  | _ => false
  end.

(** [v] with one more access-policy entry at the end. *)
Definition with_policy (v : Vault) (entry : AccessPolicyEntry) : Vault :=
  {| vault_name := vault_name v; vaultUri := vaultUri v;
     accessPolicies := (accessPolicies v ++ [entry])%list |}.

(** The call with which [addStorageAccount] goes on after the role
    assignment. *)
Definition first_call_after_role_grant (g : Generation) : string :=
  match g with
  | LegacySdk => "loginWithServicePrincipalSecret"
  | ModernSdk => "vaults.beginCreateOrUpdateAndWait"
  end.

(** * Worlds used to exercise the model *)
Module Fixtures.

Definition sample_vault : Vault :=
  {| vault_name := "samplevault";
     vaultUri := "https://samplevault.vault.azure.net/";
     accessPolicies := [] |}.

Definition sample_account : StorageAccount :=
  {| sa_id := "/subscriptions/sub/storageAccounts/sa0";
     sa_name := "sa0";
     sa_identity := Some "account-principal" |}.

Definition sample_credentials : Credentials :=
  {| cred_username := "user@example.com";
     cred_tokenAudience := "https://management.core.windows.net/";
     cred_domain := "tenant" |}.

(** What a call resolves to when the service accepts it. *)
Definition fulfilment {R} (c : Call R) : R :=
  match c in Call R return R with
  | InteractiveLogin _ _ => sample_credentials
  | AcquireToken r u _ => {| tok_resource := r; tok_userId := u |}
  | LoginWithServicePrincipalSecret _ _ _ => sample_credentials
  | CredsGetToken _ =>
      {| tok_oid := "user-oid"; tok_tokenType := "Bearer"; tok_accessToken := "user-jwt" |}
  | AcquireTokenWithClientCredentials _ _ _ _ =>
      {| tok_oid := "sp-oid"; tok_tokenType := "Bearer"; tok_accessToken := "sp-jwt" |}
  | StorageAccountsCreate _ _ _ => sample_account
  | VaultsCreateOrUpdate _ _ _ => sample_vault
  | SetStorageAccount _ _ _ _ _ _ _ => tt
  | UpdateStorageAccount _ _ _ => tt
  | RegenerateStorageAccountKey _ _ _ => tt
  | GetStorageAccounts _ => [ {| item_resourceId := sa_id sample_account |} ]
  | SetSasDefinition _ _ d _ _ _ _ =>
      {| sas_id := "sas/" +:+ d; sas_secretId := "secrets/" +:+ d |}
  | GetSecret _ _ _ => {| secret_value := "sv=token" |}
  | GetSasDefinitions _ _ =>
      [ {| sas_id := "sas/acctall"; sas_secretId := "secrets/acctall" |} ]
  | DeleteStorageAccount _ _ => tt
  | CreateContainerIfNotExists _ _ => tt
  | CreateBlockBlobFromText _ _ _ _ => tt
  | StorageAccountsBeginCreateAndWait _ _ _ => sample_account
  | VaultsBeginCreateOrUpdateAndWait _ _ _ => sample_vault
  | CreateKey _ _ _ => tt
  | StorageAccountsUpdate _ _ _ => tt
  | StorageAccountsRegenerateKey _ _ _ => tt
  | StorageAccountsListAccountSAS _ _ _ => {| accountSasToken := "sv=token" |}
  | ContainerCreate _ _ => tt
  | BlockBlobUpload _ _ _ _ _ => tt
  | VaultsGet _ _ => sample_vault
  | ResourceGroupsCreateOrUpdate _ _ => tt
  | RoleDefinitionsList _ _ => [ {| role_id := "role-definition-0" |} ]
  | RoleAssignmentsCreate _ _ _ _ => tt
  end.

(** The challenge of the vault service. *)
Definition vault_challenge : Challenge :=
  {| ch_authorization := "https://login.windows.net/tenant";
     ch_resource := "https://vault.azure.net" |}.

(** A world that rejects the calls named in [faults] with the given
    errors and accepts every other call.  Every operation of a Key
    Vault client meets one challenge. *)
Definition world_with (faults : list (string * JsError)) : World :=
  {| respond := λ R _ c,
       match list_find (λ f, f.1 = method c) faults with
       | Some (_, (_, e)) => inl e
       | None => inr (fulfilment c)
       end;
     challenges := λ R _ c, [vault_challenge];
     random_id := λ n, "id" +:+ pretty n;
     uuidv4 := λ n, "uuid" +:+ pretty n;
     DEFAULT_ADAL_CLIENT_ID := "04b07795-8ddb-461a-bbee-02f9e1bf7b46";
     CLOUD_BLOB_HOST := "blob.core.windows.net";
     generateAccountSharedAccessSignature := λ account _ p,
       "sv=template&sp=" +:+ pol_Permissions p;
     generateSharedAccessSignature := λ _ _ _ perms, "sv=template&sp=" +:+ perms;
     getUrl := λ account container token,
       "https://" +:+ account +:+ ".blob.core.windows.net/" +:+ container
       +:+ "?" +:+ token;
     parseSecretIdentifier := λ id,
       inr {| sid_vault := "https://samplevault.vault.azure.net"; sid_name := id |} |}.

Definition happy : World := world_with [].

Definition service_error (code : string) : JsError :=
  {| err_name := "Error"; err_code := Some code; err_message := code |}.

(** All five required variables set. *)
Definition full_env : Env :=
  list_to_map
    [("AZURE_SUBSCRIPTION_ID", "sub"); ("AZURE_TENANT_ID", "tenant");
     ("AZURE_CLIENT_ID", "client"); ("AZURE_CLIENT_OID", "oid");
     ("AZURE_CLIENT_SECRET", "secret")].

(** The same, with a vault name configured. *)
Definition vault_env : Env := <["AZURE_SAMPLE_VAULT_NAME" := "myvault"]> full_env.

(** The tenant id left out. *)
Definition env_without_tenant : Env := delete "AZURE_TENANT_ID" full_env.

Definition sample_config : Config := (build_config happy full_env).1.
Definition vault_config : Config := (build_config happy vault_env).1.
Definition fresh_mem : Mem := (build_config happy full_env).2.
Definition fresh_state : State := initial_state fresh_mem.

(** The role assignment already exists. *)
Definition conflict_world : World :=
  world_with [("roleAssignments.create", service_error "RoleAssignmentExists")].

(** The principal may not list role definitions. *)
Definition denied_world : World :=
  world_with [("roleDefinitions.list", service_error "AuthorizationFailed")].

(** The configured vault does not exist. *)
Definition no_vault_world : World :=
  world_with [("vaults.get", service_error "ResourceNotFound")].

(** The resource group cannot be created. *)
Definition no_group_world : World :=
  world_with [("resourceGroups.createOrUpdate", service_error "AuthorizationFailed")].

(** The token cache has nothing for the logged-in user. *)
Definition stale_token_world : World :=
  world_with [("acquireToken", service_error "token_expired")].

(** The service principal gets no token for the vault. *)
Definition no_client_token_world : World :=
  world_with [("acquireTokenWithClientCredentials", service_error "invalid_client")].

(** Runs used below. *)
Definition conflict_run (g : Generation) : Result unit * State :=
  main_of g conflict_world sample_config fresh_state.
Definition denied_run : Result unit * State :=
  main_of ModernSdk denied_world vault_config fresh_state.

(** A state in which the vault has been acquired: one vault object in
    memory, referred to by [config.vault]. *)
Definition state_with_vault : State :=
  {| mem := with_cfg_vault (Some 0) (with_heap [sample_vault] fresh_mem);
     calls := []; console := [] |}.

(** The [i]-th entry of a log. *)
Definition entry (i : nat) (log : list Event) : Event :=
  default (Ev (VaultsGet EmptyString EmptyString) None) (log !! i).
End Fixtures.


(** * Further vocabulary for the properties of the single functions *)

(** The variables the validation block of [sample_util.js] asks for, in
    the order of its [if] statements. *)
Definition required_variables : list string :=
  ["AZURE_SUBSCRIPTION_ID"; "AZURE_TENANT_ID"; "AZURE_CLIENT_ID";
   "AZURE_CLIENT_OID"; "AZURE_CLIENT_SECRET"].

(** [env] gives [name] the non-empty value [value]. *)
Definition provides (env : Env) (name value : string) : Prop :=
  env !! name = Some value ∧ value ≠ EmptyString.

(** The arguments of a role assignment: scope, name, role definition and
    principal. *)
Definition role_assignment_of (ev : Event) : option (string * string * string * string) :=
  match ev with
  | Ev (RoleAssignmentsCreate scope name roleDefinitionId principalId) _ =>
      Some (scope, name, roleDefinitionId, principalId)
  | _ => None
  end.

(** The role assignments in a log. *)
Definition role_assignments (evs : list Event) : list (string * string * string * string) :=
  omap role_assignment_of evs.

(** The blob service through which a data-plane write of the older
    sample goes. *)
Definition write_service (ev : Event) : option BlobService :=
  match ev with
  | Ev (CreateContainerIfNotExists svc _) _ => Some svc
  | Ev (CreateBlockBlobFromText svc _ _ _) _ => Some svc
  | _ => None
  end.

(** The call was accepted. *)
Definition accepted (ev : Event) : bool :=
  match ev_error ev with None => true | Some _ => false end.

(** The service URL a data-plane write of the newer sample goes to. *)
Definition write_url (ev : Event) : option string :=
  match ev with
  | Ev (ContainerCreate url _) _ => Some url
  | Ev (BlockBlobUpload url _ _ _ _) _ => Some url
  | _ => None
  end.

(** The permissions the older sample grants. *)
Definition every_permission : Permissions :=
  {| perm_keys := ["all"]; perm_secrets := ["all"]; perm_storage := ["all"];
     perm_certificates := Some ["all"] |}.

(** ** What the calls of a run name *)

(** The resource group a call names. *)
Definition ev_group (ev : Event) : option string :=
  match ev with
  | Ev (StorageAccountsCreate group _ _) _ => Some group
  | Ev (VaultsCreateOrUpdate group _ _) _ => Some group
  | Ev (StorageAccountsBeginCreateAndWait group _ _) _ => Some group
  | Ev (VaultsBeginCreateOrUpdateAndWait group _ _) _ => Some group
  | Ev (StorageAccountsUpdate group _ _) _ => Some group
  | Ev (StorageAccountsRegenerateKey group _ _) _ => Some group
  | Ev (StorageAccountsListAccountSAS group _ _) _ => Some group
  | Ev (VaultsGet group _) _ => Some group
  | Ev (ResourceGroupsCreateOrUpdate group _) _ => Some group
  | _ => None
  end.

(** The location in which a call creates something. *)
Definition ev_location (ev : Event) : option string :=
  match ev with
  | Ev (StorageAccountsCreate _ _ p) _ => Some (scp_location p)
  | Ev (StorageAccountsBeginCreateAndWait _ _ p) _ => Some (scp_location p)
  | Ev (VaultsCreateOrUpdate _ _ (NewVault p)) _ => Some (kv_location p)
  | Ev (VaultsBeginCreateOrUpdateAndWait _ _ (NewVault p)) _ => Some (kv_location p)
  | Ev (ResourceGroupsCreateOrUpdate _ location) _ => Some location
  | _ => None
  end.

(** The tenant a login is made in or a new vault is bound to. *)
Definition ev_tenant (ev : Event) : option string :=
  match ev with
  | Ev (InteractiveLogin _ domain) _ => Some domain
  | Ev (LoginWithServicePrincipalSecret _ _ tenant) _ => Some tenant
  | Ev (VaultsCreateOrUpdate _ _ (NewVault p)) _ => Some (kv_tenantId p)
  | Ev (VaultsBeginCreateOrUpdateAndWait _ _ (NewVault p)) _ => Some (kv_tenantId p)
  | _ => None
  end.


(** The vault URI a call is addressed to, or carries in a vault
    definition or an encryption setting.  ([getSecret] is addressed to
    the vault named by the secret's identifier and is left out.) *)
Definition ev_vaultUri (ev : Event) : option string :=
  match ev with
  | Ev (SetStorageAccount uri _ _ _ _ _ _) _ => Some uri
  | Ev (UpdateStorageAccount uri _ _) _ => Some uri
  | Ev (RegenerateStorageAccountKey uri _ _) _ => Some uri
  | Ev (GetStorageAccounts uri) _ => Some uri
  | Ev (SetSasDefinition uri _ _ _ _ _ _) _ => Some uri
  | Ev (GetSasDefinitions uri _) _ => Some uri
  | Ev (DeleteStorageAccount uri _) _ => Some uri
  | Ev (CreateKey uri _ _) _ => Some uri
  | Ev (StorageAccountsUpdate _ _ enc) _ => snd <$> enc_keyVaultProperties enc
  | Ev (VaultsCreateOrUpdate _ _ (WholeVault v)) _ => Some (vaultUri v)
  | Ev (VaultsBeginCreateOrUpdateAndWait _ _ (WholeVault v)) _ => Some (vaultUri v)
  | _ => None
  end.

(** ** Invariants of runs *)

(** Properties of logs that hold of the empty log and of two logs put
    one after the other. *)
Class TraceClosed (T : list Event → Prop) := {
  closed_nil : T [];
  closed_app : ∀ a b, T a → T b → T (a ++ b)%list
}.

(** [keeps I T m]: started in a memory satisfying [I], the computation
    [m] ends in a memory satisfying [I], and the calls it has added to
    the log satisfy [T]. *)
Definition keeps {A} (I : Mem → Prop) (T : list Event → Prop) (m : M A) : Prop :=
  ∀ st r st', I (mem st) → m st = (r, st') →
    I (mem st') ∧ ∃ evs, calls st' = (calls st ++ evs)%list ∧ T evs.

(** The call is addressed to the vault at [uri], if to any. *)
Definition addressed_to (uri : string) (ev : Event) : Prop :=
  ∀ u, ev_vaultUri ev = Some u → u = uri.

(** The vault object behind [vault] is at [uri]. *)
Definition vault_at (vault : VaultRef) (uri : string) (m : Mem) : Prop :=
  ∃ v, heap m !! vault = Some v ∧ vaultUri v = uri.

(** The vault key to which an update binds the encryption of a storage
    account: key name and vault URI. *)
Definition bound_key (ev : Event) : option (string * string) :=
  match ev with
  | Ev (StorageAccountsUpdate _ _ enc) _ => enc_keyVaultProperties enc
  | _ => None
  end.

(** The key an accepted [createKey] has made: key name and vault URI. *)
Definition created_key (ev : Event) : option (string * string) :=
  match ev with
  | Ev (CreateKey uri name _) None => Some (name, uri)
  | _ => None
  end.

(** Every call that binds an account to a key comes directly after the
    accepted creation of that very key; [prev] is the call before the
    first one of the log. *)
Fixpoint keys_made_first (prev : option Event) (evs : list Event) : Prop :=
  match evs with
  | [] => True
  | ev :: rest =>
      (∀ key, bound_key ev = Some key → ∃ c, prev = Some c ∧ created_key c = Some key)
      ∧ keys_made_first (Some ev) rest
  end.

(** The storage account a call is about, by name.  (The creation, which
    asks for a name, is looked at apart.) *)
Definition ev_account (ev : Event) : option string :=
  match ev with
  | Ev (SetStorageAccount _ account _ _ _ _ _) _ => Some account
  | Ev (UpdateStorageAccount _ account _) _ => Some account
  | Ev (RegenerateStorageAccountKey _ account _) _ => Some account
  | Ev (SetSasDefinition _ account _ _ _ _ _) _ => Some account
  | Ev (GetSasDefinitions _ account) _ => Some account
  | Ev (DeleteStorageAccount _ account) _ => Some account
  | Ev (StorageAccountsUpdate _ name _) _ => Some name
  | Ev (StorageAccountsRegenerateKey _ name _) _ => Some name
  | Ev (StorageAccountsListAccountSAS _ name _) _ => Some name
  | _ => None
  end.

(** The name under which a call asks for a new storage account. *)
Definition ev_new_account (ev : Event) : option string :=
  match ev with
  | Ev (StorageAccountsCreate _ name _) _ => Some name
  | Ev (StorageAccountsBeginCreateAndWait _ name _) _ => Some name
  | _ => None
  end.

(** The call is about the account [name], if about any. *)
Definition about (name : string) (ev : Event) : Prop :=
  ∀ n, ev_account ev = Some n → n = name.

(** What [main] does once it has the storage account, and once it has
    the vault. *)
Definition after_addStorageAccount (g : Generation) (w : World) (config : Config)
    (vault : VaultRef) (storageAccount : StorageAccount) : M unit :=
  match g with
  | LegacySdk =>
      Legacy.updateStorageAccount w config storageAccount vault;;
      Legacy.regenerateStorageAccountKey w config storageAccount vault;;
      Legacy.getStorageAccounts w config vault;;
      Legacy.createAccountSASDefinition w config storageAccount vault;;
      Legacy.createBlobSASDefinition w config storageAccount vault;;
      Legacy.getSASDefinitions w config storageAccount vault;;
      Legacy.deleteStorageAccount w config vault storageAccount
  | ModernSdk =>
      Modern.updateStorageAccount w config storageAccount vault;;
      Modern.regenerateStorageAccountKey w config storageAccount;;
      Modern.createAccountSASDefinition w config storageAccount;;
      Modern.deleteStorageAccount w config storageAccount
  end.

Definition after_acquisition (g : Generation) (w : World) (config : Config)
    (vault : VaultRef) : M unit :=
  storageAccount ← addStorageAccount_of g w config vault;
  after_addStorageAccount g w config vault storageAccount.

(** ** Key rotation of the managed account (older sample) *)

(** The active key of the managed account as a call sets it, once
    accepted. *)
Definition sets_active_key (ev : Event) : option string :=
  match ev with
  | Ev (SetStorageAccount _ _ _ activeKey _ _ _) None => Some activeKey
  | Ev (UpdateStorageAccount _ _ (ActiveKeyName k)) None => Some k
  | _ => None
  end.

(** Automatic regeneration as a call sets it, once accepted. *)
Definition sets_auto_regenerate (ev : Event) : option bool :=
  match ev with
  | Ev (SetStorageAccount _ _ _ _ autoRegenerate _ _) None => Some autoRegenerate
  | Ev (UpdateStorageAccount _ _ (AutoRegenerateKey b)) None => Some b
  | _ => None
  end.

(** The key a call asks the vault to regenerate. *)
Definition regenerated_key (ev : Event) : option string :=
  match ev with
  | Ev (RegenerateStorageAccountKey _ _ k) _ => Some k
  | _ => None
  end.

(** What the calls so far have made of the managed account, as far as
    they say. *)
Record Rotation := {
  active_key : option string;
  auto_regenerate : option bool
}.

Definition nothing_set : Rotation := {| active_key := None; auto_regenerate := None |}.

Definition after_event (s : Rotation) (ev : Event) : Rotation :=
  {| active_key := match sets_active_key ev with Some k => Some k | None => active_key s end;
     auto_regenerate :=
       match sets_auto_regenerate ev with Some b => Some b | None => auto_regenerate s end |}.

(** Every regeneration asked for by hand is of a key that is not the
    active one, at a time when automatic regeneration is off. *)
Fixpoint regenerates_inactive (s : Rotation) (evs : list Event) : Prop :=
  match evs with
  | [] => True
  | ev :: rest =>
      (∀ k, regenerated_key ev = Some k →
         (∃ a, active_key s = Some a ∧ a ≠ k) ∧ auto_regenerate s = Some false)
      ∧ regenerates_inactive (after_event s ev) rest
  end.

(** [s'] says at least what [s] says. *)
Definition says_more (s s' : Rotation) : Prop :=
  (∀ a, active_key s = Some a → active_key s' = Some a)
  ∧ (∀ b, auto_regenerate s = Some b → auto_regenerate s' = Some b).

(** * More worlds *)
Module Scenarios.

(** [w], except that the calls for which [special] gives an answer
    get that answer. *)
Definition answering (special : ∀ R, Call R → option (Result R)) (w : World) : World :=
  {| respond := λ R hist c,
       match special R c with
       | Some r => r
       | None => respond w R hist c
       end;
     challenges := challenges w;
     random_id := random_id w;
     uuidv4 := uuidv4 w;
     DEFAULT_ADAL_CLIENT_ID := DEFAULT_ADAL_CLIENT_ID w;
     CLOUD_BLOB_HOST := CLOUD_BLOB_HOST w;
     generateAccountSharedAccessSignature := generateAccountSharedAccessSignature w;
     generateSharedAccessSignature := generateSharedAccessSignature w;
     getUrl := getUrl w;
     parseSecretIdentifier := parseSecretIdentifier w |}.

(** The subscription has no role of the name asked for. *)
Definition no_role_world : World :=
  answering (λ R c,
    match c in Call R return option (Result R) with
    | RoleDefinitionsList _ _ => Some (inr [])
    | _ => None
    end) Fixtures.happy.

(** Storage accounts come back without a managed identity. *)
Definition no_identity_world : World :=
  answering (λ R c,
    match c in Call R return option (Result R) with
    | StorageAccountsBeginCreateAndWait _ name _ =>
        Some (inr {| sa_id := "/subscriptions/sub/storageAccounts/" +:+ name;
                     sa_name := name;
                     sa_identity := None |})
    | _ => None
    end) Fixtures.happy.

(** The identifiers of managed secrets cannot be parsed. *)
Definition malformed_id : JsError := Error "Invalid secret identifier".
Definition unparsable_world : World :=
  {| respond := respond Fixtures.happy;
     challenges := challenges Fixtures.happy;
     random_id := random_id Fixtures.happy;
     uuidv4 := uuidv4 Fixtures.happy;
     DEFAULT_ADAL_CLIENT_ID := DEFAULT_ADAL_CLIENT_ID Fixtures.happy;
     CLOUD_BLOB_HOST := CLOUD_BLOB_HOST Fixtures.happy;
     generateAccountSharedAccessSignature :=
       generateAccountSharedAccessSignature Fixtures.happy;
     generateSharedAccessSignature := generateSharedAccessSignature Fixtures.happy;
     getUrl := getUrl Fixtures.happy;
     parseSecretIdentifier := λ _, inl malformed_id |}.
End Scenarios.
(** * Running computations: inversion lemmas *)

Lemma bind_inv {A B} (m : M A) (f : A → M B) st r st' :
  (m ≫= f) st = (r, st') →
  (∃ e, m st = (inl e, st') ∧ r = inl e)
  ∨ (∃ a st1, m st = (inr a, st1) ∧ f a st1 = (r, st')).
Proof.
  unfold mbind, M_bind, bind. destruct (m st) as [[e|a] st1].
  - intros [= <- <-]. left. by exists e.
  - intros H. right. by exists a, st1.
Qed.

Lemma ret_inv {A} (a : A) st r st' : ret a st = (r, st') → r = inr a ∧ st' = st.
Proof. unfold ret. by intros [= <- <-]. Qed.

Lemma throw_inv {A} (e : JsError) st (r : Result A) st' :
  throw e st = (r, st') → r = inl e ∧ st' = st.
Proof. unfold throw. by intros [= <- <-]. Qed.

Lemma gets_inv {A} (f : Mem → A) st r st' :
  gets f st = (r, st') → r = inr (f (mem st)) ∧ st' = st.
Proof. unfold gets. by intros [= <- <-]. Qed.

Lemma modify_inv f st r st' :
  modify f st = (r, st') →
  r = inr tt
  ∧ st' = {| mem := f (mem st); calls := calls st; console := console st |}.
Proof. unfold modify. by intros [= <- <-]. Qed.

Lemma console_log_inv line st r st' :
  console_log line st = (r, st') →
  r = inr tt
  ∧ st' = {| mem := mem st; calls := calls st;
             console := (console st ++ [line])%list |}.
Proof. unfold console_log. by intros [= <- <-]. Qed.

Lemma asked_inv w {R} (c : Call R) st r st' :
  asked w c st = (r, st') → r = inr (challenges w R (calls st) c) ∧ st' = st.
Proof. unfold asked. by intros [= <- <-]. Qed.

Lemma await_inv w {R} (c : Call R) st r st' :
  await w c st = (r, st') →
  r = respond w R (calls st) c ∧ st' = record_call (Ev c (rejection r)) st.
Proof. unfold await. by intros [= <- <-]. Qed.

Lemma try_catch_inv {A} (m : M A) (h : JsError → M A) st r st' :
  try_catch m h st = (r, st') →
  (∃ a, m st = (inr a, st') ∧ r = inr a)
  ∨ (∃ e st1, m st = (inl e, st1) ∧ h e st1 = (r, st')).
Proof.
  unfold try_catch. destruct (m st) as [[e|a] st1].
  - intros H. right. by exists e, st1.
  - intros [= <- <-]. left. by exists a.
Qed.

(** One step of running a computation whose outcome is known. *)
Ltac run_step :=
  match goal with
  | H : (_ ≫= _) _ = (_, _) |- _ =>
      apply bind_inv in H as [(? & H & ?) | (? & ? & ? & H)]
  | H : ret _ _ = (_, _) |- _ => apply ret_inv in H as [? ?]
  | H : throw _ _ = (_, _) |- _ => apply throw_inv in H as [? ?]
  | H : gets _ _ = (_, _) |- _ => apply gets_inv in H as [? ?]
  | H : modify _ _ = (_, _) |- _ => apply modify_inv in H as [? ?]
  | H : console_log _ _ = (_, _) |- _ => apply console_log_inv in H as [? ?]
  | H : asked _ _ _ = (_, _) |- _ => apply asked_inv in H as [? ?]
  | H : await _ _ _ = (_, _) |- _ => apply await_inv in H as [? ?]
  | H : try_catch _ _ _ = (_, _) |- _ =>
      apply try_catch_inv in H as [(? & H & ?) | (? & ? & ? & H)]
  end; simplify_eq/=.

Ltac run := repeat run_step.

Lemma new_object_inv v st r st' :
  new_object v st = (r, st') →
  r = inr (length (heap (mem st)))
  ∧ st' = {| mem := with_heap (heap (mem st) ++ [v]) (mem st);
             calls := calls st; console := console st |}.
Proof. unfold new_object. intros H. by run. Qed.

Lemma deref_inv r0 st r st' :
  deref r0 st = (r, st') →
  st' = st
  ∧ match heap (mem st) !! r0 with
    | Some v => r = inr v
    | None => r = inl (undefined_property "properties")
    end.
Proof.
  unfold deref. intros H. run.
  destruct (heap (mem st) !! r0); by run.
Qed.

Lemma push_accessPolicy_inv r0 entry st r st' :
  push_accessPolicy r0 entry st = (r, st') →
  match heap (mem st) !! r0 with
  | Some v =>
      r = inr tt
      ∧ st' = {| mem := with_heap
                   (<[r0 := {| vault_name := vault_name v; vaultUri := vaultUri v;
                               accessPolicies := (accessPolicies v ++ [entry])%list |}]>
                      (heap (mem st))) (mem st);
                 calls := calls st; console := console st |}
  | None => r = inl (undefined_property "properties") ∧ st' = st
  end.
Proof.
  unfold push_accessPolicy. intros H. run_step.
  - apply deref_inv in H as [-> H]. destruct (heap (mem st) !! r0); by simplify_eq.
  - apply deref_inv in H0 as [-> H0]. destruct (heap (mem st) !! r0); by run.
Qed.

Lemma call_random_id_inv w st r st' :
  call_random_id w st = (r, st') →
  r = inr (random_id w (draws (mem st)))
  ∧ st' = {| mem := with_draws (S (draws (mem st))) (mem st);
             calls := calls st; console := console st |}.
Proof. unfold call_random_id. intros H. by run. Qed.

Lemma call_uuidv4_inv w st r st' :
  call_uuidv4 w st = (r, st') →
  r = inr (uuidv4 w (uuids (mem st)))
  ∧ st' = {| mem := with_uuids (S (uuids (mem st))) (mem st);
             calls := calls st; console := console st |}.
Proof. unfold call_uuidv4. intros H. by run. Qed.

(** * Stepping through a computation *)

Section Steps.
Context {A B : Type} (f : A → M B) (st : State) (x : Result B * State).

Lemma step_assoc {C} (m : M C) (g : C → M A) :
  ((m ≫= g) ≫= f) st = x → (m ≫= (λ c, g c ≫= f)) st = x.
Proof. unfold mbind, M_bind, bind. by destruct (m st) as [[e|a] st1]. Qed.

Lemma step_ret (a : A) : (ret a ≫= f) st = x → f a st = x.
Proof. done. Qed.

Lemma step_throw (e : JsError) : (throw e ≫= f) st = x → (inl e, st) = x.
Proof. done. Qed.

Lemma step_gets (g : Mem → A) : (gets g ≫= f) st = x → f (g (mem st)) st = x.
Proof. done. Qed.

Lemma step_try_catch (m : M A) (h : JsError → M A) :
  (try_catch m h ≫= f) st = x →
  (∃ a st1, m st = (inr a, st1) ∧ f a st1 = x)
  ∨ (∃ e st1, m st = (inl e, st1) ∧ (h e ≫= f) st1 = x).
Proof.
  unfold mbind, M_bind, bind, try_catch. destruct (m st) as [[e|a] st1]; eauto.
Qed.
End Steps.

Section UnitSteps.
Context {B : Type} (f : unit → M B) (st : State) (x : Result B * State).

Lemma step_modify (g : Mem → Mem) :
  (modify g ≫= f) st = x →
  f tt {| mem := g (mem st); calls := calls st; console := console st |} = x.
Proof. done. Qed.

Lemma step_console_log (line : string) :
  (console_log line ≫= f) st = x →
  f tt {| mem := mem st; calls := calls st;
          console := (console st ++ [line])%list |} = x.
Proof. done. Qed.
End UnitSteps.

Lemma step_await w {R B} (c : Call R) (f : R → M B) st x :
  (await w c ≫= f) st = x →
  (∃ e, respond w R (calls st) c = inl e
        ∧ (inl e, record_call (Ev c (Some e)) st) = x)
  ∨ (∃ a, respond w R (calls st) c = inr a
          ∧ f a (record_call (Ev c None) st) = x).
Proof.
  unfold mbind, M_bind, bind, await.
  destruct (respond w R (calls st) c) as [e|a]; cbn; eauto.
Qed.

Lemma last_await w {R} (c : Call R) st x :
  await w c st = x →
  (∃ e, respond w R (calls st) c = inl e
        ∧ (inl e, record_call (Ev c (Some e)) st) = x)
  ∨ (∃ a, respond w R (calls st) c = inr a
          ∧ (inr a, record_call (Ev c None) st) = x).
Proof.
  unfold await. destruct (respond w R (calls st) c) as [e|a]; cbn; eauto.
Qed.

(** One step of [H : m st = (r, st')], chosen by the head of [m].  The
    answers of the world are kept as hypotheses. *)
Ltac exec_core H :=
  lazymatch type of H with
  | ((_ ≫= _) ≫= _) _ = _ => apply step_assoc in H
  | (ret _ ≫= _) _ = _ => apply step_ret in H
  | (throw _ ≫= _) _ = _ => apply step_throw in H
  | (gets _ ≫= _) _ = _ => apply step_gets in H
  | (modify _ ≫= _) _ = _ => apply step_modify in H
  | (console_log _ ≫= _) _ = _ => apply step_console_log in H
  | (await _ _ ≫= _) _ = _ =>
      apply step_await in H as [(? & ? & H) | (? & ? & H)]
  | await _ _ _ = _ =>
      apply last_await in H as [(? & ? & H) | (? & ? & H)]
  | (try_catch _ _ ≫= _) _ = _ =>
      let H1 := fresh "Htry" in
      apply step_try_catch in H as [(? & ? & H1 & H) | (? & ? & H1 & H)];
      repeat exec_core H1;
      [injection H1 as <- <- || discriminate H1 ..]
  | ret _ _ = _ => unfold ret in H
  | throw _ _ = _ => unfold throw in H
  | console_log _ _ = _ => unfold console_log in H
  | modify _ _ = _ => unfold modify in H
  | (deref _ ≫= _) _ = _ => unfold deref in H
  | (push_accessPolicy _ _ ≫= _) _ = _ => unfold push_accessPolicy in H
  | (call_uuidv4 _ ≫= _) _ = _ => unfold call_uuidv4 in H
  | (call_random_id _ ≫= _) _ = _ => unfold call_random_id in H
  | (new_object _ ≫= _) _ = _ => unfold new_object in H
  | (first_role_id _ ≫= _) _ = _ => unfold first_role_id in H
  | (Modern.identity_principalId _ ≫= _) _ = _ =>
      unfold Modern.identity_principalId in H
  | (Legacy._getManagementCredentials _ _ ≫= _) _ = _ =>
      unfold Legacy._getManagementCredentials in H
  | (Legacy._tokenFromUserCredentials _ _ ≫= _) _ = _ =>
      unfold Legacy._tokenFromUserCredentials in H
  | (match ?x with _ => _ end ≫= _) _ = _ => destruct x eqn:?
  | match ?x with _ => _ end _ = _ => destruct x eqn:?
  end; cbv beta in H.

(** Simplify the projections of the states built while stepping. *)
Ltac tidy_in H :=
  cbn [mem calls console record_call heap cfg_vault cfg_userId draws uuids
       with_heap with_cfg_vault with_cfg_userId with_draws with_uuids] in H.
Ltac tidy :=
  cbn [mem calls console record_call heap cfg_vault cfg_userId draws uuids
       with_heap with_cfg_vault with_cfg_userId with_draws with_uuids].

(** ** The clients of the older sample *)

Lemma ends_at_rejection_stops {A} evs (r : Result A) :
  ends_at_rejection evs r → stops_at_failure evs r.
Proof. destruct r; cbn; auto. Qed.

Lemma ends_at_rejection_app {A} evs1 evs2 (r : Result A) :
  Forall (λ ev, settled ev = true) evs1 → ends_at_rejection evs2 r →
  ends_at_rejection (evs1 ++ evs2) r.
Proof.
  intros H1 H2. destruct r as [e|a]; cbn in *.
  - destruct H2 as (pre & ev & -> & Hpre & He & Hs).
    exists (evs1 ++ pre)%list, ev. rewrite app_assoc. repeat split; [|done..].
    by apply Forall_app.
  - by apply Forall_app.
Qed.

(** Proving [ends_at_rejection] of a log that is written out. *)
Ltac ends :=
  lazymatch goal with
  | |- ends_at_rejection _ (inr _) => by repeat constructor
  | |- ends_at_rejection ?l (inl _) =>
      exists (removelast l); eexists;
      split; [reflexivity|]; split; [by repeat constructor|]; by split
  | |- Forall _ _ => by repeat constructor
  | |- ∃ pre ev, ?l = (pre ++ [ev])%list ∧ _ =>
      exists (removelast l); eexists;
      split; [reflexivity|]; split; [by repeat constructor|]; by split
  end.

(** One run of the authenticator of the user client: it may log a user
    in and print a rejected refresh, and it touches nothing else. *)
Lemma user_authenticator_run w config challenge st r st1 :
  Legacy._getKeyVaultUserClient_adalCallback w config challenge st = (r, st1) →
  ∃ toks u lines,
    mem st1 = with_cfg_userId u (mem st)
    ∧ calls st1 = (calls st ++ toks)%list
    ∧ console st1 = (console st ++ lines)%list
    ∧ Forall (user_token_request w config) toks
    ∧ ends_at_rejection toks r.
Proof.
  intros H. destruct st as [[h cv cu d uu] cs co].
  unfold Legacy._getKeyVaultUserClient_adalCallback, Legacy._getUserCredentials,
    Legacy._tokenFromUserCredentials in H.
  cbv zeta in H. repeat (tidy_in H; exec_core H).
  all: injection H as <- <-; unfold record_call; cbn; rewrite <- ?app_assoc; cbn [app].
  all: eexists _, _, _; split; [reflexivity|]; split; [reflexivity|].
  all: split; [first [reflexivity | symmetry; apply app_nil_r]|].
  all: split; [by repeat constructor | ends].
Qed.

(** All the challenges of one operation. *)
Lemma user_authenticator_runs w config challenges : ∀ st r st1,
  Legacy.answer_each (Legacy._getKeyVaultUserClient_adalCallback w config) challenges st
  = (r, st1) →
  ∃ toks u lines,
    mem st1 = with_cfg_userId u (mem st)
    ∧ calls st1 = (calls st ++ toks)%list
    ∧ console st1 = (console st ++ lines)%list
    ∧ Forall (user_token_request w config) toks
    ∧ ends_at_rejection toks r.
Proof.
  unfold Legacy.answer_each.
  induction challenges as [|challenge challenges IH]; intros st r st1 H; cbn [forEach] in H.
  - apply ret_inv in H as [-> ->]. exists [], (cfg_userId (mem st)), [].
    rewrite !app_nil_r. repeat split; [by destruct (mem st) | constructor..].
  - apply bind_inv in H as [(e & H & ->) | ([] & st2 & H2 & H)].
    + apply bind_inv in H as [(e' & H & [= <-]) | (? & ? & _ & H)];
        [|by apply ret_inv in H as [? _]].
      by apply user_authenticator_run in H.
    + apply bind_inv in H2 as [(? & _ & ?) | (header & st3 & H3 & H2)]; [done|].
      apply ret_inv in H2 as [_ ->].
      apply user_authenticator_run in H3 as (toks1 & u1 & lines1 & Hm1 & Hc1 & Ho1 & Ht1 & He1).
      apply IH in H as (toks2 & u2 & lines2 & Hm2 & Hc2 & Ho2 & Ht2 & He2).
      exists (toks1 ++ toks2)%list, u2, (lines1 ++ lines2)%list.
      rewrite Hm2, Hm1, Hc2, Hc1, Ho2, Ho1, !app_assoc.
      repeat split; [by apply Forall_app | by apply ends_at_rejection_app].
Qed.

(** One run of the authenticator of the service principal's client: a
    request for a token, and nothing else. *)
Lemma client_authenticator_run w config challenge st r st1 :
  Legacy._getKeyVaultClient_adalCallback w config challenge st = (r, st1) →
  ∃ toks,
    mem st1 = mem st
    ∧ calls st1 = (calls st ++ toks)%list
    ∧ console st1 = console st
    ∧ Forall (client_token_request config) toks
    ∧ ends_at_rejection toks r.
Proof.
  intros H. unfold Legacy._getKeyVaultClient_adalCallback in H.
  repeat exec_core H.
  all: injection H as <- <-; eexists; split; [reflexivity|]; split; [reflexivity|].
  all: split; [reflexivity|]; split; [by repeat constructor | ends].
Qed.

Lemma client_authenticator_runs w config challenges : ∀ st r st1,
  Legacy.answer_each (Legacy._getKeyVaultClient_adalCallback w config) challenges st
  = (r, st1) →
  ∃ toks,
    mem st1 = mem st
    ∧ calls st1 = (calls st ++ toks)%list
    ∧ console st1 = console st
    ∧ Forall (client_token_request config) toks
    ∧ ends_at_rejection toks r.
Proof.
  unfold Legacy.answer_each.
  induction challenges as [|challenge challenges IH]; intros st r st1 H; cbn [forEach] in H.
  - apply ret_inv in H as [-> ->]. exists []. rewrite app_nil_r.
    repeat split; constructor.
  - apply bind_inv in H as [(e & H & ->) | ([] & st2 & H2 & H)].
    + apply bind_inv in H as [(e' & H & [= <-]) | (? & ? & _ & H)];
        [|by apply ret_inv in H as [? _]].
      by apply client_authenticator_run in H.
    + apply bind_inv in H2 as [(? & _ & ?) | (header & st3 & H3 & H2)]; [done|].
      apply ret_inv in H2 as [_ ->].
      apply client_authenticator_run in H3 as (toks1 & Hm1 & Hc1 & Ho1 & Ht1 & He1).
      apply IH in H as (toks2 & Hm2 & Hc2 & Ho2 & Ht2 & He2).
      exists (toks1 ++ toks2)%list.
      rewrite Hm2, Hm1, Hc2, Hc1, Ho2, Ho1, !app_assoc.
      repeat split; [by apply Forall_app | by apply ends_at_rejection_app].
Qed.

(** An operation of a client: the token requests of its authenticator,
    and then, unless one of them has failed, the operation itself. *)
Lemma step_user_client w config {R B} (c : Call R) (f : R → M B) st x :
  (Legacy._getKeyVaultUserClient w config c ≫= f) st = x →
  ∃ toks u lines,
    Forall (user_token_request w config) toks
    ∧ ((∃ e, ends_at_rejection toks (inl e : Result unit)
             ∧ (inl e, {| mem := with_cfg_userId u (mem st);
                          calls := (calls st ++ toks)%list;
                          console := (console st ++ lines)%list |}) = x)
       ∨ (Forall (λ ev, settled ev = true) toks
          ∧ (await w c ≫= f) {| mem := with_cfg_userId u (mem st);
                                calls := (calls st ++ toks)%list;
                                console := (console st ++ lines)%list |} = x)).
Proof.
  unfold Legacy._getKeyVaultUserClient, Legacy.client_operation.
  intros H. apply step_assoc in H. unfold asked at 1 in H.
  unfold mbind at 1, M_bind at 1, bind at 1 in H. cbn [calls] in H.
  apply step_assoc in H.
  destruct (Legacy.answer_each (Legacy._getKeyVaultUserClient_adalCallback w config)
              (challenges w R (calls st) c) st) as [r st1] eqn:Hloop.
  unfold mbind at 1, M_bind at 1, bind at 1 in H. rewrite Hloop in H.
  apply user_authenticator_runs in Hloop as (toks & u & lines & Hm & Hc & Ho & Ht & He).
  exists toks, u, lines. split; [done|].
  destruct st1 as [m1 c1 o1]. cbn in Hm, Hc, Ho. subst m1 c1 o1.
  destruct r as [e|[]]; [left; by exists e | right; done].
Qed.

Lemma step_client w config {R B} (c : Call R) (f : R → M B) st x :
  (Legacy._getKeyVaultClient w config c ≫= f) st = x →
  ∃ toks,
    Forall (client_token_request config) toks
    ∧ ((∃ e, ends_at_rejection toks (inl e : Result unit)
             ∧ (inl e, {| mem := mem st; calls := (calls st ++ toks)%list;
                          console := console st |}) = x)
       ∨ (Forall (λ ev, settled ev = true) toks
          ∧ (await w c ≫= f) {| mem := mem st; calls := (calls st ++ toks)%list;
                                console := console st |} = x)).
Proof.
  unfold Legacy._getKeyVaultClient, Legacy.client_operation.
  intros H. apply step_assoc in H. unfold asked at 1 in H.
  unfold mbind at 1, M_bind at 1, bind at 1 in H. cbn [calls] in H.
  apply step_assoc in H.
  destruct (Legacy.answer_each (Legacy._getKeyVaultClient_adalCallback w config)
              (challenges w R (calls st) c) st) as [r st1] eqn:Hloop.
  unfold mbind at 1, M_bind at 1, bind at 1 in H. rewrite Hloop in H.
  apply client_authenticator_runs in Hloop as (toks & Hm & Hc & Ho & Ht & He).
  exists toks. split; [done|].
  destruct st1 as [m1 c1 o1]. cbn in Hm, Hc, Ho. subst m1 c1 o1.
  destruct r as [e|[]]; [left; by exists e | right; done].
Qed.

Lemma bind_ret_run {A} (m : M A) st : (m ≫= ret) st = m st.
Proof. unfold mbind, M_bind, bind, ret. by destruct (m st) as [[e|a] st1]. Qed.

(** One step, the operations of the clients included: the token requests
    of an authenticator stay in the context as a list of their own. *)
Ltac exec_step H :=
  lazymatch type of H with
  | (Legacy._getKeyVaultUserClient _ _ _ ≫= _) _ = _ =>
      apply step_user_client in H as (? & ? & ? & ? & [(? & ? & H) | (? & H)])
  | (Legacy._getKeyVaultClient _ _ _ ≫= _) _ = _ =>
      apply step_client in H as (? & ? & [(? & ? & H) | (? & H)])
  | Legacy._getKeyVaultUserClient _ _ _ _ = _ =>
      rewrite <- bind_ret_run in H;
      apply step_user_client in H as (? & ? & ? & ? & [(? & ? & H) | (? & H)])
  | Legacy._getKeyVaultClient _ _ _ _ = _ =>
      rewrite <- bind_ret_run in H;
      apply step_client in H as (? & ? & [(? & ? & H) | (? & H)])
  | _ => exec_core H
  end.

Ltac exec H := repeat (exec_step H).

(** ** Logs with token requests in between *)

(** What holds of the requests of an authenticator holds of each entry
    of [toks]; [tac] proves it of a request that is written out. *)
Ltac of_tokens tac :=
  lazymatch goal with
  | Ht : Forall (user_token_request _ _) ?t |- Forall _ ?t =>
      let ev := fresh "ev" in
      let Hev := fresh "Hev" in
      eapply Forall_impl; [exact Ht|]; intros ev Hev;
      destruct ev as [? [] ?]; try (by destruct Hev); cbn in Hev; tac
  | Ht : Forall (client_token_request _) ?t |- Forall _ ?t =>
      let ev := fresh "ev" in
      let Hev := fresh "Hev" in
      eapply Forall_impl; [exact Ht|]; intros ev Hev;
      destruct ev as [? [] ?]; try (by destruct Hev); cbn in Hev; tac
  end.

(** [Forall] over a log that is written out but for such requests. *)
Ltac each_call tac :=
  repeat lazymatch goal with
         | |- Forall _ [] => apply Forall_nil_2
         | |- Forall _ (_ :: _) => apply Forall_cons_2; [tac|]
         | |- Forall _ (_ ++ _) => apply Forall_app_2
         | |- Forall _ _ => of_tokens tac
         end.

Lemma omap_tokens {B} (f : Event → option B) toks :
  Forall (λ ev, f ev = None) toks → omap f toks = [].
Proof. induction 1 as [|ev toks Hev _ IH]; [done|]. cbn. by rewrite Hev. Qed.

(** What [f] collects from a log leaves the requests of the
    authenticators out. *)
Ltac without_tokens f :=
  repeat match goal with
         | Ht : Forall (user_token_request _ _) ?t |- _ =>
             lazymatch goal with
             | _ : omap f t = [] |- _ => fail
             | _ => assert (omap f t = [])
                      by (apply omap_tokens; of_tokens ltac:(reflexivity))
             end
         | Ht : Forall (client_token_request _) ?t |- _ =>
             lazymatch goal with
             | _ : omap f t = [] |- _ => fail
             | _ => assert (omap f t = [])
                      by (apply omap_tokens; of_tokens ltac:(reflexivity))
             end
         end.

(** Membership in such a log. *)
Ltac one_call Hin :=
  repeat first [ apply elem_of_cons in Hin as [->|Hin]
               | apply elem_of_app in Hin as [Hin|Hin]
               | by apply elem_of_nil in Hin ].


(** Bring the log of a run that has been stepped through into the form
    [calls st ++ [e1; ...; en]] and name the new part. *)
Ltac new_calls :=
  unfold record_call; cbn [calls mem console];
  rewrite <- ?app_assoc; cbn [app];
  first [ eexists; split; [reflexivity|]
        | exists []; split; [by rewrite app_nil_r|] ].

Ltac head_of t :=
  lazymatch t with
  | ?f _ => head_of f
  | _ => t
  end.

(** * Rules for [follows] *)

Lemma stops_at_failure_nil {A} (r : Result A) : stops_at_failure [] r.
Proof. destruct r; cbn; auto. Qed.

(** A computation that issues no call. *)
Lemma follows_quiet {A} (P Q : Mem → Prop) (m : M A) L :
  (∀ st r st', P (mem st) → m st = (r, st') →
     calls st' = calls st ∧ match r with inr _ => L = [] ∧ Q (mem st') | inl _ => True end) →
  follows P m L Q.
Proof.
  intros Hm st r st' HP Hrun. destruct (Hm _ _ _ HP Hrun) as [Hc Hr].
  exists []. rewrite Hc, app_nil_r. split; [done|]. split; [apply stops_at_failure_nil|].
  destruct r; [apply prefix_nil|]. by destruct Hr as [-> ?].
Qed.

Lemma follows_ret {A} P (a : A) : follows P (ret a) [] P.
Proof. apply follows_quiet. intros st r st' HP H. by run. Qed.

Lemma follows_throw {A} P Q L (e : JsError) : follows P (throw e : M A) L Q.
Proof. apply follows_quiet. intros st r st' HP H. by run. Qed.

Lemma follows_gets {A} P (f : Mem → A) : follows P (gets f) [] P.
Proof. apply follows_quiet. intros st r st' HP H. by run. Qed.

Lemma follows_console_log P line : follows P (console_log line) [] P.
Proof. apply follows_quiet. intros st r st' HP H. by run. Qed.

Lemma follows_asked w P {R} (c : Call R) : follows P (asked w c) [] P.
Proof. apply follows_quiet. intros st r st' HP H. by run. Qed.

Lemma follows_modify P f :
  (∀ m, P m → P (f m)) → follows P (modify f) [] P.
Proof. intros Hf. apply follows_quiet. intros st r st' HP H. run. auto. Qed.

Lemma follows_deref P r0 : follows P (deref r0) [] P.
Proof.
  apply follows_quiet. intros st r st' HP H.
  apply deref_inv in H as [-> H]. by destruct r.
Qed.

Lemma follows_push_accessPolicy P r0 entry :
  (∀ m h, P m → P (with_heap h m)) →
  follows P (push_accessPolicy r0 entry) [] P.
Proof.
  intros Hk. apply follows_quiet. intros st r st' HP H.
  apply push_accessPolicy_inv in H.
  destruct (heap (mem st) !! r0); destruct H as [-> ->]; cbn; auto.
Qed.

Lemma follows_new_object P v :
  (∀ m h, P m → P (with_heap h m)) → follows P (new_object v) [] P.
Proof.
  intros Hk. apply follows_quiet. intros st r st' HP H.
  apply new_object_inv in H as [-> ->]. cbn. auto.
Qed.

Lemma follows_call_random_id w P :
  (∀ m n, P m → P (with_draws n m)) → follows P (call_random_id w) [] P.
Proof.
  intros Hk. apply follows_quiet. intros st r st' HP H.
  apply call_random_id_inv in H as [-> ->]. cbn. auto.
Qed.

Lemma follows_call_uuidv4 w P :
  (∀ m n, P m → P (with_uuids n m)) → follows P (call_uuidv4 w) [] P.
Proof.
  intros Hk. apply follows_quiet. intros st r st' HP H.
  apply call_uuidv4_inv in H as [-> ->]. cbn. auto.
Qed.

(** Reading a field whose value the precondition fixes. *)
Lemma follows_gets_known {A B} P Q (f : Mem → A) (k : A → M B) a L :
  (∀ m, P m → f m = a) → follows P (k a) L Q → follows P (gets f ≫= k) L Q.
Proof.
  intros Hf Hk st r st' HP H.
  apply bind_inv in H as [(e & H & ->) | (a' & st1 & H1 & H)].
  - by apply gets_inv in H as [? _].
  - apply gets_inv in H1 as [[= ->] ->]. rewrite (Hf _ HP) in H. eauto.
Qed.

Lemma follows_ret_bind {A B} P Q (a : A) (k : A → M B) L :
  follows P (k a) L Q → follows P (ret a ≫= k) L Q.
Proof.
  intros Hk st r st' HP H.
  apply bind_inv in H as [(e & H & ->) | (a' & st1 & H1 & H)].
  - by apply ret_inv in H as [? _].
  - apply ret_inv in H1 as [[= ->] ->]. eauto.
Qed.

Lemma follows_first_role_id P roleList : follows P (first_role_id roleList) [] P.
Proof. destruct roleList; [apply follows_throw | apply follows_ret]. Qed.

(** What a rejection that is thrown on leaves in the log. *)
Lemma unsettled_rejection {R} (c : Call R) e :
  method c ≠ "roleAssignments.create" → method c ≠ "acquireToken" →
  settled (Ev c (Some e)) = false.
Proof.
  intros Hra Hat. unfold settled, swallowed, conflict_swallowed, refresh_swallowed. cbn.
  apply orb_false_iff. split; apply bool_decide_eq_false; tauto.
Qed.

Lemma steps_app a b : steps (a ++ b) = (steps a ++ steps b)%list.
Proof. apply filter_app. Qed.

Lemma steps_step ev : authentication (ev_method ev) = false → steps [ev] = [ev].
Proof. intros Hev. unfold steps. rewrite filter_cons, decide_True by done. done. Qed.

Lemma steps_authentication ev : authentication (ev_method ev) = true → steps [ev] = [].
Proof.
  intros Hev. unfold steps. rewrite filter_cons, decide_False; [done|]. by rewrite Hev.
Qed.

Lemma authentication_not_refresh x : authentication x = false → x ≠ "acquireToken".
Proof.
  intros Hx ->. apply bool_decide_eq_false in Hx. apply Hx. repeat constructor.
Qed.

(** An awaited call to a service, other than the role assignment: one
    entry in the log, and a rejection is thrown on. *)
Lemma follows_await w P {R} (c : Call R) :
  method c ≠ "roleAssignments.create" → authentication (method c) = false →
  follows P (await w c) [method c] P.
Proof.
  intros Hc Ha st r st' HP H. apply await_inv in H as [Hr ->].
  exists [Ev c (rejection r)]. split; [done|]. rewrite steps_step by done.
  destruct r as [e|a]; cbn.
  - split; [|done]. right. exists [], (Ev c (Some e)). repeat split; [constructor|].
    apply unsettled_rejection; [done|]. by apply authentication_not_refresh.
  - split; [|done]. by repeat constructor.
Qed.

Lemma follows_await_named w P {R} (c : Call R) name :
  method c = name → name ≠ "roleAssignments.create" → authentication name = false →
  follows P (await w c) [name] P.
Proof. intros <-. apply follows_await. Qed.

(** An awaited login or token request whose rejection is thrown on: it
    is no step of the script. *)
Lemma follows_await_authentication w P {R} (c : Call R) :
  authentication (method c) = true → method c ≠ "acquireToken" →
  follows P (await w c) [] P.
Proof.
  intros Ha Hc st r st' HP H. apply await_inv in H as [Hr ->].
  exists [Ev c (rejection r)]. split; [done|]. rewrite steps_authentication by done.
  destruct r as [e|a]; cbn.
  - split; [|done]. right. exists [], (Ev c (Some e)). repeat split; [constructor|].
    apply unsettled_rejection; [|done]. intros Hm. by rewrite Hm in Ha.
  - split; [|done]. by repeat constructor.
Qed.

Lemma follows_bind {A B} P Q R (m : M A) (f : A → M B) L1 L2 :
  follows P m L1 Q → (∀ a, follows Q (f a) L2 R) →
  follows P (m ≫= f) (L1 ++ L2)%list R.
Proof.
  intros Hm Hf st r st' HP H.
  apply bind_inv in H as [(e & H & ->) | (a & st1 & H1 & H)].
  - destruct (Hm _ _ _ HP H) as (evs & Hc & Hs & Hl).
    exists evs. repeat split; [done..|]. by apply prefix_app_r.
  - destruct (Hm _ _ _ HP H1) as (evs1 & Hc1 & Hs1 & Hl1 & HQ).
    destruct (Hf a _ _ _ HQ H) as (evs2 & Hc2 & Hs2 & Hl2).
    exists (evs1 ++ evs2)%list. rewrite Hc2, Hc1, app_assoc. split; [done|].
    cbn in Hs1. destruct r as [e|b]; cbn in *.
    + split.
      * destruct Hs2 as [Hall | (pre & ev & -> & Hpre & He & Hev)].
        -- left. by apply Forall_app.
        -- right. exists (evs1 ++ pre)%list, ev. rewrite app_assoc.
           repeat split; [|done..]. by apply Forall_app.
      * rewrite steps_app, fmap_app, Hl1. by apply prefix_app.
    + split; [by apply Forall_app|]. destruct Hl2 as [Hl2 HR].
      by rewrite steps_app, fmap_app, Hl1, Hl2.
Qed.

Lemma follows_weaken {A} (P P' Q Q' : Mem → Prop) (m : M A) L :
  (∀ mm, P' mm → P mm) → (∀ mm, Q mm → Q' mm) →
  follows P m L Q → follows P' m L Q'.
Proof.
  intros HP HQ Hm st r st' HP' H.
  destruct (Hm _ _ _ (HP _ HP') H) as (evs & Hc & Hs & Hl).
  exists evs. repeat split; [done..|]. destruct r; [done|]. destruct Hl. auto.
Qed.

Lemma follows_script {A} P Q (m : M A) L L' :
  follows P m L' Q → L' = L → follows P m L Q.
Proof. by intros H <-. Qed.

Lemma follows_forEach {A} P (l : list A) (f : A → M unit) :
  (∀ x, follows P (f x) [] P) → follows P (forEach l f) [] P.
Proof.
  intros Hf. induction l as [|x l IH]; cbn.
  - apply follows_ret.
  - apply (follows_bind P P P _ _ [] []); auto.
Qed.

(** The role assignment with its handler: one entry in the log, and only
    a rejection other than the conflict is thrown on. *)
Lemma follows_try_role_assignment w P (c : Call unit) line :
  method c = "roleAssignments.create" →
  follows P
    (try_catch (await w c;; console_log line)
       (λ e, if decide (err_code e ≠ Some "RoleAssignmentExists")
             then throw e else ret tt))
    [method c] P.
Proof.
  intros Hc st r st' HP H.
  assert (Hstep : ∀ rejected, steps [Ev c rejected] = [Ev c rejected]).
  { intros rejected. apply steps_step. cbn. by rewrite Hc. }
  apply try_catch_inv in H as [(a & H & ->) | (e & st1 & H & Hh)].
  - apply bind_inv in H as [(? & _ & ?) | (? & st1 & H1 & H2)]; [done|].
    apply await_inv in H1 as [Hr ->]. apply console_log_inv in H2 as [_ ->].
    exists [Ev c None]. rewrite Hstep. cbn. repeat split; by repeat constructor.
  - apply bind_inv in H as [(e' & H & [= <-]) | (? & st2 & _ & H2)];
      [|by apply console_log_inv in H2 as [? _]].
    apply await_inv in H as [Hr ->].
    exists [Ev c (Some e)]. rewrite Hstep. cbn.
    destruct (decide (err_code e ≠ Some "RoleAssignmentExists")) as [Hne|Heq].
    + apply throw_inv in Hh as [-> ->]. split; [done|]. split; [|done].
      right. exists [], (Ev c (Some e)).
      repeat split; [constructor|].
      unfold settled, swallowed, conflict_swallowed, refresh_swallowed. cbn.
      rewrite Hc. apply orb_false_iff. split; apply bool_decide_eq_false; [tauto|done].
    + apply ret_inv in Hh as [-> ->]. split; [done|]. split; [|done].
      constructor; [|constructor].
      unfold settled, swallowed, conflict_swallowed. cbn.
      apply orb_true_iff. left.
      apply bool_decide_eq_true. split; [done|]. by apply dec_stable.
Qed.

Lemma follows_legacy_grant w P sa name rid :
  follows P (Legacy.grant_key_operator_role w sa name rid) ["roleAssignments.create"] P.
Proof. by apply follows_try_role_assignment. Qed.

Lemma follows_modern_grant w P sa name rid :
  follows P (Modern.grant_key_operator_role w sa name rid) ["roleAssignments.create"] P.
Proof. by apply follows_try_role_assignment. Qed.

Lemma follows_parse_secret_id w P id : follows P (Legacy.parse_secret_id w id) [] P.
Proof.
  unfold Legacy.parse_secret_id.
  destruct (parseSecretIdentifier w id); [apply follows_throw | apply follows_ret].
Qed.

Lemma follows_identity_principalId P sa : follows P (Modern.identity_principalId sa) [] P.
Proof.
  unfold Modern.identity_principalId.
  destruct (sa_identity sa); [apply follows_ret | apply follows_throw].
Qed.

Lemma follows_legacy_getManagementCredentials w config P :
  follows P (Legacy._getManagementCredentials w config)
    ["loginWithServicePrincipalSecret"] P.
Proof. unfold Legacy._getManagementCredentials. by apply follows_await_named. Qed.

(** ** The clients of the older sample and their authenticators *)

Lemma user_token_request_authentication w config ev :
  user_token_request w config ev → authentication (ev_method ev) = true.
Proof. destruct ev as [R c r]. by destruct c. Qed.

Lemma client_token_request_authentication config ev :
  client_token_request config ev → authentication (ev_method ev) = true.
Proof. destruct ev as [R c r]. by destruct c. Qed.

Lemma steps_tokens toks :
  Forall (λ ev, authentication (ev_method ev) = true) toks → steps toks = [].
Proof.
  induction 1 as [|ev toks Hev _ IH]; [done|].
  unfold steps in *. rewrite filter_cons, decide_False by (by rewrite Hev). done.
Qed.

Lemma steps_user_tokens w config toks :
  Forall (user_token_request w config) toks → steps toks = [].
Proof.
  intros Ht. apply steps_tokens. eapply Forall_impl; [exact Ht|].
  apply user_token_request_authentication.
Qed.

Lemma steps_client_tokens config toks :
  Forall (client_token_request config) toks → steps toks = [].
Proof.
  intros Ht. apply steps_tokens. eapply Forall_impl; [exact Ht|].
  apply client_token_request_authentication.
Qed.

(** An operation of a client is one step, after the token requests of
    the authenticator. *)
Lemma follows_after_tokens w {R} (c : Call R) toks st0 (r : Result R) st' :
  method c ≠ "roleAssignments.create" → authentication (method c) = false →
  steps toks = [] → Forall (λ ev, settled ev = true) toks →
  calls st0 = (calls st0 ++ [])%list →
  await w c {| mem := mem st0; calls := (calls st0 ++ toks)%list; console := console st0 |}
  = (r, st') →
  ∃ evs, calls st' = (calls st0 ++ evs)%list
         ∧ stops_at_failure evs r
         ∧ match r with
           | inr _ => ev_method <$> steps evs = [method c] ∧ anyhow (mem st')
           | inl _ => (ev_method <$> steps evs) `prefix_of` [method c]
           end.
Proof.
  intros Hra Ha Hsteps Hsettled _ H.
  destruct (follows_await w anyhow c Hra Ha _ _ _ I H) as (evs & Hc & Hs & Hl).
  cbn [calls] in Hc. exists (toks ++ evs)%list. rewrite Hc, <- app_assoc.
  split; [done|]. rewrite steps_app, Hsteps. cbn [app]. split; [|done].
  destruct r as [e|a]; cbn in *.
  - destruct Hs as [Hall | (pre & ev & -> & Hpre & He & Hev)].
    + left. by apply Forall_app.
    + right. exists (toks ++ pre)%list, ev. rewrite app_assoc.
      repeat split; [|done..]. by apply Forall_app.
  - by apply Forall_app.
Qed.

Lemma follows_user_client w config {R} (c : Call R) :
  method c ≠ "roleAssignments.create" → authentication (method c) = false →
  follows anyhow (Legacy._getKeyVaultUserClient w config c) [method c] anyhow.
Proof.
  intros Hra Ha st r st' _ H. rewrite <- bind_ret_run in H.
  apply step_user_client in H as (toks & u & lines & Ht & [(e & He & H) | (Hs & H)]).
  - injection H as <- <-. exists toks. cbn [calls]. split; [done|].
    split; [by apply ends_at_rejection_stops|].
    rewrite (steps_user_tokens _ _ _ Ht). apply prefix_nil.
  - rewrite bind_ret_run in H.
    eapply (follows_after_tokens w c toks
              {| mem := with_cfg_userId u (mem st); calls := calls st;
                 console := (console st ++ lines)%list |}); try done.
    + by eapply steps_user_tokens.
    + cbn. by rewrite app_nil_r.
Qed.

Lemma follows_client w config {R} (c : Call R) :
  method c ≠ "roleAssignments.create" → authentication (method c) = false →
  follows anyhow (Legacy._getKeyVaultClient w config c) [method c] anyhow.
Proof.
  intros Hra Ha st r st' _ H. rewrite <- bind_ret_run in H.
  apply step_client in H as (toks & Ht & [(e & He & H) | (Hs & H)]).
  - injection H as <- <-. exists toks. cbn [calls]. split; [done|].
    split; [by apply ends_at_rejection_stops|].
    rewrite (steps_client_tokens _ _ Ht). apply prefix_nil.
  - rewrite bind_ret_run in H.
    eapply (follows_after_tokens w c toks
              {| mem := mem st; calls := calls st; console := console st |}); try done.
    + by eapply steps_client_tokens.
    + cbn. by rewrite app_nil_r.
Qed.

Lemma follows_client_named w config {R} (c : Call R) name :
  method c = name → name ≠ "roleAssignments.create" → authentication name = false →
  follows anyhow (Legacy._getKeyVaultClient w config c) [name] anyhow.
Proof. intros <-. apply follows_client. Qed.

Lemma follows_user_client_named w config {R} (c : Call R) name :
  method c = name → name ≠ "roleAssignments.create" → authentication name = false →
  follows anyhow (Legacy._getKeyVaultUserClient w config c) [name] anyhow.
Proof. intros <-. apply follows_user_client. Qed.

(** Proving [stops_at_failure] of a log that is written out. *)
Ltac stops :=
  lazymatch goal with
  | |- stops_at_failure _ (inr _) => by repeat constructor
  | |- stops_at_failure ?l (inl _) =>
      first [ left; by repeat constructor
            | right; exists (removelast l); eexists;
              split; [reflexivity|]; split; [by repeat constructor|]; by split ]
  | |- Forall _ _ => by repeat constructor
  | |- _ ∨ _ =>
      first [ left; by repeat constructor
            | right;
              lazymatch goal with
              | |- ∃ pre ev, ?l = (pre ++ [ev])%list ∧ _ =>
                  exists (removelast l); eexists;
                  split; [reflexivity|]; split; [by repeat constructor|]; by split
              end ]
  end.

(** The first login, or a refresh with its fallback: no step of the
    script, and the run goes on unless the interactive login fails. *)
Lemma follows_legacy_getUserCredentials w config resource clientId :
  follows anyhow (Legacy._getUserCredentials w config resource clientId) [] anyhow.
Proof.
  intros st r st' _ H. unfold Legacy._getUserCredentials in H. cbv zeta in H.
  repeat (tidy_in H; exec_core H).
  all: injection H as <- <-; new_calls.
  all: split; [stops|]; cbn; first [done | apply prefix_nil].
Qed.


(** Walking through a computation with the rules. *)
Ltac kept := by (intros; unfold anyhow in *; cbn in *).

Ltac follow_step :=
  lazymatch goal with
  | |- follows _ (_ ≫= _) _ _ => eapply follows_bind; [ | intros ? ]
  | |- follows _ (ret _) _ _ => apply follows_ret
  | |- follows _ (throw _) _ _ => apply follows_throw
  | |- follows _ (gets _) _ _ => apply follows_gets
  | |- follows _ (console_log _) _ _ => apply follows_console_log
  | |- follows _ (modify _) _ _ => apply follows_modify; kept
  | |- follows _ (deref _) _ _ => apply follows_deref
  | |- follows _ (push_accessPolicy _ _) _ _ => apply follows_push_accessPolicy; kept
  | |- follows _ (new_object _) _ _ => apply follows_new_object; kept
  | |- follows _ (call_random_id _) _ _ => apply follows_call_random_id; kept
  | |- follows _ (call_uuidv4 _) _ _ => apply follows_call_uuidv4; kept
  | |- follows _ (first_role_id _) _ _ => apply follows_first_role_id
  | |- follows _ (Legacy._getManagementCredentials _ _) _ _ =>
      apply follows_legacy_getManagementCredentials
  | |- follows _ (Legacy.parse_secret_id _ _) _ _ => apply follows_parse_secret_id
  | |- follows _ (Modern.identity_principalId _) _ _ => apply follows_identity_principalId
  | |- follows _ (Legacy.grant_key_operator_role _ _ _ _) _ _ =>
      apply follows_legacy_grant
  | |- follows _ (Modern.grant_key_operator_role _ _ _ _) _ _ =>
      apply follows_modern_grant
  | |- follows _ (forEach _ _) _ _ =>
      apply follows_forEach; intros ?; apply follows_console_log
  | |- follows _ (asked _ _) _ _ => apply follows_asked
  | |- follows _ (Legacy._getKeyVaultClient _ _ _) _ _ =>
      eapply follows_client_named; [cbn; reflexivity | discriminate | reflexivity]
  | |- follows _ (Legacy._getKeyVaultUserClient _ _ _) _ _ =>
      eapply follows_user_client_named; [cbn; reflexivity | discriminate | reflexivity]
  | |- follows _ (Legacy._getUserCredentials _ _ _ _) _ _ =>
      apply follows_legacy_getUserCredentials
  | |- follows _ (await _ _) _ _ =>
      eapply follows_await_named; [cbn; reflexivity | discriminate | reflexivity]
  end.

Ltac follow := eapply follows_script; [ repeat follow_step | reflexivity ].

(** ** The steps of the older sample *)

Lemma follows_legacy_updateStorageAccount w config sa vault :
  follows anyhow (Legacy.updateStorageAccount w config sa vault)
    ["updateStorageAccount"; "updateStorageAccount"] anyhow.
Proof. unfold Legacy.updateStorageAccount. follow. Qed.

Lemma follows_legacy_regenerateStorageAccountKey w config sa vault :
  follows anyhow (Legacy.regenerateStorageAccountKey w config sa vault)
    ["regenerateStorageAccountKey"] anyhow.
Proof. unfold Legacy.regenerateStorageAccountKey. follow. Qed.

Lemma follows_legacy_getStorageAccounts w config vault :
  follows anyhow (Legacy.getStorageAccounts w config vault) ["getStorageAccounts"] anyhow.
Proof. unfold Legacy.getStorageAccounts. follow. Qed.

Lemma follows_legacy_createAccountSASDefinition w config sa vault :
  follows anyhow (Legacy.createAccountSASDefinition w config sa vault)
    ["setSasDefinition"; "getSecret"; "createContainerIfNotExists";
     "createBlockBlobFromText"] anyhow.
Proof. unfold Legacy.createAccountSASDefinition. follow. Qed.

Lemma follows_legacy_createBlobSASDefinition w config sa vault :
  follows anyhow (Legacy.createBlobSASDefinition w config sa vault)
    ["setSasDefinition"; "getSecret"; "createBlockBlobFromText"] anyhow.
Proof. unfold Legacy.createBlobSASDefinition. follow. Qed.

Lemma follows_legacy_getSASDefinitions w config sa vault :
  follows anyhow (Legacy.getSASDefinitions w config sa vault) ["getSasDefinitions"] anyhow.
Proof. unfold Legacy.getSASDefinitions. follow. Qed.

Lemma follows_legacy_deleteStorageAccount w config vault sa :
  follows anyhow (Legacy.deleteStorageAccount w config vault sa)
    ["deleteStorageAccount"] anyhow.
Proof. unfold Legacy.deleteStorageAccount. follow. Qed.

Lemma follows_legacy_tokenFromUserCredentials w creds :
  follows anyhow (Legacy._tokenFromUserCredentials w creds) [] anyhow.
Proof.
  unfold Legacy._tokenFromUserCredentials. by apply follows_await_authentication.
Qed.

Lemma follows_legacy_grant_vault_access_and_register w config vault creds sa :
  follows anyhow (Legacy.grant_vault_access_and_register w config vault creds sa)
    ["loginWithServicePrincipalSecret"; "vaults.createOrUpdate"; "setStorageAccount"]
    anyhow.
Proof.
  unfold Legacy.grant_vault_access_and_register.
  eapply follows_script.
  - eapply follows_bind; [apply follows_legacy_getManagementCredentials | intros ?].
    eapply follows_bind; [apply follows_legacy_tokenFromUserCredentials | intros ?].
    repeat follow_step.
  - reflexivity.
Qed.

Lemma follows_legacy_addStorageAccount w config vault :
  follows anyhow (Legacy.addStorageAccount w config vault)
    ["storageAccounts.create"; "roleDefinitions.list";
     "roleAssignments.create"; "loginWithServicePrincipalSecret";
     "vaults.createOrUpdate"; "setStorageAccount"] anyhow.
Proof.
  unfold Legacy.addStorageAccount.
  eapply follows_script.
  - repeat follow_step.
    apply follows_legacy_grant_vault_access_and_register.
  - reflexivity.
Qed.

Lemma follows_legacy_getSampleVault w config :
  follows at_start (Legacy._getSampleVault w config) (vault_script LegacySdk config)
    anyhow.
Proof.
  unfold Legacy._getSampleVault, vault_script.
  apply (follows_gets_known _ _ _ _ None); [by intros ? [? ?]|].
  apply (follows_weaken anyhow _ anyhow); [done..|].
  destruct (truthy (cfg_vaultName config)); follow.
Qed.

Lemma follows_legacy_main w config :
  follows at_start (Legacy.main w config) (script LegacySdk config) anyhow.
Proof.
  unfold Legacy.main, script.
  eapply follows_script.
  - eapply follows_bind; [apply follows_console_log | intros ?].
    eapply follows_bind; [apply follows_legacy_getSampleVault | intros vault].
    eapply follows_bind; [apply follows_legacy_addStorageAccount | intros sa].
    eapply follows_bind; [apply follows_legacy_updateStorageAccount | intros ?].
    eapply follows_bind; [apply follows_legacy_regenerateStorageAccountKey | intros ?].
    eapply follows_bind; [apply follows_legacy_getStorageAccounts | intros ?].
    eapply follows_bind; [apply follows_legacy_createAccountSASDefinition | intros ?].
    eapply follows_bind; [apply follows_legacy_createBlobSASDefinition | intros ?].
    eapply follows_bind; [apply follows_legacy_getSASDefinitions | intros ?].
    apply follows_legacy_deleteStorageAccount.
  - reflexivity.
Qed.

(** ** The steps of the newer sample *)

Lemma follows_modern_getSampleVault w config :
  follows at_start (Modern._getSampleVault w config) (vault_script ModernSdk config)
    anyhow.
Proof.
  unfold Modern._getSampleVault, vault_script.
  apply (follows_gets_known _ _ _ _ None); [by intros ? [? ?]|].
  apply (follows_weaken anyhow _ anyhow); [done..|].
  destruct (truthy (cfg_vaultName config)); cbv zeta; follow.
Qed.

Lemma follows_modern_grant_vault_access_and_register w config vault sa :
  follows anyhow (Modern.grant_vault_access_and_register w config vault sa)
    ["vaults.beginCreateOrUpdateAndWait"; "createKey"; "storageAccounts.update"] anyhow.
Proof. unfold Modern.grant_vault_access_and_register. follow. Qed.

Lemma follows_modern_addStorageAccount w config vault :
  follows anyhow (Modern.addStorageAccount w config vault)
    ["storageAccounts.beginCreateAndWait"; "roleDefinitions.list";
     "roleAssignments.create"; "vaults.beginCreateOrUpdateAndWait";
     "createKey"; "storageAccounts.update"] anyhow.
Proof.
  unfold Modern.addStorageAccount.
  eapply follows_script.
  - repeat follow_step. apply follows_modern_grant_vault_access_and_register.
  - reflexivity.
Qed.

Lemma follows_modern_updateStorageAccount w config sa vault :
  follows anyhow (Modern.updateStorageAccount w config sa vault)
    ["createKey"; "storageAccounts.update"] anyhow.
Proof. unfold Modern.updateStorageAccount. follow. Qed.

Lemma follows_modern_regenerateStorageAccountKey w config sa :
  follows anyhow (Modern.regenerateStorageAccountKey w config sa)
    ["storageAccounts.regenerateKey"] anyhow.
Proof. unfold Modern.regenerateStorageAccountKey. follow. Qed.

Lemma follows_modern_createAccountSASDefinition w config sa :
  follows anyhow (Modern.createAccountSASDefinition w config sa)
    ["storageAccounts.listAccountSAS"; "containerClient.create";
     "blockBlobClient.upload"] anyhow.
Proof. unfold Modern.createAccountSASDefinition. follow. Qed.

Lemma follows_modern_deleteStorageAccount w config sa :
  follows anyhow (Modern.deleteStorageAccount w config sa)
    ["storageAccounts.update"] anyhow.
Proof. unfold Modern.deleteStorageAccount. follow. Qed.

Lemma follows_modern_main w config :
  follows at_start (Modern.main w config) (script ModernSdk config) anyhow.
Proof.
  unfold Modern.main, script.
  eapply follows_script.
  - eapply follows_bind; [apply follows_console_log | intros ?].
    eapply follows_bind; [apply follows_modern_getSampleVault | intros vault].
    eapply follows_bind; [apply follows_modern_addStorageAccount | intros sa].
    eapply follows_bind; [apply follows_modern_updateStorageAccount | intros ?].
    eapply follows_bind; [apply follows_modern_regenerateStorageAccountKey | intros ?].
    eapply follows_bind; [apply follows_modern_createAccountSASDefinition | intros ?].
    apply follows_modern_deleteStorageAccount.
  - reflexivity.
Qed.

(** Either generation's [main] follows its script. *)
Lemma follows_main g w config :
  follows at_start (main_of g w config) (script g config) anyhow.
Proof. destruct g; [apply follows_legacy_main | apply follows_modern_main]. Qed.

(** * From [follows] to statements about logs *)

Lemma snoc_split {A} (pre pre0 post : list A) (x x0 : A) :
  (pre ++ x :: post)%list = (pre0 ++ [x0])%list → (post = [] ∧ x = x0) ∨ x ∈ pre0.
Proof.
  destruct post as [|y post _] using rev_ind; intros H.
  - apply app_inj_tail in H as [_ ->]. by left.
  - right. rewrite app_comm_cons, app_assoc in H. apply app_inj_tail in H as [<- _].
    apply elem_of_app. right. by left.
Qed.


(** Every call but the last one is settled. *)
Lemma stops_at_failure_earlier {A} evs (r : Result A) pre ev post :
  stops_at_failure evs r → evs = (pre ++ ev :: post)%list → post ≠ [] →
  settled ev = true.
Proof.
  intros Hs -> Hpost.
  assert (Hall : ∀ l, Forall (λ ev, settled ev = true) l → ev ∈ l → settled ev = true).
  { intros l Hl Hin. rewrite Forall_forall in Hl. auto. }
  assert (Hin : ev ∈ (pre ++ ev :: post)%list) by (apply elem_of_app; right; by left).
  destruct r as [e0|a]; cbn in Hs; [|by eapply Hall].
  destruct Hs as [Hs | (pre0 & ev0 & Heq & Hpre & _)]; [by eapply Hall|].
  destruct (snoc_split _ _ _ _ _ Heq) as [[-> _] | Hin0]; [done|by eapply Hall].
Qed.

(** The check on names is sound for logs that run along the names. *)
Lemma guarded_sound A B tr : ∀ L seen earlier,
  guarded A B seen L = true →
  (ev_method <$> tr) `prefix_of` L →
  (seen = true → ∃ ev', ev' ∈ earlier ∧ A (ev_method ev') = true ∧ completed ev' = true) →
  (∀ pre ev post, tr = (pre ++ ev :: post)%list → post ≠ [] → completed ev = true) →
  ∀ pre ev post, tr = (pre ++ ev :: post)%list → B (ev_method ev) = true →
    ∃ ev', ev' ∈ (earlier ++ pre)%list ∧ A (ev_method ev') = true ∧ completed ev' = true.
Proof.
  induction tr as [|h tr IH]; intros L seen earlier HG HL Hseen Hdone pre ev post Heq HB.
  - by destruct pre.
  - destruct L as [|x L]; [by apply prefix_nil_not in HL|].
    cbn in HL. pose proof (prefix_cons_inv_1 _ _ _ _ HL) as Hx.
    apply prefix_cons_inv_2 in HL. subst x.
    cbn in HG. apply andb_true_iff in HG as [HG1 HG2].
    destruct pre as [|h' pre]; cbn in Heq; injection Heq as -> ->.
    + rewrite HB in HG1. destruct (Hseen HG1) as (ev' & Hin & HA & Hc).
      exists ev'. rewrite app_nil_r. done.
    + destruct (IH L (seen || A (ev_method h')) (earlier ++ [h'])%list HG2 HL)
        with (pre := pre) (ev := ev) (post := post) as (ev' & Hin & HA & Hc);
        [| |done|done|].
      * intros Hs. apply orb_true_iff in Hs as [Hs|Hs].
        -- destruct (Hseen Hs) as (ev' & Hin & HA & Hc). exists ev'.
           split; [|done]. apply elem_of_app. by left.
        -- exists h'. split; [apply elem_of_app; right; by left|]. split; [done|].
           apply (Hdone [] h' (pre ++ ev :: post)%list); [done|]. by destruct pre.
      * intros pre1 ev1 post1 Heq1 Hne.
        apply (Hdone (h' :: pre1) ev1 post1); [|done]. cbn. by rewrite Heq1.
      * exists ev'. split; [|done]. by rewrite <- app_assoc in Hin.
Qed.

(** A settled step has completed: only a refresh is settled without. *)
Lemma settled_step_completed ev :
  authentication (ev_method ev) = false → settled ev = true → completed ev = true.
Proof.
  intros Ha Hs. unfold settled, completed, swallowed, refresh_swallowed in *.
  destruct (ev_error ev); [|done].
  rewrite (bool_decide_eq_false_2 (ev_method ev = "acquireToken")) in Hs
    by (by apply authentication_not_refresh).
  by rewrite orb_false_r in Hs.
Qed.

(** Where an entry of the steps of a log lies in the log. *)
Lemma steps_split tr : ∀ pre ev post,
  steps tr = (pre ++ ev :: post)%list →
  ∃ a b, tr = (a ++ ev :: b)%list ∧ steps a = pre ∧ steps b = post.
Proof.
  unfold steps. induction tr as [|x tr IH]; intros pre ev post Heq.
  - by destruct pre.
  - rewrite filter_cons in Heq.
    destruct (decide (authentication (ev_method x) = false)) as [Hx|Hx].
    + destruct pre as [|p pre]; cbn in Heq; injection Heq as -> Heq.
      * exists [], tr. by rewrite filter_nil.
      * destruct (IH _ _ _ Heq) as (a & b & -> & <- & <-).
        exists (p :: a), b. by rewrite filter_cons, decide_True.
    + destruct (IH _ _ _ Heq) as (a & b & -> & <- & <-).
      exists (x :: a), b. by rewrite filter_cons, decide_False.
Qed.

Lemma elem_of_steps ev evs : ev ∈ steps evs → ev ∈ evs.
Proof. unfold steps. rewrite list_elem_of_filter. tauto. Qed.

Lemma one_of_steps names :
  forallb (λ x, negb (authentication x)) names = true → kind_of_steps (one_of names).
Proof.
  intros Hall x Hx. apply bool_decide_eq_true in Hx.
  rewrite forallb_forall in Hall. apply negb_true_iff, Hall.
  by apply list_elem_of_In.
Qed.

Lemma follows_completes_before {X} A B P Q (m : M X) L st r st' :
  follows P m L Q → guarded A B false L = true → kind_of_steps B →
  P (mem st) → calls st = [] → m st = (r, st') →
  completes_before A B (calls st').
Proof.
  intros Hm HG HBstep HP Hnil Hrun pre ev post Heq HB.
  destruct (Hm _ _ _ HP Hrun) as (evs & Hc & Hs & Hl).
  rewrite Hnil in Hc. cbn in Hc. subst evs.
  assert (Hsteps : steps (calls st') = (steps pre ++ ev :: steps post)%list).
  { rewrite Heq, steps_app. f_equal. unfold steps at 1.
    rewrite filter_cons, decide_True by (by apply HBstep). done. }
  destruct (guarded_sound A B (steps (calls st')) L false [] HG)
    with (pre := steps pre) (ev := ev) (post := steps post)
    as (ev' & Hin & HA & Hdone); try done.
  - destruct r; [done | by destruct Hl as [-> _]].
  - intros pre1 ev1 post1 Heq1 Hne.
    destruct (steps_split _ _ _ _ Heq1) as (a & b & Htr & _ & Hb).
    assert (Hstep : ev1 ∈ steps (calls st')).
    { rewrite Heq1. apply elem_of_app. right. by left. }
    apply list_elem_of_filter in Hstep as [Hstep _].
    apply settled_step_completed; [done|].
    eapply stops_at_failure_earlier; [exact Hs | exact Htr |].
    intros ->. by rewrite <- Hb in Hne.
  - exists ev'. split; [|done]. by apply elem_of_steps.
Qed.

(** What [node] does, spelled out. *)
Lemma load_at_start g w env config m :
  load_of g w env = inr (config, m) → at_start m.
Proof.
  destruct g; unfold load_of, Legacy.load, Modern.load, load_sample_util;
    (destruct (validate_env _ env); [done|]); unfold build_config;
    intros [= <- <-]; by split.
Qed.

Lemma program_of_unfold g w mode env :
  program_of g w mode env = node mode (load_of g w env) (main_of g w).
Proof. by destruct g. Qed.

Lemma guarded_script A B :
  (∀ g v, guarded A B false
     ((match g, v with
       | LegacySdk, true => ["loginWithServicePrincipalSecret"; "vaults.get"]
       | LegacySdk, false =>
           ["loginWithServicePrincipalSecret"; "resourceGroups.createOrUpdate";
            "vaults.createOrUpdate"]
       | ModernSdk, true => ["vaults.get"]
       | ModernSdk, false =>
           ["resourceGroups.createOrUpdate"; "vaults.beginCreateOrUpdateAndWait"]
       end) ++ workflow_script g)%list = true) →
  ∀ g config, guarded A B false (script g config) = true.
Proof.
  intros H g config. unfold script, vault_script.
  destruct g, (truthy (cfg_vaultName config));
    [apply (H LegacySdk true) | apply (H LegacySdk false)
    | apply (H ModernSdk true) | apply (H ModernSdk false)].
Qed.

(** ** C3 *)

(** C3. In every run of either sample, whatever the services answer:
    a vault has been acquired before the storage account is created, the
    role assignment has completed before any key-management call is
    issued, and a SAS has been defined and issued before any data-plane
    write. *)
Theorem C3_step_order g w mode env :
  let log := issued (program_of g w mode env) in
  completes_before vault_acquisition storage_account_creation log
  ∧ completes_before role_assignment key_management log
  ∧ completes_before sas_definition data_plane_write log
  ∧ completes_before sas_token_issuance data_plane_write log.
Proof.
  cbv zeta. rewrite program_of_unfold. unfold node.
  destruct (load_of g w env) as [e | [config m]] eqn:Hload.
  { cbn. repeat split; intros pre ev post Heq; by destruct pre. }
  pose proof (load_at_start _ _ _ _ _ Hload) as Hstart.
  destruct (main_of g w config (initial_state m)) as [r st'] eqn:Hrun.
  assert (Hlog : issued
            match r with
            | inl e =>
                if thrown_in_callback (calls st') then uncaught_exception e st'
                else unhandled_rejection mode e st'
            | inr _ =>
                {| exit_code := 0;
                   stdout := (console st' ++ ["Sample execution complete."])%list;
                   stderr := []; issued := calls st' |}
            end = calls st').
  { destruct r; [by destruct (thrown_in_callback _), mode | done]. }
  rewrite Hlog.
  assert (H : ∀ A B, guarded A B false (script g config) = true → kind_of_steps B →
                     completes_before A B (calls st')).
  { intros A B HG HB.
    exact (follows_completes_before A B _ _ _ _ (initial_state m) r st'
             (follows_main g w config) HG HB Hstart eq_refl Hrun). }
  repeat split; apply H;
    first [ apply guarded_script; intros [] []; vm_compute; reflexivity
          | apply one_of_steps; vm_compute; reflexivity ].
Qed.

(** ** Locating the role assignment in a log *)

Lemma split_on_unique P l : ∀ pre ev post,
  l = (pre ++ ev :: post)%list → P ev = true →
  match split_on P l with
  | Some (pre0, ev0, post0) =>
      Forall (λ x, P x = false) post0 → pre = pre0 ∧ ev = ev0 ∧ post = post0
  | None => False
  end.
Proof.
  induction l as [|x l IH]; intros pre ev post Heq HP.
  - by destruct pre.
  - destruct pre as [|y pre]; cbn in Heq; injection Heq as -> ->; cbn.
    + by rewrite HP.
    + destruct (P y) eqn:Hy.
      * intros Hall. rewrite Forall_forall in Hall.
        assert (Hin : ev ∈ (pre ++ ev :: post)%list) by (apply elem_of_app; right; by left).
        specialize (Hall _ Hin). cbn in Hall. congruence.
      * specialize (IH pre ev post eq_refl HP).
        destruct (split_on P (pre ++ ev :: post)) as [[[pre0 ev0] post0]|]; [|done].
        intros Hall. destruct (IH Hall) as (-> & -> & ->). done.
Qed.

Lemma is_role_assignment_method ev :
  ev_method ev = "roleAssignments.create" ↔ is_role_assignment ev = true.
Proof. destruct ev as [R c r]. by destruct c. Qed.

(** From [Htr : calls st ++ [e1; ...; en] = calls st ++ pre ++ ev :: post]
    and [Hm : ev_method ev = "roleAssignments.create"], find [ev]. *)
Ltac locate_role_assignment Htr Hm :=
  let H := fresh in
  unfold record_call in Htr; cbn [calls mem console] in Htr;
  try (rewrite <- !app_assoc in Htr); try (apply app_inv_head in Htr); cbn [app] in Htr;
  pose proof (split_on_unique is_role_assignment _ _ _ _ Htr
                (proj1 (is_role_assignment_method _) Hm)) as H;
  cbn [split_on is_role_assignment] in H;
  first [ destruct H as (-> & -> & ->); [each_call ltac:(reflexivity)|]
        | done ].

(** In [addStorageAccount], a rejected role assignment either is the
    conflict, and then the function goes on with its next call, or ends
    the function with the rejection.  The newer sample goes on with the
    vault unless the account that was created has no identity. *)
Lemma modern_addStorageAccount_role_assignment w config vault v st r st' pre ev post e :
  heap (mem st) !! vault = Some v →
  Modern.addStorageAccount w config vault st = (r, st') →
  calls st' = (calls st ++ pre ++ ev :: post)%list →
  ev_method ev = "roleAssignments.create" →
  ev_error ev = Some e →
  if decide (err_code e = Some "RoleAssignmentExists")
  then match post with
       | next :: _ => ev_method next = "vaults.beginCreateOrUpdateAndWait"
       | [] => r = inl (undefined_property "principalId")
               ∧ ∃ hist group name p created,
                   respond w StorageAccount hist
                     (StorageAccountsBeginCreateAndWait group name p) = inr created
                   ∧ sa_identity created = None
       end
  else post = [] ∧ r = inl e.
Proof.
  intros Hv H Htr Hm He.
  assert (Hlt : vault < length (heap (mem st))) by (by eapply lookup_lt_Some).
  unfold Modern.addStorageAccount, Modern.grant_key_operator_role,
    Modern.grant_vault_access_and_register in H.
  repeat (first [ rewrite Hv in H
                | rewrite list_lookup_insert_eq in H by done
                | exec_step H; tidy_in H ]).
  all: injection H as <- <-.
  all: locate_role_assignment Htr Hm.
  all: cbn in He; simplify_eq; rewrite ?decide_True by (by apply dec_stable);
    rewrite ?decide_False by done; try done.
  all: split; [reflexivity|]; eexists _, _, _, _, _; split; eassumption.
Qed.

Lemma legacy_addStorageAccount_role_assignment w config vault st r st' pre ev post e :
  Legacy.addStorageAccount w config vault st = (r, st') →
  calls st' = (calls st ++ pre ++ ev :: post)%list →
  ev_method ev = "roleAssignments.create" →
  ev_error ev = Some e →
  if decide (err_code e = Some "RoleAssignmentExists")
  then match post with
       | next :: _ => ev_method next = "loginWithServicePrincipalSecret"
       | [] => False
       end
  else post = [] ∧ r = inl e.
Proof.
  intros H Htr Hm He.
  unfold Legacy.addStorageAccount, Legacy.grant_key_operator_role,
    Legacy.grant_vault_access_and_register, Legacy._getUserCredentials in H.
  cbv zeta in H.
  repeat (tidy_in H; exec_step H).
  all: injection H as <- <-.
  all: locate_role_assignment Htr Hm.
  all: cbn in He; simplify_eq; rewrite ?decide_True by (by apply dec_stable);
    rewrite ?decide_False by done; eauto.
Qed.

(** The [try]/[catch] block on its own: a rejected role assignment is
    logged, and thrown on unless its code is RoleAssignmentExists. *)
Lemma role_grant_outcome g w sa name rid st e :
  let c := RoleAssignmentsCreate (sa_id sa) name rid KEY_VAULT_SERVICE_ID in
  respond w unit (calls st) c = inl e →
  grant_key_operator_role_of g w sa name rid st
  = (if decide (err_code e ≠ Some "RoleAssignmentExists") then inl e else inr tt,
     record_call (Ev c (Some e)) st).
Proof.
  cbv zeta. intros Hr.
  destruct g; cbn [grant_key_operator_role_of];
    unfold Legacy.grant_key_operator_role, Modern.grant_key_operator_role,
      try_catch, mbind, M_bind, bind, await;
    rewrite Hr; cbn [rejection];
    by destruct (decide (err_code e ≠ Some "RoleAssignmentExists")).
Qed.

(** ** Locating a call across the parts of a run *)

Lemma skip_prefix (P : Event → bool) evs1 : ∀ evs2 pre ev post,
  Forall (λ x, P x = false) evs1 → P ev = true →
  (evs1 ++ evs2)%list = (pre ++ ev :: post)%list →
  ∃ pre2, pre = (evs1 ++ pre2)%list ∧ evs2 = (pre2 ++ ev :: post)%list.
Proof.
  induction evs1 as [|x evs1 IH]; intros evs2 pre ev post Hall HP Heq.
  - by exists pre.
  - apply Forall_cons in Hall as [Hx Hall].
    destruct pre as [|y pre]; cbn in Heq; injection Heq as -> Heq; [congruence|].
    destruct (IH _ _ _ _ Hall HP Heq) as (pre2 & -> & ->). by exists pre2.
Qed.

Lemma skip_suffix (P : Event → bool) evs3 : ∀ evs2 pre ev post,
  Forall (λ x, P x = false) evs3 → P ev = true →
  (evs2 ++ evs3)%list = (pre ++ ev :: post)%list →
  ∃ post2, post = (post2 ++ evs3)%list ∧ evs2 = (pre ++ ev :: post2)%list.
Proof.
  induction evs2 as [|x evs2 IH]; intros pre ev post Hall HP Heq.
  - cbn in Heq. subst evs3. apply Forall_app in Hall as [_ Hall].
    apply Forall_cons in Hall as [Hev _]. congruence.
  - destruct pre as [|y pre]; cbn in Heq; injection Heq as -> Heq.
    + subst post. by exists evs2.
    + destruct (IH _ _ _ Hall HP Heq) as (post2 & -> & ->). by exists post2.
Qed.

(** What a computation that follows [L] adds to the log. *)
Lemma follows_run {A} P Q (m : M A) L st r st' :
  follows P m L Q → P (mem st) → m st = (r, st') →
  ∃ evs, calls st' = (calls st ++ evs)%list
         ∧ Forall (λ ev, ev_method ev ∈ L) (steps evs)
         ∧ match r with inr _ => Q (mem st') | inl _ => True end.
Proof.
  intros Hm HP Hrun. destruct (Hm _ _ _ HP Hrun) as (evs & Hc & _ & Hl).
  exists evs. split; [done|].
  assert (Hpre : (ev_method <$> steps evs) `prefix_of` L).
  { destruct r; [done | by destruct Hl as [-> _]]. }
  split; [|by destruct r; [|destruct Hl]].
  destruct Hpre as [k ->]. apply Forall_forall. intros ev Hin.
  apply elem_of_app. left. by apply list_elem_of_fmap_2.
Qed.

Lemma no_role_assignment (L : list string) evs :
  Forall (λ ev, ev_method ev ∈ L) (steps evs) → "roleAssignments.create" ∉ L →
  Forall (λ ev, is_role_assignment ev = false) evs.
Proof.
  intros Hall HL. apply Forall_forall. intros ev Hin.
  destruct (is_role_assignment ev) eqn:Hev; [|done].
  apply is_role_assignment_method in Hev.
  assert (Hstep : ev ∈ steps evs).
  { apply list_elem_of_filter. split; [|done]. by rewrite Hev. }
  rewrite Forall_forall in Hall. specialize (Hall _ Hstep). cbn in Hall.
  by rewrite Hev in Hall.
Qed.

Lemma vault_script_no_role_assignment g config :
  "roleAssignments.create" ∉ vault_script g config.
Proof.
  unfold vault_script. destruct g, (truthy (cfg_vaultName config));
    apply (bool_decide_eq_false_1 _); vm_compute; reflexivity.
Qed.

(** What [main] does once [addStorageAccount] has returned. *)
Lemma follows_legacy_after_add w config sa vault :
  follows anyhow
    (Legacy.updateStorageAccount w config sa vault;;
     Legacy.regenerateStorageAccountKey w config sa vault;;
     Legacy.getStorageAccounts w config vault;;
     Legacy.createAccountSASDefinition w config sa vault;;
     Legacy.createBlobSASDefinition w config sa vault;;
     Legacy.getSASDefinitions w config sa vault;;
     Legacy.deleteStorageAccount w config vault sa)
    (drop 6 (workflow_script LegacySdk)) anyhow.
Proof.
  eapply follows_script.
  - eapply follows_bind; [apply follows_legacy_updateStorageAccount | intros ?].
    eapply follows_bind; [apply follows_legacy_regenerateStorageAccountKey | intros ?].
    eapply follows_bind; [apply follows_legacy_getStorageAccounts | intros ?].
    eapply follows_bind; [apply follows_legacy_createAccountSASDefinition | intros ?].
    eapply follows_bind; [apply follows_legacy_createBlobSASDefinition | intros ?].
    eapply follows_bind; [apply follows_legacy_getSASDefinitions | intros ?].
    apply follows_legacy_deleteStorageAccount.
  - reflexivity.
Qed.

Lemma follows_modern_after_add w config sa vault :
  follows anyhow
    (Modern.updateStorageAccount w config sa vault;;
     Modern.regenerateStorageAccountKey w config sa;;
     Modern.createAccountSASDefinition w config sa;;
     Modern.deleteStorageAccount w config sa)
    (drop 6 (workflow_script ModernSdk)) anyhow.
Proof.
  eapply follows_script.
  - eapply follows_bind; [apply follows_modern_updateStorageAccount | intros ?].
    eapply follows_bind; [apply follows_modern_regenerateStorageAccountKey | intros ?].
    eapply follows_bind; [apply follows_modern_createAccountSASDefinition | intros ?].
    apply follows_modern_deleteStorageAccount.
  - reflexivity.
Qed.

(** A first acquisition addresses no vault by URI, and the object it
    returns is what the service answered to the lookup or the creation. *)
Lemma getSampleVault_object g w config st r st' :
  cfg_vault (mem st) = None →
  getSampleVault_of g w config st = (r, st') →
  ∃ evs, calls st' = (calls st ++ evs)%list
         ∧ Forall (λ ev, ev_vaultUri ev = None) evs
         ∧ ∀ vault, r = inr vault →
             ∃ hist (c : Call Vault) v,
               respond w Vault hist c = inr v
               ∧ vault_acquisition (method c) = true
               ∧ pushes_whole_vault (Ev c None) = false
               ∧ heap (mem st') !! vault = Some v.
Proof.
  intros Hc H. destruct g; cbn [getSampleVault_of] in H;
    [unfold Legacy._getSampleVault in H | unfold Modern._getSampleVault in H];
    exec_step H; rewrite Hc in H; cbv zeta in H; exec H;
    injection H as <- <-; new_calls; tidy;
    (split; [repeat constructor|]); intros vault [=]; subst;
    eexists _, _, _; (split; [eassumption|]); (split; [reflexivity|]);
    (split; [reflexivity|]); by apply list_lookup_middle.
Qed.

(** A run of [main] cut at [addStorageAccount]: the vault is acquired
    without a role assignment, then [addStorageAccount] runs on the vault
    object that was acquired, then the remaining steps run without a role
    assignment. *)
Lemma main_around_addStorageAccount g w config st r st' :
  at_start (mem st) → main_of g w config st = (r, st') →
  ∃ evs1 evs2 evs3 vault st1 r2 st2,
    calls st' = (calls st ++ evs1 ++ evs2 ++ evs3)%list
    ∧ Forall (λ ev, is_role_assignment ev = false) evs1
    ∧ Forall (λ ev, is_role_assignment ev = false) evs3
    ∧ (evs2 = [] ∧ evs3 = [] ∧ (∃ e, r = inl e)
       ∨ (∃ v, heap (mem st1) !! vault = Some v)
         ∧ addStorageAccount_of g w config vault st1 = (r2, st2)
         ∧ calls st2 = (calls st1 ++ evs2)%list
         ∧ match r2 with
           | inl e => r = inl e ∧ evs3 = []
           | inr _ => True
           end).
Proof.
  intros Hstart H. destruct g; cbn [main_of addStorageAccount_of] in *.
  - unfold Legacy.main in H. exec_step H.
    match type of H with _ ?s = _ => set (st0 := s) in * end.
    change (at_start (mem st0)) in Hstart. change (calls st) with (calls st0).
    clearbody st0.
    apply bind_inv in H as [(e1 & H1 & ->) | (vault & st1 & H1 & H)];
      destruct (follows_run _ _ _ _ _ _ _ (follows_legacy_getSampleVault w config)
                  Hstart H1) as (evs1 & Hc1 & Hm1 & _);
      assert (Hno1 : Forall (λ ev, is_role_assignment ev = false) evs1)
        by (eapply no_role_assignment, (vault_script_no_role_assignment LegacySdk); eauto).
    + exists evs1, [], [], 0, st0, (inl e1 : Result StorageAccount), st0.
      rewrite !app_nil_r. repeat split; [done..|]. left. eauto.
    + destruct (getSampleVault_object LegacySdk _ _ _ _ _ (proj1 Hstart) H1)
        as (_ & _ & _ & Hobj).
      destruct (Hobj vault eq_refl) as (_ & _ & v & _ & _ & _ & Hv).
      apply bind_inv in H as [(e2 & H2 & ->) | (sa & st2 & H2 & H)];
        destruct (follows_run _ _ _ _ _ _ _
                    (follows_legacy_addStorageAccount w config vault) I H2)
          as (evs2 & Hc2 & _ & _).
      * exists evs1, evs2, [], vault, st1, (inl e2), st'.
        rewrite app_nil_r, Hc2, Hc1, <- app_assoc. repeat split; [done..|].
        right. split; [by exists v|]. eauto.
      * destruct (follows_run _ _ _ _ _ _ _ (follows_legacy_after_add w config sa vault)
                    I H) as (evs3 & Hc3 & Hm3 & _).
        exists evs1, evs2, evs3, vault, st1, (inr sa), st2.
        rewrite Hc3, Hc2, Hc1, <- !app_assoc. repeat split; [done..| |].
        { eapply no_role_assignment; [exact Hm3|].
          apply (bool_decide_eq_false_1 _). vm_compute. reflexivity. }
        right. split; [by exists v|]. eauto.
  - unfold Modern.main in H. exec_step H.
    match type of H with _ ?s = _ => set (st0 := s) in * end.
    change (at_start (mem st0)) in Hstart. change (calls st) with (calls st0).
    clearbody st0.
    apply bind_inv in H as [(e1 & H1 & ->) | (vault & st1 & H1 & H)];
      destruct (follows_run _ _ _ _ _ _ _ (follows_modern_getSampleVault w config)
                  Hstart H1) as (evs1 & Hc1 & Hm1 & _);
      assert (Hno1 : Forall (λ ev, is_role_assignment ev = false) evs1)
        by (eapply no_role_assignment, (vault_script_no_role_assignment ModernSdk); eauto).
    + exists evs1, [], [], 0, st0, (inl e1 : Result StorageAccount), st0.
      rewrite !app_nil_r. repeat split; [done..|]. left. eauto.
    + destruct (getSampleVault_object ModernSdk _ _ _ _ _ (proj1 Hstart) H1)
        as (_ & _ & _ & Hobj).
      destruct (Hobj vault eq_refl) as (_ & _ & v & _ & _ & _ & Hv).
      apply bind_inv in H as [(e2 & H2 & ->) | (sa & st2 & H2 & H)];
        destruct (follows_run _ _ _ _ _ _ _
                    (follows_modern_addStorageAccount w config vault) I H2)
          as (evs2 & Hc2 & _ & _).
      * exists evs1, evs2, [], vault, st1, (inl e2), st'.
        rewrite app_nil_r, Hc2, Hc1, <- app_assoc. repeat split; [done..|].
        right. split; [by exists v|]. eauto.
      * destruct (follows_run _ _ _ _ _ _ _ (follows_modern_after_add w config sa vault)
                    I H) as (evs3 & Hc3 & Hm3 & _).
        exists evs1, evs2, evs3, vault, st1, (inr sa), st2.
        rewrite Hc3, Hc2, Hc1, <- !app_assoc. repeat split; [done..| |].
        { eapply no_role_assignment; [exact Hm3|].
          apply (bool_decide_eq_false_1 _). vm_compute. reflexivity. }
        right. split; [by exists v|]. eauto.
Qed.

Lemma role_assignment_in_main g w config st r st' pre ev post e :
  at_start (mem st) → main_of g w config st = (r, st') →
  calls st' = (calls st ++ pre ++ ev :: post)%list →
  ev_method ev = "roleAssignments.create" →
  ev_error ev = Some e →
  if decide (err_code e = Some "RoleAssignmentExists")
  then match post with
       | next :: _ => ev_method next = first_call_after_role_grant g
       | [] => g = ModernSdk
               ∧ r = inl (undefined_property "principalId")
               ∧ ∃ hist group name p created,
                   respond w StorageAccount hist
                     (StorageAccountsBeginCreateAndWait group name p) = inr created
                   ∧ sa_identity created = None
       end
  else post = [] ∧ r = inl e.
Proof.
  intros Hstart H Htr Hm He.
  destruct (main_around_addStorageAccount _ _ _ _ _ _ Hstart H)
    as (evs1 & evs2 & evs3 & vault & st1 & r2 & st2 & Hc & Hno1 & Hno3 & Hcases).
  rewrite Hc in Htr. apply app_inv_head in Htr.
  pose proof (proj1 (is_role_assignment_method _) Hm) as Hra.
  destruct (skip_prefix _ _ _ _ _ _ Hno1 Hra Htr) as (pre2 & -> & Htr2).
  destruct (skip_suffix _ _ _ _ _ _ Hno3 Hra Htr2) as (post2 & -> & ->).
  destruct Hcases as [(Hnil & _) | ([v Hv] & Hadd & Hc2 & Hr2)]; [by destruct pre2|].
  destruct g; cbn [addStorageAccount_of first_call_after_role_grant] in *.
  - pose proof (legacy_addStorageAccount_role_assignment _ _ _ _ _ _ _ _ _ _
                  Hadd Hc2 Hm He) as Hl.
    destruct (decide (err_code e = Some "RoleAssignmentExists")).
    + by destruct post2.
    + destruct Hl as [-> ->]. by destruct Hr2 as [-> ->].
  - pose proof (modern_addStorageAccount_role_assignment _ _ _ _ _ _ _ _ _ _ _
                  Hv Hadd Hc2 Hm He) as Hl.
    destruct (decide (err_code e = Some "RoleAssignmentExists")).
    + destruct post2 as [|next post2]; [|done].
      destruct Hl as [-> Hcause]. destruct Hr2 as [-> ->]. cbn. eauto.
    + destruct Hl as [-> ->]. by destruct Hr2 as [-> ->].
Qed.

(** ** C1 *)

(** C1. In a run of [main] (either generation, any answers of the
    services), take the role-assignment call and suppose it was rejected
    with [e].  If the code of [e] is RoleAssignmentExists, the grant counts
    as made and the run goes on with the statements after the [try]: the
    next call of [addStorageAccount] is issued.  (Only in the newer sample
    can the run end before that call, namely when the service has created
    the account without a managed identity: the statement after the [try]
    that reads [storageAccount.identity.principalId] then raises its
    TypeError.)  With any other code no further call is issued and the run
    ends with [e]. *)
Theorem C1_role_assignment_conflict g w config st pre ev post e :
  at_start (mem st) →
  calls (main_of g w config st).2 = (calls st ++ pre ++ ev :: post)%list →
  ev_method ev = "roleAssignments.create" →
  ev_error ev = Some e →
  (err_code e = Some "RoleAssignmentExists" →
     match post with
     | next :: _ => ev_method next = first_call_after_role_grant g
     | [] => g = ModernSdk
             ∧ (main_of g w config st).1 = inl (undefined_property "principalId")
             ∧ ∃ hist group name p created,
                 respond w StorageAccount hist
                   (StorageAccountsBeginCreateAndWait group name p) = inr created
                 ∧ sa_identity created = None
     end)
  ∧ (err_code e ≠ Some "RoleAssignmentExists" →
     post = [] ∧ (main_of g w config st).1 = inl e).
Proof.
  intros Hstart Htr Hm He.
  destruct (main_of g w config st) as [r st'] eqn:H. cbn [fst snd] in *.
  pose proof (role_assignment_in_main _ _ _ _ _ _ _ _ _ _ Hstart H Htr Hm He) as Hl.
  destruct (decide (err_code e = Some "RoleAssignmentExists")); split; done.
Qed.

(** The conflict in a run of either sample.  In the older one the role
    assignment is the seventh call and the login for the vault update
    follows; in the newer one it is the fifth call and the update of the
    vault follows. *)
Lemma C1_role_assignment_conflict_witness :
  let e := Fixtures.service_error "RoleAssignmentExists" in
  let old := calls (Fixtures.conflict_run LegacySdk).2 in
  let new := calls (Fixtures.conflict_run ModernSdk).2 in
  at_start (mem Fixtures.fresh_state)
  ∧ (ev_method (Fixtures.entry 6 old) = "roleAssignments.create"
     ∧ ev_error (Fixtures.entry 6 old) = Some e
     ∧ ev_method (Fixtures.entry 7 old) = "loginWithServicePrincipalSecret"
     ∧ (err_code e = Some "RoleAssignmentExists" →
        match drop 7 old with
        | next :: _ => ev_method next = first_call_after_role_grant LegacySdk
        | [] => LegacySdk = ModernSdk
                ∧ (Fixtures.conflict_run LegacySdk).1
                  = inl (undefined_property "principalId")
                ∧ ∃ hist group name p created,
                    respond Fixtures.conflict_world StorageAccount hist
                      (StorageAccountsBeginCreateAndWait group name p) = inr created
                    ∧ sa_identity created = None
        end))
  ∧ (ev_method (Fixtures.entry 4 new) = "roleAssignments.create"
     ∧ ev_error (Fixtures.entry 4 new) = Some e
     ∧ ev_method (Fixtures.entry 5 new) = "vaults.beginCreateOrUpdateAndWait"
     ∧ (Fixtures.conflict_run ModernSdk).1 = inr tt
     ∧ (err_code e = Some "RoleAssignmentExists" →
        match drop 5 new with
        | next :: _ => ev_method next = first_call_after_role_grant ModernSdk
        | [] => ModernSdk = ModernSdk
                ∧ (Fixtures.conflict_run ModernSdk).1
                  = inl (undefined_property "principalId")
                ∧ ∃ hist group name p created,
                    respond Fixtures.conflict_world StorageAccount hist
                      (StorageAccountsBeginCreateAndWait group name p) = inr created
                    ∧ sa_identity created = None
        end)).
Proof.
  cbv zeta.
  assert (H1 : at_start (mem Fixtures.fresh_state)) by (split; reflexivity).
  split; [exact H1|]. split.
  - split; [vm_compute; reflexivity|].
    split; [vm_compute; reflexivity|].
    split; [vm_compute; reflexivity|].
    apply (C1_role_assignment_conflict LegacySdk Fixtures.conflict_world
             Fixtures.sample_config Fixtures.fresh_state
             (take 6 (calls (Fixtures.conflict_run LegacySdk).2))
             (Fixtures.entry 6 (calls (Fixtures.conflict_run LegacySdk).2))
             (drop 7 (calls (Fixtures.conflict_run LegacySdk).2))
             (Fixtures.service_error "RoleAssignmentExists"));
      [exact H1 | vm_compute; reflexivity..].
  - split; [vm_compute; reflexivity|].
    split; [vm_compute; reflexivity|].
    split; [vm_compute; reflexivity|].
    split; [vm_compute; reflexivity|].
    apply (C1_role_assignment_conflict ModernSdk Fixtures.conflict_world
             Fixtures.sample_config Fixtures.fresh_state
             (take 4 (calls (Fixtures.conflict_run ModernSdk).2))
             (Fixtures.entry 4 (calls (Fixtures.conflict_run ModernSdk).2))
             (drop 5 (calls (Fixtures.conflict_run ModernSdk).2))
             (Fixtures.service_error "RoleAssignmentExists"));
      [exact H1 | vm_compute; reflexivity..].
Defined.

(** * Invariants of whole runs *)

#[global] Instance Forall_closed (P : Event → Prop) : TraceClosed (Forall P).
Proof. split; [constructor | intros a b Ha Hb; by apply Forall_app]. Qed.

Section Keeps.
Context (I : Mem → Prop) (T : list Event → Prop) `{!TraceClosed T}.

Lemma keeps_quiet {A} (m : M A) :
  (∀ st r st', I (mem st) → m st = (r, st') → I (mem st') ∧ calls st' = calls st) →
  keeps I T m.
Proof.
  intros Hm st r st' HI H. destruct (Hm _ _ _ HI H) as [HI' Hc]. split; [done|].
  exists []. rewrite app_nil_r. split; [done | apply closed_nil].
Qed.

Lemma keeps_ret {A} (a : A) : keeps I T (ret a).
Proof. apply keeps_quiet. intros st r st' HI H. by run. Qed.

Lemma keeps_throw {A} (e : JsError) : keeps I T (throw e : M A).
Proof. apply keeps_quiet. intros st r st' HI H. by run. Qed.

Lemma keeps_gets {A} (f : Mem → A) : keeps I T (gets f).
Proof. apply keeps_quiet. intros st r st' HI H. by run. Qed.

Lemma keeps_console_log line : keeps I T (console_log line).
Proof. apply keeps_quiet. intros st r st' HI H. by run. Qed.

Lemma keeps_asked w {R} (c : Call R) : keeps I T (asked w c).
Proof. apply keeps_quiet. intros st r st' HI H. by run. Qed.

Lemma keeps_modify f : (∀ m, I m → I (f m)) → keeps I T (modify f).
Proof. intros Hf. apply keeps_quiet. intros st r st' HI H. run. auto. Qed.

Lemma keeps_await w {R} (c : Call R) :
  (∀ rejected, T [Ev c rejected]) → keeps I T (await w c).
Proof.
  intros HT st r st' HI H. apply await_inv in H as [-> ->]. split; [done|].
  eexists. split; [reflexivity | apply HT].
Qed.

Lemma keeps_bind {A B} (m : M A) (f : A → M B) :
  keeps I T m → (∀ a, keeps I T (f a)) → keeps I T (m ≫= f).
Proof.
  intros Hm Hf st r st' HI H.
  apply bind_inv in H as [(e & H & ->) | (a & st1 & H1 & H)]; [by eapply Hm|].
  destruct (Hm _ _ _ HI H1) as (HI1 & evs1 & Hc1 & HT1).
  destruct (Hf a _ _ _ HI1 H) as (HI2 & evs2 & Hc2 & HT2).
  split; [done|]. exists (evs1 ++ evs2)%list.
  rewrite Hc2, Hc1, <- app_assoc. split; [done | by apply closed_app].
Qed.

Lemma keeps_try_catch {A} (m : M A) h :
  keeps I T m → (∀ e, keeps I T (h e)) → keeps I T (try_catch m h).
Proof.
  intros Hm Hh st r st' HI H.
  apply try_catch_inv in H as [(a & H & ->) | (e & st1 & H1 & H)]; [by eapply Hm|].
  destruct (Hm _ _ _ HI H1) as (HI1 & evs1 & Hc1 & HT1).
  destruct (Hh e _ _ _ HI1 H) as (HI2 & evs2 & Hc2 & HT2).
  split; [done|]. exists (evs1 ++ evs2)%list.
  rewrite Hc2, Hc1, <- app_assoc. split; [done | by apply closed_app].
Qed.

Lemma keeps_forEach {A} (l : list A) (f : A → M unit) :
  (∀ x, keeps I T (f x)) → keeps I T (forEach l f).
Proof.
  intros Hf. induction l as [|x l IH]; cbn; [apply keeps_ret|].
  apply keeps_bind; auto.
Qed.

(** What is read from the heap is what the invariant speaks of. *)
Lemma keeps_deref_bind {B} r0 (k : Vault → M B) :
  (∀ m v, I m → heap m !! r0 = Some v → keeps I T (k v)) →
  keeps I T (deref r0 ≫= k).
Proof.
  intros Hk st r st' HI H. unfold deref in H. apply step_assoc, step_gets in H.
  destruct (heap (mem st) !! r0) as [v|] eqn:Hv.
  - apply step_ret in H. by eapply Hk.
  - apply step_throw in H. injection H as <- <-. split; [done|].
    exists []. rewrite app_nil_r. split; [done | apply closed_nil].
Qed.
End Keeps.

Lemma keeps_weaken {A} (I : Mem → Prop) (T T' : list Event → Prop) (m : M A) :
  (∀ evs, T evs → T' evs) → keeps I T m → keeps I T' m.
Proof.
  intros HT Hm st r st' HI H. destruct (Hm _ _ _ HI H) as (HI' & evs & Hc & He).
  split; [done|]. exists evs. auto.
Qed.

(** Applying a rule of [keeps]; the closure of the log property is found
    among the instances. *)
Ltac rule lem := apply lem; try apply _.

(** Walking through a computation; [leaf] proves the property of the log
    of a single call. *)
Ltac walk_step leaf :=
  lazymatch goal with
  | |- keeps _ _ (_ ≫= _) => rule keeps_bind; [ | intros ? ]
  | |- keeps _ _ (try_catch _ _) => rule keeps_try_catch; [ | intros ? ]
  | |- keeps _ _ (ret _) => rule keeps_ret
  | |- keeps _ _ (throw _) => rule keeps_throw
  | |- keeps _ _ (gets _) => rule keeps_gets
  | |- keeps _ _ (asked _ _) => rule keeps_asked
  | |- keeps _ _ (console_log _) => rule keeps_console_log
  | |- keeps _ _ (modify _) => rule keeps_modify; done
  | |- keeps _ _ (await _ _) => rule keeps_await; intros ?; leaf
  | |- keeps _ _ (forEach _ _) => rule keeps_forEach; intros ?
  | |- keeps _ _ (match ?x with _ => _ end) => destruct x
  | |- keeps _ _ ?m => let h := head_of m in unfold h
  end.

(** ** The fallback of a rejected token refresh *)

#[global] Instance refresh_falls_back_closed : TraceClosed refresh_falls_back.
Proof.
  split; [intros pre ev post Heq; by destruct pre|].
  intros a b Ha Hb pre ev post Heq Hev.
  apply app_eq_app in Heq as [l [[-> Heq] | [-> ->]]].
  - destruct l as [|x l]; cbn in Heq.
    + by apply (Hb [] ev post).
    + injection Heq as <- ->.
      destruct (Ha pre ev l eq_refl Hev) as (next & rest & -> & Hnext).
      by exists next, (rest ++ b)%list.
  - by apply (Hb l ev post).
Qed.






(** ** C4 *)




(** * Vault acquisition *)

(** With a vault cached, [_getSampleVault] returns it and does nothing. *)
Lemma getSampleVault_cached g w config st vault :
  cfg_vault (mem st) = Some vault →
  getSampleVault_of g w config st = (inr vault, st).
Proof.
  intros Hc. destruct g; cbn [getSampleVault_of];
    [unfold Legacy._getSampleVault | unfold Modern._getSampleVault];
    unfold mbind, M_bind, bind, gets; by rewrite Hc.
Qed.

(** A first acquisition with a configured name. *)
Lemma getSampleVault_configured g w config st name r st' :
  truthy (cfg_vaultName config) = Some name →
  cfg_vault (mem st) = None →
  getSampleVault_of g w config st = (r, st') →
  ∃ evs, calls st' = (calls st ++ evs)%list
         ∧ vault_creations evs = []
         ∧ Forall (λ ev, ev_method ev ≠ "resourceGroups.createOrUpdate") evs
         ∧ match r with
           | inr _ => vault_lookups evs = [(cfg_groupName config, name)]
           | inl _ => vault_lookups evs = []
                      ∨ vault_lookups evs = [(cfg_groupName config, name)]
           end.
Proof.
  intros Hname Hc H. destruct g; cbn [getSampleVault_of] in H;
    [unfold Legacy._getSampleVault in H | unfold Modern._getSampleVault in H];
    exec_step H; rewrite Hc in H; cbv zeta in H;
    repeat (first [rewrite Hname in H | exec_step H]);
    injection H as <- <-; new_calls; cbn;
    repeat split; repeat constructor; auto; discriminate.
Qed.

(** A first acquisition without a configured name. *)
Lemma getSampleVault_unconfigured g w config st r st' :
  truthy (cfg_vaultName config) = None →
  cfg_vault (mem st) = None →
  getSampleVault_of g w config st = (r, st') →
  ∃ evs, calls st' = (calls st ++ evs)%list
         ∧ vault_lookups evs = []
         ∧ match r with
           | inr _ =>
               vault_creations evs = [random_id w (draws (mem st))]
               ∧ draws (mem st') = S (draws (mem st))
           | inl _ =>
               vault_creations evs = []
               ∨ vault_creations evs = [random_id w (draws (mem st))]
           end.
Proof.
  intros Hname Hc H. destruct g; cbn [getSampleVault_of] in H;
    [unfold Legacy._getSampleVault in H | unfold Modern._getSampleVault in H];
    exec_step H; rewrite Hc in H; cbv zeta in H;
    repeat (first [rewrite Hname in H | exec_step H]);
    injection H as <- <-; new_calls; cbn; auto.
Qed.

(** ** C5 *)

(** C5. When a vault name is configured, vault acquisition never calls
    the vault's create operation (nor creates a resource group); the only
    vault-management call it can make is the lookup of the configured name
    in the configured group, made exactly once when the acquisition
    returns a vault. *)
Theorem C5_configured_vault_is_looked_up g w config st name :
  truthy (cfg_vaultName config) = Some name →
  ∃ evs, calls (getSampleVault_of g w config st).2 = (calls st ++ evs)%list
         ∧ vault_creations evs = []
         ∧ Forall (λ ev, ev_method ev ≠ "resourceGroups.createOrUpdate") evs
         ∧ (vault_lookups evs = []
            ∨ vault_lookups evs = [(cfg_groupName config, name)])
         ∧ (cfg_vault (mem st) = None →
            (∃ vault, (getSampleVault_of g w config st).1 = inr vault) →
            vault_lookups evs = [(cfg_groupName config, name)]).
Proof.
  intros Hname.
  destruct (cfg_vault (mem st)) as [vault|] eqn:Hc.
  - rewrite (getSampleVault_cached _ _ _ _ _ Hc). exists []. cbn.
    rewrite app_nil_r. split; [done|]. split; [done|]. split; [constructor|].
    split; [by left | discriminate].
  - destruct (getSampleVault_of g w config st) as [r st'] eqn:H.
    destruct (getSampleVault_configured _ _ _ _ _ _ _ Hname Hc H)
      as (evs & Hcalls & Hcr & Hrg & Hl).
    exists evs. cbn [fst snd]. split; [done|]. split; [done|]. split; [done|]. split.
    + destruct r; auto.
    + intros _ [vault ->]. done.
Qed.

(** A first acquisition of the configured vault [myvault] by the newer
    sample. *)
Lemma C5_configured_vault_is_looked_up_witness :
  truthy (cfg_vaultName Fixtures.vault_config) = Some "myvault"
  ∧ ∃ evs,
      calls (getSampleVault_of ModernSdk Fixtures.happy Fixtures.vault_config
               Fixtures.fresh_state).2
      = (calls Fixtures.fresh_state ++ evs)%list
      ∧ vault_creations evs = []
      ∧ Forall (λ ev, ev_method ev ≠ "resourceGroups.createOrUpdate") evs
      ∧ (vault_lookups evs = []
         ∨ vault_lookups evs = [(cfg_groupName Fixtures.vault_config, "myvault")])
      ∧ (cfg_vault (mem Fixtures.fresh_state) = None →
         (∃ vault, (getSampleVault_of ModernSdk Fixtures.happy Fixtures.vault_config
                      Fixtures.fresh_state).1 = inr vault) →
         vault_lookups evs = [(cfg_groupName Fixtures.vault_config, "myvault")]).
Proof.
  split; [vm_compute; reflexivity|].
  apply (C5_configured_vault_is_looked_up ModernSdk Fixtures.happy
           Fixtures.vault_config Fixtures.fresh_state "myvault").
  vm_compute; reflexivity.
Defined.

(** ** C6 *)

(** C6. When no vault name is configured, a first vault acquisition makes
    no lookup and calls the create operation exactly once, under the name
    that [random_id] has just produced, provided the calls that come
    before it (the login of the service principal in the older sample, the
    creation of the resource group) are accepted.  The creation is then the
    last call, that draw of [random_id] is used up, and the acquisition
    returns a vault, which it caches, exactly when the creation is
    accepted.  When a call before it is rejected the acquisition ends
    there; in no case is the create operation called twice or under
    another name. *)
Theorem C6_unconfigured_vault_is_created g w config st :
  truthy (cfg_vaultName config) = None →
  cfg_vault (mem st) = None →
  let fresh_name := random_id w (draws (mem st)) in
  let run := getSampleVault_of g w config st in
  ∃ evs, calls run.2 = (calls st ++ evs)%list
         ∧ vault_lookups evs = []
         ∧ (vault_creations evs = [] ∨ vault_creations evs = [fresh_name])
         ∧ ((∀ R hist (c : Call R), before_vault_creation (method c) = true →
               rejection (respond w R hist c) = None) →
            vault_creations evs = [fresh_name]
            ∧ draws (mem run.2) = S (draws (mem st))
            ∧ ∃ creation,
                last evs = Some creation
                ∧ ev_pushed_vault_name creation = Some fresh_name
                ∧ match ev_error creation with
                  | None => ∃ vault, run.1 = inr vault
                                     ∧ cfg_vault (mem run.2) = Some vault
                  | Some e => run.1 = inl e
                  end).
Proof.
  intros Hname Hc. cbv zeta.
  destruct (getSampleVault_of g w config st) as [r st'] eqn:H. cbn [fst snd].
  destruct g; cbn [getSampleVault_of] in H;
    [unfold Legacy._getSampleVault in H | unfold Modern._getSampleVault in H];
    exec_step H; rewrite Hc in H; cbv zeta in H;
    repeat (first [rewrite Hname in H | exec_step H]);
    injection H as <- <-; new_calls; cbn;
    (split; [reflexivity|]); (split; [auto|]); intros Hacc;
    try match goal with
        | Hr : respond w ?R ?hist ?c = inl _ |- _ =>
            pose proof (Hacc R hist c eq_refl) as Hn; rewrite Hr in Hn; discriminate Hn
        end;
    (split; [reflexivity|]); (split; [reflexivity|]);
    eexists; (split; [reflexivity|]); (split; [reflexivity|]); cbn; eauto.
Qed.

(** A first acquisition by the older sample with no vault name set, all
    calls accepted: the vault is created, once, under the second draw of
    [random_id] (the first one named the storage account). *)
Lemma C6_unconfigured_vault_is_created_witness :
  let run := getSampleVault_of LegacySdk Fixtures.happy Fixtures.sample_config
               Fixtures.fresh_state in
  truthy (cfg_vaultName Fixtures.sample_config) = None
  ∧ cfg_vault (mem Fixtures.fresh_state) = None
  ∧ (∀ R hist (c : Call R), before_vault_creation (method c) = true →
       rejection (respond Fixtures.happy R hist c) = None)
  ∧ ∃ evs,
      calls run.2 = (calls Fixtures.fresh_state ++ evs)%list
      ∧ vault_lookups evs = []
      ∧ vault_creations evs = [random_id Fixtures.happy 1]
      ∧ draws (mem run.2) = 2
      ∧ ∃ vault, run.1 = inr vault ∧ cfg_vault (mem run.2) = Some vault.
Proof.
  cbv zeta.
  assert (Hacc : ∀ R hist (c : Call R), before_vault_creation (method c) = true →
            rejection (respond Fixtures.happy R hist c) = None) by reflexivity.
  split; [vm_compute; reflexivity|].
  split; [vm_compute; reflexivity|].
  split; [exact Hacc|].
  destruct (C6_unconfigured_vault_is_created LegacySdk Fixtures.happy
              Fixtures.sample_config Fixtures.fresh_state)
    as (evs & Hc & Hl & _ & Hcr); [vm_compute; reflexivity..|].
  destruct (Hcr Hacc) as (Hone & Hd & creation & _ & _ & _).
  exists evs. split; [exact Hc|]. split; [exact Hl|]. split; [exact Hone|].
  split; [exact Hd|]. exists 0. split; vm_compute; reflexivity.
Defined.

(** ** C10 *)

(** C10. Once [_getSampleVault] has returned a vault, [config.vault]
    holds that reference, and every later call, in whatever state that
    still holds it, returns the same reference and changes nothing: no
    call is issued, nothing is logged, the memory is untouched. *)
Theorem C10_vault_acquisition_is_cached g w config st vault :
  (getSampleVault_of g w config st).1 = inr vault →
  cfg_vault (mem (getSampleVault_of g w config st).2) = Some vault
  ∧ ∀ st2, cfg_vault (mem st2) = Some vault →
           getSampleVault_of g w config st2 = (inr vault, st2).
Proof.
  intros Hfirst. split; [|intros st2; apply getSampleVault_cached].
  destruct (cfg_vault (mem st)) as [cached|] eqn:Hc.
  { rewrite (getSampleVault_cached _ _ _ _ _ Hc) in *. cbn in *. congruence. }
  destruct (getSampleVault_of g w config st) as [r st'] eqn:H. cbn [fst snd] in *.
  subst r.
  destruct g; cbn [getSampleVault_of] in H;
    [unfold Legacy._getSampleVault in H | unfold Modern._getSampleVault in H];
    exec_step H; rewrite Hc in H; cbv zeta in H; exec H;
    first [discriminate H | by injection H as <- <-].
Qed.

(** Two acquisitions in a row by the older sample: the second returns
    the first one's reference and leaves the state as it is. *)
Lemma C10_vault_acquisition_is_cached_witness :
  let first := getSampleVault_of LegacySdk Fixtures.happy Fixtures.sample_config
                 Fixtures.fresh_state in
  first.1 = inr 0
  ∧ cfg_vault (mem first.2) = Some 0
  ∧ ∀ st2, cfg_vault (mem st2) = Some 0 →
           getSampleVault_of LegacySdk Fixtures.happy Fixtures.sample_config st2
           = (inr 0, st2).
Proof.
  cbv zeta. split; [vm_compute; reflexivity|].
  apply (C10_vault_acquisition_is_cached LegacySdk Fixtures.happy
           Fixtures.sample_config Fixtures.fresh_state 0).
  vm_compute; reflexivity.
Defined.

(** * Teardown *)

(** ** C9 *)

(** C9. Teardown makes one call to the services: the older sample asks
    the vault to drop its registration of the storage account, the newer
    one sets the account's encryption key source back to
    Microsoft.Storage.  In the older sample the client may first have its
    authenticator ask for tokens for the service principal, and when such
    a request is rejected the run ends before the call is made.  No call
    of teardown is a vault-management call or a deletion of the storage
    account, none carries a vault definition, and the process memory (the
    vault object included) is left as it was. *)
Theorem C9_teardown_leaves_vault_and_account g w config vault v sa st :
  heap (mem st) !! vault = Some v →
  let run := deleteStorageAccount_of g w config vault sa st in
  mem run.2 = mem st
  ∧ ∃ tokens made,
      calls run.2 = (calls st ++ tokens ++ made)%list
      ∧ Forall (client_token_request config) tokens
      ∧ (g = ModernSdk → tokens = [])
      ∧ ((∃ rejected, made = [teardown_call g config v sa rejected])
         ∨ made = [] ∧ ∃ e, run.1 = inl e
                            ∧ ends_at_rejection tokens (inl e : Result unit))
      ∧ Forall (λ ev, vault_management (ev_method ev) = false
                      ∧ storage_account_deletion (ev_method ev) = false
                      ∧ ev_pushed_vault ev = None) (tokens ++ made).
Proof.
  intros Hv. cbv zeta.
  destruct (deleteStorageAccount_of g w config vault sa st) as [r st'] eqn:H.
  cbn [fst snd].
  destruct g; cbn [deleteStorageAccount_of] in H;
    [unfold Legacy.deleteStorageAccount in H | unfold Modern.deleteStorageAccount in H];
    repeat (first [rewrite Hv in H | exec_step H; tidy_in H]);
    injection H as <- <-; (split; [reflexivity|]); tidy; rewrite <- ?app_assoc.
  1: exists x, [].
  2, 3: eexists x, [_].
  4, 5: eexists [], [_].
  all: split; [by rewrite ?app_nil_r|]; split; [done|]; split; [done|].
  all: split; [first [left; eexists; reflexivity | right; split; [done|]; by eexists]|].
  all: rewrite ?app_nil_r; each_call ltac:(by vm_compute).
Qed.

(** Teardown by the older sample, with the vault already acquired and
    one challenge to answer. *)
Lemma C9_teardown_leaves_vault_and_account_witness :
  let st := Fixtures.state_with_vault in
  let run := deleteStorageAccount_of LegacySdk Fixtures.happy Fixtures.sample_config
               0 Fixtures.sample_account st in
  let call := teardown_call LegacySdk Fixtures.sample_config Fixtures.sample_vault
                Fixtures.sample_account in
  heap (mem st) !! 0 = Some Fixtures.sample_vault
  ∧ ev_method <$> calls run.2 = ["acquireTokenWithClientCredentials"; "deleteStorageAccount"]
  ∧ mem run.2 = mem st
  ∧ ∃ tokens made,
      calls run.2 = (calls st ++ tokens ++ made)%list
      ∧ Forall (client_token_request Fixtures.sample_config) tokens
      ∧ Forall (λ ev, vault_management (ev_method ev) = false
                      ∧ storage_account_deletion (ev_method ev) = false
                      ∧ ev_pushed_vault ev = None) (tokens ++ made).
Proof.
  cbv zeta. split; [reflexivity|]. split; [vm_compute; reflexivity|].
  destruct (C9_teardown_leaves_vault_and_account LegacySdk Fixtures.happy
              Fixtures.sample_config 0 Fixtures.sample_vault Fixtures.sample_account
              Fixtures.state_with_vault eq_refl)
    as (Hm & tokens & made & Hc & Ht & _ & _ & Hall).
  split; [exact Hm|]. by exists tokens, made.
Defined.

(** * The access-policy list *)

Lemma heap_extends_refl h : heap_extends h h.
Proof. intros r v Hv. by exists v. Qed.

Lemma heap_extends_trans h1 h2 h3 :
  heap_extends h1 h2 → heap_extends h2 h3 → heap_extends h1 h3.
Proof.
  intros H12 H23 r v Hv. destruct (H12 _ _ Hv) as (v2 & Hv2 & Hp2).
  destruct (H23 _ _ Hv2) as (v3 & Hv3 & Hp3). exists v3. split; [done|].
  by etrans.
Qed.

Lemma heap_extends_new h v : heap_extends h (h ++ [v])%list.
Proof. intros r v0 Hv. exists v0. split; [by apply lookup_app_l_Some|done]. Qed.

Lemma heap_extends_push h r v entry :
  h !! r = Some v →
  heap_extends h
    (<[r := {| vault_name := vault_name v; vaultUri := vaultUri v;
               accessPolicies := (accessPolicies v ++ [entry])%list |}]> h).
Proof.
  intros Hr r' v' Hv'. destruct (decide (r' = r)) as [->|Hne].
  - rewrite Hr in Hv'. injection Hv' as <-. eexists. split.
    + apply list_lookup_insert_eq. by eapply lookup_lt_Some.
    + cbn. by apply prefix_app_r.
  - exists v'. split; [|done]. by rewrite list_lookup_insert_ne.
Qed.

(** Computations that leave the memory alone. *)
Lemma append_only_same_mem {A} (m : M A) :
  (∀ st r st', m st = (r, st') → mem st' = mem st) → append_only m.
Proof. intros Hm st r st' H. rewrite (Hm _ _ _ H). apply heap_extends_refl. Qed.

Lemma append_only_ret {A} (a : A) : append_only (ret a).
Proof. apply append_only_same_mem. intros st r st' H. by run. Qed.

Lemma append_only_throw {A} e : append_only (throw e : M A).
Proof. apply append_only_same_mem. intros st r st' H. by run. Qed.

Lemma append_only_gets {A} (f : Mem → A) : append_only (gets f).
Proof. apply append_only_same_mem. intros st r st' H. by run. Qed.

Lemma append_only_console_log line : append_only (console_log line).
Proof. apply append_only_same_mem. intros st r st' H. by run. Qed.

Lemma append_only_await w {R} (c : Call R) : append_only (await w c).
Proof. apply append_only_same_mem. intros st r st' H. by run. Qed.

Lemma append_only_asked w {R} (c : Call R) : append_only (asked w c).
Proof. apply append_only_same_mem. intros st r st' H. by run. Qed.

Lemma append_only_modify f :
  (∀ m, heap (f m) = heap m) → append_only (modify f).
Proof. intros Hf st r st' H. run. rewrite Hf. apply heap_extends_refl. Qed.

Lemma append_only_bind {A B} (m : M A) (f : A → M B) :
  append_only m → (∀ a, append_only (f a)) → append_only (m ≫= f).
Proof.
  intros Hm Hf st r st' H.
  apply bind_inv in H as [(e & H & ->) | (a & st1 & H1 & H)]; [by eapply Hm|].
  eapply heap_extends_trans; [by eapply Hm | by eapply Hf].
Qed.

Lemma append_only_try_catch {A} (m : M A) h :
  append_only m → (∀ e, append_only (h e)) → append_only (try_catch m h).
Proof.
  intros Hm Hh st r st' H.
  apply try_catch_inv in H as [(a & H & ->) | (e & st1 & H1 & H)]; [by eapply Hm|].
  eapply heap_extends_trans; [by eapply Hm | by eapply Hh].
Qed.

Lemma append_only_forEach {A} (l : list A) (f : A → M unit) :
  (∀ x, append_only (f x)) → append_only (forEach l f).
Proof.
  intros Hf. induction l as [|x l IH]; cbn; [apply append_only_ret|].
  apply append_only_bind; auto.
Qed.

Lemma append_only_new_object v : append_only (new_object v).
Proof.
  intros st r st' H. apply new_object_inv in H as [-> ->]. cbn.
  apply heap_extends_new.
Qed.

Lemma append_only_push_accessPolicy r0 entry : append_only (push_accessPolicy r0 entry).
Proof.
  intros st r st' H. apply push_accessPolicy_inv in H.
  destruct (heap (mem st) !! r0) as [v|] eqn:Hv; destruct H as [-> ->]; cbn.
  - by apply heap_extends_push.
  - apply heap_extends_refl.
Qed.

(** Walking through a computation: every node keeps or extends the heap. *)
Ltac grow_step :=
  lazymatch goal with
  | |- append_only (_ ≫= _) => apply append_only_bind; [ | intros ? ]
  | |- append_only (try_catch _ _) => apply append_only_try_catch; [ | intros ? ]
  | |- append_only (ret _) => apply append_only_ret
  | |- append_only (throw _) => apply append_only_throw
  | |- append_only (gets _) => apply append_only_gets
  | |- append_only (console_log _) => apply append_only_console_log
  | |- append_only (await _ _) => apply append_only_await
  | |- append_only (asked _ _) => apply append_only_asked
  | |- append_only (modify _) => apply append_only_modify; reflexivity
  | |- append_only (new_object _) => apply append_only_new_object
  | |- append_only (push_accessPolicy _ _) => apply append_only_push_accessPolicy
  | |- append_only (forEach _ _) => apply append_only_forEach; intros ?
  | |- append_only (deref _) => unfold deref
  | |- append_only (call_random_id _) => unfold call_random_id
  | |- append_only (call_uuidv4 _) => unfold call_uuidv4
  | |- append_only (first_role_id _) => unfold first_role_id
  | |- append_only (match ?x with _ => _ end) => destruct x
  | |- append_only ?m => let h := head_of m in unfold h
  end.

Ltac grow := cbv zeta; repeat (grow_step; cbv zeta).

Lemma append_only_main g w config : append_only (main_of g w config).
Proof. destruct g; cbn [main_of]; grow. Qed.

Lemma append_only_addStorageAccount g w config vault :
  append_only (addStorageAccount_of g w config vault).
Proof. destruct g; cbn [addStorageAccount_of]; grow. Qed.

Lemma split_on_sound P l pre ev post :
  split_on P l = Some (pre, ev, post) → l = (pre ++ ev :: post)%list ∧ P ev = true.
Proof.
  revert pre ev post. induction l as [|x l IH]; intros pre ev post H; [done|].
  cbn in H. destruct (P x) eqn:Hx.
  - by injection H as <- <- <-.
  - destruct (split_on P l) as [[[pre0 ev0] post0]|]; [|done].
    injection H as <- <- <-. destruct (IH _ _ _ eq_refl) as [-> HP]. done.
Qed.

(** After a run of [addStorageAccount] the vault object either is what it
    was, or has one more entry, and then a call has sent exactly that
    object to the service under the vault's name. *)
Ltac split_at_push :=
  lazymatch goal with
  | |- ?l = _ =>
      let s := eval cbv [split_on pushes_whole_vault ev_pushed_vault pushed_vault]
               in (split_on pushes_whole_vault l) in
      lazymatch s with
      | Some (?pre, ?ev, ?post) =>
          transitivity (pre ++ ev :: post)%list; reflexivity
      end
  end.

Ltac pushed_leaves Hv H :=
  injection H as <- <-; tidy;
  rewrite ?list_lookup_insert_eq by done;
  eexists; (split; [by eauto|]);
  first
    [ by left
    | right; rewrite <- ?app_assoc; cbn [app];
      eexists _, _, _, _; split; [reflexivity|]; split; [reflexivity|];
      split; [apply (f_equal (app _)); split_at_push|];
      split; reflexivity ].

Lemma modern_push_is_sent w config vault v0 st r st' :
  heap (mem st) !! vault = Some v0 →
  Modern.addStorageAccount w config vault st = (r, st') →
  ∃ v1, heap (mem st') !! vault = Some v1
    ∧ (v1 = v0
       ∨ ∃ entry pre ev post,
           v1 = with_policy v0 entry
           ∧ tenantId entry = cfg_tenantId config
           ∧ calls st' = (calls st ++ pre ++ ev :: post)%list
           ∧ ev_pushed_vault ev = Some (WholeVault v1)
           ∧ ev_pushed_vault_name ev = Some (vault_name v1)).
Proof.
  intros Hv H.
  assert (Hlt : vault < length (heap (mem st))) by (by eapply lookup_lt_Some).
  unfold Modern.addStorageAccount, Modern.grant_key_operator_role,
    Modern.grant_vault_access_and_register in H.
  repeat (first [ rewrite Hv in H
                | rewrite list_lookup_insert_eq in H by done
                | exec_step H; tidy_in H ]).
  all: pushed_leaves Hv H.
Qed.

Lemma legacy_push_is_sent w config vault v0 st r st' :
  heap (mem st) !! vault = Some v0 →
  Legacy.addStorageAccount w config vault st = (r, st') →
  ∃ v1, heap (mem st') !! vault = Some v1
    ∧ (v1 = v0
       ∨ ∃ entry pre ev post,
           v1 = with_policy v0 entry
           ∧ tenantId entry = cfg_tenantId config
           ∧ calls st' = (calls st ++ pre ++ ev :: post)%list
           ∧ ev_pushed_vault ev = Some (WholeVault v1)
           ∧ ev_pushed_vault_name ev = Some (vault_name v1)).
Proof.
  intros Hv H.
  assert (Hlt : vault < length (heap (mem st))) by (by eapply lookup_lt_Some).
  unfold Legacy.addStorageAccount, Legacy.grant_key_operator_role,
    Legacy.grant_vault_access_and_register, Legacy._getUserCredentials in H.
  cbv zeta in H.
  repeat (first [ rewrite Hv in H
                | rewrite list_lookup_insert_eq in H by done
                | exec_step H; tidy_in H ]).
  all: pushed_leaves Hv H.
Qed.

(** ** C8 *)

(** C8. Over a whole run of [main], every vault object in memory keeps
    the access-policy entries it had, in place, as the beginning of its
    list (nothing is removed or replaced, the list never shrinks).  In
    [addStorageAccount], the one place that changes the list, the object
    afterwards is either unchanged or has exactly one more entry at the
    end, for the configured tenant, and in that case a create-or-update
    call has been issued that carries that whole updated object under the
    vault's name. *)
Theorem C8_access_policies_only_grow g w config vault v0 st :
  heap (mem st) !! vault = Some v0 →
  heap_extends (heap (mem st)) (heap (mem (main_of g w config st).2))
  ∧ ∃ v1, heap (mem (addStorageAccount_of g w config vault st).2) !! vault = Some v1
      ∧ (v1 = v0
         ∨ ∃ entry pre ev post,
             v1 = with_policy v0 entry
             ∧ tenantId entry = cfg_tenantId config
             ∧ calls (addStorageAccount_of g w config vault st).2
               = (calls st ++ pre ++ ev :: post)%list
             ∧ ev_pushed_vault ev = Some (WholeVault v1)
             ∧ ev_pushed_vault_name ev = Some (vault_name v1)).
Proof.
  intros Hv. split.
  - destruct (main_of g w config st) as [r st'] eqn:H.
    by apply (append_only_main g w config st r st').
  - destruct (addStorageAccount_of g w config vault st) as [r st'] eqn:H.
    cbn [fst snd]. destruct g; cbn [addStorageAccount_of] in H.
    + by eapply legacy_push_is_sent.
    + by eapply modern_push_is_sent.
Qed.

(** The newer sample, started with the vault already acquired. *)
Lemma C8_access_policies_only_grow_witness :
  let st := Fixtures.state_with_vault in
  let v0 := Fixtures.sample_vault in
  let add := addStorageAccount_of ModernSdk Fixtures.happy Fixtures.sample_config 0 st in
  heap (mem st) !! 0 = Some v0
  ∧ heap_extends (heap (mem st))
      (heap (mem (main_of ModernSdk Fixtures.happy Fixtures.sample_config st).2))
  ∧ ∃ v1, heap (mem add.2) !! 0 = Some v1
      ∧ (v1 = v0
         ∨ ∃ entry pre ev post,
             v1 = with_policy v0 entry
             ∧ tenantId entry = cfg_tenantId Fixtures.sample_config
             ∧ calls add.2 = (calls st ++ pre ++ ev :: post)%list
             ∧ ev_pushed_vault ev = Some (WholeVault v1)
             ∧ ev_pushed_vault_name ev = Some (vault_name v1)).
Proof.
  cbv zeta. split; [reflexivity|].
  apply (C8_access_policies_only_grow ModernSdk Fixtures.happy Fixtures.sample_config
           0 Fixtures.sample_vault Fixtures.state_with_vault).
  reflexivity.
Defined.

(** * Start-up and exit *)

Lemma push_if_unset_elem env name envs x :
  x ∈ push_if_unset env name envs ↔ x ∈ envs ∨ (x = name ∧ truthy (env !! name) = None).
Proof.
  unfold push_if_unset. destruct (truthy (env !! name)) eqn:Ht.
  - split; [by left|]. intros [?|[_ ?]]; done.
  - rewrite elem_of_app, list_elem_of_singleton. tauto.
Qed.

(** The list built by the validation block holds exactly the required
    variables that are unset or empty. *)
Lemma unset_variables_elem env x :
  x ∈ unset_variables env
  ↔ x ∈ ["AZURE_SUBSCRIPTION_ID"; "AZURE_TENANT_ID"; "AZURE_CLIENT_ID";
         "AZURE_CLIENT_OID"; "AZURE_CLIENT_SECRET"]
    ∧ truthy (env !! x) = None.
Proof.
  unfold unset_variables. cbv zeta. rewrite !push_if_unset_elem.
  rewrite !elem_of_cons, elem_of_nil. split.
  - intros Hx. repeat (destruct Hx as [Hx|[-> ?]]); [done|tauto..].
  - intros [Hx Ht]. repeat (destruct Hx as [->|Hx]); [tauto..|done].
Qed.

(** The newer [sample_util.js] fails before anything else and names all
    the unset variables in one message. *)
Lemma modern_validation_lists_unset_variables w mode env :
  unset_variables env ≠ [] →
  let x := Modern.program w mode env in
  issued x = [] ∧ stdout x = [] ∧ exit_code x = 1
  ∧ stderr x = ["Error: please set/export the following environment variables: "
                +:+ array_toString (unset_variables env)].
Proof.
  intros Hne. cbv zeta. unfold Modern.program, Modern.load, load_sample_util, validate_env.
  cbv zeta. destruct (decide (0 < length (unset_variables env))) as [Hlen|Hlen].
  - by cbn.
  - destruct (unset_variables env); [done|]. cbn in Hlen. lia.
Qed.

(** The older one fails as early, but on the unbound [util]. *)
Lemma legacy_validation_names_no_variable w mode env :
  unset_variables env ≠ [] →
  let x := Legacy.program w mode env in
  issued x = [] ∧ stdout x = [] ∧ exit_code x = 1
  ∧ stderr x = ["ReferenceError: util is not defined"].
Proof.
  intros Hne. cbv zeta. unfold Legacy.program, Legacy.load, load_sample_util, validate_env.
  cbv zeta. destruct (decide (0 < length (unset_variables env))) as [Hlen|Hlen].
  - by cbn.
  - destruct (unset_variables env); [done|]. cbn in Hlen. lia.
Qed.

(** ** C2 *)

(** C2, at the environment that sets every required variable except
    AZURE_TENANT_ID.  Both generations stop before any call is made, with
    exit status 1.  The newer [sample_util.js] reports the missing name;
    the older one never binds [util], so building the message raises
    "ReferenceError: util is not defined" and no variable is named. *)
Theorem C2_legacy_validation_names_no_variable w mode :
  let old := Legacy.program w mode Fixtures.env_without_tenant in
  let new := Modern.program w mode Fixtures.env_without_tenant in
  unset_variables Fixtures.env_without_tenant = ["AZURE_TENANT_ID"]
  ∧ issued old = [] ∧ exit_code old = 1
  ∧ stderr old = ["ReferenceError: util is not defined"]
  ∧ issued new = [] ∧ exit_code new = 1
  ∧ stderr new
    = ["Error: please set/export the following environment variables: AZURE_TENANT_ID"].
Proof.
  assert (Hu : unset_variables Fixtures.env_without_tenant = ["AZURE_TENANT_ID"])
    by (vm_compute; reflexivity).
  assert (Hne : unset_variables Fixtures.env_without_tenant ≠ []) by (by rewrite Hu).
  destruct (legacy_validation_names_no_variable w mode _ Hne) as (? & _ & ? & ?).
  destruct (modern_validation_lists_unset_variables w mode _ Hne) as (? & _ & ? & Hmsg).
  rewrite Hu in Hmsg. cbv zeta. repeat split; done.
Qed.

(** ** C7 *)

(** The newer sample asks for no credentials and no token of its own. *)
Lemma modern_main_only_steps w config :
  keeps (λ _, True) (Forall (λ ev, authentication (ev_method ev) = false))
    (Modern.main w config).
Proof. cbv zeta. repeat (walk_step ltac:(by repeat constructor); cbv zeta). Qed.

Lemma steps_all evs :
  Forall (λ ev, authentication (ev_method ev) = false) evs → steps evs = evs.
Proof.
  unfold steps. induction 1 as [|ev evs Hev _ IH]; [done|].
  rewrite filter_cons. destruct (decide _) as [_|Hno]; [by rewrite IH | done].
Qed.

Lemma modern_not_thrown_in_callback w config m :
  thrown_in_callback (calls (Modern.main w config (initial_state m)).2) = false.
Proof.
  destruct (Modern.main w config (initial_state m)) as [r st'] eqn:H.
  destruct (modern_main_only_steps w config _ _ _ I H) as (_ & evs & Hc & Hall).
  cbn [snd]. rewrite Hc. cbn [initial_state calls app]. unfold thrown_in_callback.
  destruct (last evs) as [ev|] eqn:Hlast; [|done].
  apply last_Some in Hlast as [pre ->].
  apply Forall_app in Hall as [_ Hev]. rewrite Forall_singleton in Hev.
  rewrite bool_decide_eq_false_2; [done|].
  intros Heq. rewrite Heq in Hev. discriminate Hev.
Qed.

(** C7 fails under the runtime's [warn] mode: the configured vault does
    not exist, [main] is rejected with the service's error, and the
    process of the newer sample still exits with status 0. *)
Lemma C7_counterexample :
  let w := Fixtures.no_vault_world in
  let loaded := build_config w Fixtures.vault_env in
  load_of ModernSdk w Fixtures.vault_env = inr loaded
  ∧ (main_of ModernSdk w loaded.1 (initial_state loaded.2)).1
    = inl (Fixtures.service_error "ResourceNotFound")
  ∧ exit_code (program_of ModernSdk w ModeWarn Fixtures.vault_env) = 0.
Proof. cbv zeta. repeat split; vm_compute; reflexivity. Qed.

(** C7, amended.  An error thrown while [sample_util] loads ends the
    process with status 1 after printing the error, before any call.  A
    run of [main] that returns prints the completion message last and
    exits with status 0.  A run of [main] that is rejected never prints
    the completion message; the script attaches no rejection handler, so
    the exit status is 1 exactly under the runtime modes [throw],
    [strict] and [warn-with-error-code] and 0 under [warn] and [none],
    and the error is printed under every mode but [none].  The one run
    that ends otherwise is of the older sample: when a token request of
    its service principal's authenticator is rejected, the error is
    thrown inside the identity library's callback, and the process ends
    with status 1 and the error printed under every mode. *)
Theorem C7_exit_status g w mode env :
  let x := program_of g w mode env in
  match load_of g w env with
  | inl e =>
      exit_code x = 1 ∧ stderr x = [show_error e] ∧ stdout x = [] ∧ issued x = []
  | inr (config, m) =>
      let run := main_of g w config (initial_state m) in
      issued x = calls run.2
      ∧ match run.1 with
        | inr _ =>
            exit_code x = 0 ∧ stderr x = []
            ∧ stdout x = (console run.2 ++ ["Sample execution complete."])%list
        | inl e =>
            stdout x = console run.2
            ∧ if thrown_in_callback (calls run.2)
              then g = LegacySdk ∧ exit_code x = 1 ∧ stderr x = [show_error e]
              else exit_code x = (if fails_on_rejection mode then 1 else 0)
                   ∧ (mode ≠ ModeNone → ∃ prefix, stderr x = [prefix +:+ show_error e])
                   ∧ (mode = ModeNone → stderr x = [])
        end
  end.
Proof.
  cbv zeta. rewrite program_of_unfold. unfold node.
  destruct (load_of g w env) as [e | [config m]]; [done|].
  pose proof (modern_not_thrown_in_callback w config m) as Hmodern.
  destruct (main_of g w config (initial_state m)) as [[e|a] st'] eqn:Hrun; cbn [fst snd].
  - destruct (thrown_in_callback (calls st')) eqn:Hthrown.
    + repeat split; try done. destruct g; [done|].
      cbn [main_of] in Hrun. rewrite Hrun in Hmodern. cbn [snd] in Hmodern. congruence.
    + destruct mode; cbn; repeat split; try done; intros _;
        first [by exists EmptyString | by eexists].
  - done.
Qed.



(** * The configuration object *)

Lemma truthy_Some v s : truthy v = Some s ↔ v = Some s ∧ s ≠ EmptyString.
Proof.
  unfold truthy. destruct v as [s'|]; [|by split; [|intros []]].
  destruct (decide (s' = EmptyString)) as [->|Hne]; split.
  - done.
  - by intros [[= <-] ?].
  - by intros [= <-].
  - by intros [[= <-] _].
Qed.

Lemma unset_variables_nil env :
  unset_variables env = []
  ↔ ∀ name, name ∈ required_variables → ∃ s, provides env name s.
Proof.
  split.
  - intros Hnil name Hin.
    destruct (truthy (env !! name)) as [s|] eqn:Ht.
    + exists s. by apply truthy_Some.
    + assert (Hx : name ∈ unset_variables env) by (by apply unset_variables_elem).
      rewrite Hnil in Hx. by apply elem_of_nil in Hx.
  - intros Hall. destruct (unset_variables env) as [|x l] eqn:Hl; [done|].
    assert (Hx : x ∈ unset_variables env) by (rewrite Hl; left).
    apply unset_variables_elem in Hx as [Hin Hnone].
    destruct (Hall x Hin) as (s & Hs). apply truthy_Some in Hs. congruence.
Qed.

Lemma load_accepts g w env :
  unset_variables env = [] → load_of g w env = inr (build_config w env).
Proof.
  intros Hnil.
  destruct g; cbn [load_of]; unfold Legacy.load, Modern.load, load_sample_util, validate_env;
    cbv zeta; rewrite Hnil; done.
Qed.

Lemma load_refuses g w env :
  unset_variables env ≠ [] → ∃ e, load_of g w env = inl e.
Proof.
  intros Hne.
  assert (Hlen : 0 < length (unset_variables env))
    by (destruct (unset_variables env); [done | cbn; lia]).
  destruct g; cbn [load_of]; unfold Legacy.load, Modern.load, load_sample_util, validate_env;
    cbv zeta; rewrite decide_True by done; cbn; eauto.
Qed.

(** X1. [sample_util.js] of either generation loads if and only if each
    of the five required variables is set to a non-empty string: a
    variable set to the empty string counts as missing. *)
Theorem X1_load_needs_every_required_variable g w env :
  (∃ config m, load_of g w env = inr (config, m))
  ↔ ∀ name, name ∈ required_variables → ∃ s, provides env name s.
Proof.
  rewrite <- unset_variables_nil. split.
  - intros (config & m & Hload).
    destruct (unset_variables env) as [|x l] eqn:Hl; [done|].
    destruct (load_refuses g w env) as [e He]; [by rewrite Hl | congruence].
  - intros Hnil. rewrite (load_accepts _ _ _ Hnil).
    destruct (build_config w env) as [config m]. eauto.
Qed.

(** X2. The [config] object of a successful load: the five credentials
    are the values of their variables and none is empty; location and
    resource group are never empty; a vault name is present only as the
    non-empty value of its variable; the storage account name is "sa"
    followed by the first draw of [random_id], and nothing else has been
    drawn or cached. *)
Theorem X2_loaded_config g w env config m :
  load_of g w env = inr (config, m) →
  provides env "AZURE_SUBSCRIPTION_ID" (cfg_subscriptionId config)
  ∧ provides env "AZURE_TENANT_ID" (cfg_tenantId config)
  ∧ provides env "AZURE_CLIENT_ID" (cfg_clientId config)
  ∧ provides env "AZURE_CLIENT_OID" (cfg_objectId config)
  ∧ provides env "AZURE_CLIENT_SECRET" (cfg_secret config)
  ∧ (provides env "AZURE_LOCATION" (cfg_azureLocation config)
     ∨ truthy (env !! "AZURE_LOCATION") = None ∧ cfg_azureLocation config = "westus")
  ∧ (provides env "AZURE_RESOURCE_GROUP" (cfg_groupName config)
     ∨ truthy (env !! "AZURE_RESOURCE_GROUP") = None
       ∧ cfg_groupName config = "azure-sample-group")
  ∧ match cfg_vaultName config with
    | Some name => provides env "AZURE_SAMPLE_VAULT_NAME" name
    | None => truthy (env !! "AZURE_SAMPLE_VAULT_NAME") = None
    end
  ∧ cfg_storageAccName config = "sa" +:+ random_id w 0
  ∧ m = {| heap := []; cfg_vault := None; cfg_userId := None; draws := 1; uuids := 0 |}.
Proof.
  intros Hload.
  assert (Hall : ∀ name, name ∈ required_variables → ∃ s, provides env name s).
  { apply unset_variables_nil.
    destruct (unset_variables env) as [|x l] eqn:Hl; [done|].
    destruct (load_refuses g w env) as [e He]; [by rewrite Hl | congruence]. }
  rewrite load_accepts in Hload by (by apply unset_variables_nil).
  injection Hload as <- <-. cbn.
  assert (Hreq : ∀ name, name ∈ required_variables →
                   provides env name (default EmptyString (env !! name))).
  { intros name Hin. destruct (Hall name Hin) as (s & Hs & Hne).
    rewrite Hs. by split. }
  repeat (split; [apply Hreq; unfold required_variables; repeat constructor|]).
  assert (Hopt : ∀ name d,
            provides env name (js_or (env !! name) d)
            ∨ truthy (env !! name) = None ∧ js_or (env !! name) d = d).
  { intros name d. unfold js_or. destruct (truthy (env !! name)) as [s|] eqn:Ht.
    - left. by apply truthy_Some.
    - by right. }
  split; [apply Hopt|]. split; [apply Hopt|]. split; [|done].
  destruct (truthy (env !! "AZURE_SAMPLE_VAULT_NAME")) as [s|] eqn:Ht; [|done].
  by apply truthy_Some.
Qed.

(** The older sample with every required variable set and nothing else. *)
Lemma X2_loaded_config_witness :
  load_of LegacySdk Fixtures.happy Fixtures.full_env
  = inr (Fixtures.sample_config, Fixtures.fresh_mem)
  ∧ provides Fixtures.full_env "AZURE_TENANT_ID" (cfg_tenantId Fixtures.sample_config)
  ∧ cfg_azureLocation Fixtures.sample_config = "westus"
  ∧ cfg_vaultName Fixtures.sample_config = None.
Proof.
  assert (Hload : load_of LegacySdk Fixtures.happy Fixtures.full_env
                  = inr (Fixtures.sample_config, Fixtures.fresh_mem))
    by (vm_compute; reflexivity).
  split; [exact Hload|].
  pose proof (X2_loaded_config LegacySdk Fixtures.happy Fixtures.full_env
                Fixtures.sample_config Fixtures.fresh_mem Hload) as (_ & Ht & _).
  split; [exact Ht|]. split; vm_compute; reflexivity.
Defined.

Lemma lookup_emptied_truthy (env : Env) name x :
  truthy (<[name := EmptyString]> env !! x) = truthy (delete name env !! x).
Proof.
  destruct (decide (x = name)) as [->|Hne].
  - by rewrite lookup_insert_eq, lookup_delete_eq.
  - by rewrite lookup_insert_ne, lookup_delete_ne.
Qed.

Lemma lookup_emptied_default (env : Env) name x :
  default EmptyString (<[name := EmptyString]> env !! x)
  = default EmptyString (delete name env !! x).
Proof.
  destruct (decide (x = name)) as [->|Hne].
  - by rewrite lookup_insert_eq, lookup_delete_eq.
  - by rewrite lookup_insert_ne, lookup_delete_ne.
Qed.

(** X3. Setting a variable to the empty string is the same as not
    setting it: for every variable name, the whole process (exit status,
    output, calls) is the same with the variable empty as with the
    variable removed. *)
Theorem X3_empty_variable_is_unset g w mode env name :
  program_of g w mode (<[name := EmptyString]> env)
  = program_of g w mode (delete name env).
Proof.
  rewrite !program_of_unfold. f_equal.
  assert (Hu : unset_variables (<[name := EmptyString]> env)
               = unset_variables (delete name env)).
  { unfold unset_variables, push_if_unset. cbv zeta.
    by rewrite !lookup_emptied_truthy. }
  assert (Hb : build_config w (<[name := EmptyString]> env)
               = build_config w (delete name env)).
  { unfold build_config, js_or.
    by rewrite !lookup_emptied_truthy, !lookup_emptied_default. }
  destruct g; cbn [load_of]; unfold Legacy.load, Modern.load, load_sample_util, validate_env;
    cbv zeta; by rewrite Hu, Hb.
Qed.

(** * Listings *)

Lemma forEach_console_log {A} (line : A → string) (l : list A) : ∀ st,
  forEach l (λ x, console_log (line x)) st
  = (inr tt, {| mem := mem st; calls := calls st;
                console := (console st ++ (line <$> l))%list |}).
Proof.
  induction l as [|x l IH]; intros st.
  - cbn. unfold ret. rewrite app_nil_r. by destruct st.
  - cbn [forEach]. unfold mbind, M_bind, bind, console_log at 1.
    rewrite IH. cbn. by rewrite <- app_assoc.
Qed.

(** Stepping through a listing up to its [forEach]. *)
Ltac listing Hv H :=
  repeat (first [rewrite Hv in H | exec_step H; tidy_in H]);
  try (unfold mbind, M_bind, bind in H; rewrite forEach_console_log in H;
       unfold console_log in H; cbn in H);
  injection H as <- <-;
  repeat match goal with
         | Hr : respond _ _ _ _ = _ |- _ => tidy_in Hr
         end.

(** X4. [getStorageAccounts] of the older sample asks the vault once,
    after the token requests that the authenticator of its client makes
    for the service principal.  When the listing is accepted it prints an
    empty line, the heading, one line per account in the order of the
    answer, and an empty line (an empty listing prints just the other
    three); when it is rejected, or when a token request is rejected
    before it is asked for, nothing is printed and the run ends with the
    rejection.  The memory is not touched. *)
Theorem X4_getStorageAccounts_prints_the_listing w config vault v st :
  heap (mem st) !! vault = Some v →
  let c := GetStorageAccounts (vaultUri v) in
  ∃ tokens (authenticated : Result unit),
    Forall (client_token_request config) tokens
    ∧ ends_at_rejection tokens authenticated
    ∧ Legacy.getStorageAccounts w config vault st
      = match authenticated with
        | inl e =>
            (inl e, {| mem := mem st; calls := (calls st ++ tokens)%list;
                       console := console st |})
        | inr _ =>
            match respond w _ (calls st ++ tokens)%list c with
            | inr result =>
                (inr tt,
                 {| mem := mem st;
                    calls := (calls st ++ tokens ++ [Ev c None])%list;
                    console := (console st
                                ++ [EmptyString; "Listing storage accounts"]
                                ++ ((λ account, "Storage account: '"
                                                +:+ item_resourceId account +:+ "'")
                                    <$> result)
                                ++ [EmptyString])%list |})
            | inl e =>
                (inl e, {| mem := mem st;
                           calls := (calls st ++ tokens ++ [Ev c (Some e)])%list;
                           console := console st |})
            end
        end.
Proof.
  intros Hv c. subst c.
  destruct (Legacy.getStorageAccounts w config vault st) as [r st'] eqn:H.
  unfold Legacy.getStorageAccounts in H. listing Hv H.
  - eexists _, (inl _). split; [eassumption|]. split; [eassumption|]. reflexivity.
  - eexists _, (inr tt). split; [eassumption|]. split; [eassumption|].
    match goal with Hr : respond _ _ _ _ = _ |- _ => rewrite Hr end.
    unfold record_call. cbn. by rewrite <- !app_assoc.
  - eexists _, (inr tt). split; [eassumption|]. split; [eassumption|].
    match goal with Hr : respond _ _ _ _ = _ |- _ => rewrite Hr end.
    by rewrite <- !app_assoc.
Qed.

Lemma X4_getStorageAccounts_prints_the_listing_witness :
  let st := Fixtures.state_with_vault in
  let run := Legacy.getStorageAccounts Fixtures.happy Fixtures.sample_config 0 st in
  heap (mem st) !! 0 = Some Fixtures.sample_vault
  ∧ console run.2
    = [EmptyString; "Listing storage accounts";
       "Storage account: '/subscriptions/sub/storageAccounts/sa0'"; EmptyString]
  ∧ ev_method <$> calls run.2 = ["acquireTokenWithClientCredentials"; "getStorageAccounts"]
  ∧ ∃ tokens, Forall (client_token_request Fixtures.sample_config) tokens.
Proof.
  cbv zeta. split; [reflexivity|].
  split; [vm_compute; reflexivity|]. split; [vm_compute; reflexivity|].
  destruct (X4_getStorageAccounts_prints_the_listing Fixtures.happy Fixtures.sample_config
              0 Fixtures.sample_vault Fixtures.state_with_vault eq_refl)
    as (tokens & authenticated & Ht & _).
  by exists tokens.
Defined.

(** X5. [getSASDefinitions] of the older sample asks the vault once for
    the definitions of the account, after the token requests that the
    authenticator of its client makes for the service principal.  When
    the listing is accepted it prints an empty line, the heading, one
    line per definition in the order of the answer, and an empty line;
    when it is rejected, or when a token request is rejected before it is
    asked for, nothing is printed and the run ends with the rejection.
    The memory is not touched. *)
Theorem X5_getSASDefinitions_prints_the_listing w config sa vault v st :
  heap (mem st) !! vault = Some v →
  let c := GetSasDefinitions (vaultUri v) (sa_name sa) in
  ∃ tokens (authenticated : Result unit),
    Forall (client_token_request config) tokens
    ∧ ends_at_rejection tokens authenticated
    ∧ Legacy.getSASDefinitions w config sa vault st
      = match authenticated with
        | inl e =>
            (inl e, {| mem := mem st; calls := (calls st ++ tokens)%list;
                       console := console st |})
        | inr _ =>
            match respond w _ (calls st ++ tokens)%list c with
            | inr result =>
                (inr tt,
                 {| mem := mem st;
                    calls := (calls st ++ tokens ++ [Ev c None])%list;
                    console := (console st
                                ++ [EmptyString; "Listing SAS definitions"]
                                ++ ((λ def, "SAS def id: " +:+ sas_id def) <$> result)
                                ++ [EmptyString])%list |})
            | inl e =>
                (inl e, {| mem := mem st;
                           calls := (calls st ++ tokens ++ [Ev c (Some e)])%list;
                           console := console st |})
            end
        end.
Proof.
  intros Hv c. subst c.
  destruct (Legacy.getSASDefinitions w config sa vault st) as [r st'] eqn:H.
  unfold Legacy.getSASDefinitions in H. listing Hv H.
  - eexists _, (inl _). split; [eassumption|]. split; [eassumption|]. reflexivity.
  - eexists _, (inr tt). split; [eassumption|]. split; [eassumption|].
    match goal with Hr : respond _ _ _ _ = _ |- _ => rewrite Hr end.
    unfold record_call. cbn. by rewrite <- !app_assoc.
  - eexists _, (inr tt). split; [eassumption|]. split; [eassumption|].
    match goal with Hr : respond _ _ _ _ = _ |- _ => rewrite Hr end.
    by rewrite <- !app_assoc.
Qed.

Lemma X5_getSASDefinitions_prints_the_listing_witness :
  let st := Fixtures.state_with_vault in
  let run := Legacy.getSASDefinitions Fixtures.happy Fixtures.sample_config
               Fixtures.sample_account 0 st in
  heap (mem st) !! 0 = Some Fixtures.sample_vault
  ∧ console run.2
    = [EmptyString; "Listing SAS definitions"; "SAS def id: sas/acctall"; EmptyString]
  ∧ ev_method <$> calls run.2 = ["acquireTokenWithClientCredentials"; "getSasDefinitions"]
  ∧ ∃ tokens, Forall (client_token_request Fixtures.sample_config) tokens.
Proof.
  cbv zeta. split; [reflexivity|].
  split; [vm_compute; reflexivity|]. split; [vm_compute; reflexivity|].
  destruct (X5_getSASDefinitions_prints_the_listing Fixtures.happy Fixtures.sample_config
              Fixtures.sample_account 0 Fixtures.sample_vault Fixtures.state_with_vault
              eq_refl)
    as (tokens & authenticated & Ht & _).
  by exists tokens.
Defined.

(** * The role grant *)

(** X6. The [try]/[catch] around the role assignment issues exactly one
    call and leaves the memory alone.  The message "Granted role ..." is
    printed exactly when the call was accepted: a rejection, the swallowed
    RoleAssignmentExists included, prints nothing. *)
Theorem X6_role_grant_message g w sa name rid st :
  let c := RoleAssignmentsCreate (sa_id sa) name rid KEY_VAULT_SERVICE_ID in
  let answer := respond w unit (calls st) c in
  let run := grant_key_operator_role_of g w sa name rid st in
  calls run.2 = (calls st ++ [Ev c (rejection answer)])%list
  ∧ mem run.2 = mem st
  ∧ match answer with
    | inr _ =>
        run.1 = inr tt ∧ console run.2 = (console st ++ [GRANTED_ROLE_MESSAGE])%list
    | inl e =>
        console run.2 = console st
        ∧ run.1 = if decide (err_code e = Some "RoleAssignmentExists")
                  then inr tt else inl e
    end.
Proof.
  cbv zeta.
  destruct g; cbn [grant_key_operator_role_of];
    unfold Legacy.grant_key_operator_role, Modern.grant_key_operator_role,
      try_catch, mbind, M_bind, bind, await;
    destruct (respond w unit _ _) as [e|[]]; cbn [rejection];
    try (destruct (decide (err_code e ≠ Some "RoleAssignmentExists")) as [Hne|He];
         [rewrite decide_False by done | rewrite decide_True by (by apply dec_stable)]);
    done.
Qed.

(** * Logging the user in (older sample) *)

Lemma truthy_nonempty s : s ≠ EmptyString → truthy (Some s) = Some s.
Proof. intros Hne. unfold truthy. by rewrite decide_False. Qed.

(** X7. [_getUserCredentials] remembers a login.  With no user id
    cached, a call that returns has made exactly one call, the
    interactive login for the requested resource (the management endpoint
    by default) in the configured tenant, and has stored the user name of
    the credentials in [config._userId].  A following call, whatever
    resource and client id it is given, first asks [acquireToken] for a
    token of that user under the library's default client id; when that
    is accepted it returns credentials made from the token with no
    further call and no prompt, and when it is rejected it prints the
    error and logs in interactively again. *)
Theorem X7_login_is_remembered w config res1 cid1 res2 cid2 st creds st1 :
  truthy (cfg_userId (mem st)) = None →
  Legacy._getUserCredentials w config res1 cid1 st = (inr creds, st1) →
  cred_username creds ≠ EmptyString →
  let login resource :=
    InteractiveLogin (js_or resource "https://management.core.windows.net/")
      (cfg_tenantId config) in
  let refresh :=
    AcquireToken (js_or res2 "https://management.core.windows.net/")
      (cred_username creds) (DEFAULT_ADAL_CLIENT_ID w) in
  let again := Legacy._getUserCredentials w config res2 cid2 st1 in
  calls st1 = (calls st ++ [Ev (login res1) None])%list
  ∧ cfg_userId (mem st1) = Some (cred_username creds)
  ∧ match respond w _ (calls st1) refresh with
    | inr token =>
        again = (inr {| cred_username := tok_userId token;
                        cred_tokenAudience := tok_resource token;
                        cred_domain := cfg_tenantId config |},
                 record_call (Ev refresh None) st1)
    | inl e =>
        ∃ rejected,
          calls again.2
          = (calls st1 ++ [Ev refresh (Some e); Ev (login res2) rejected])%list
          ∧ console again.2 = (console st1 ++ [show_error e])%list
          ∧ rejected = rejection again.1
    end.
Proof.
  intros Hu H Hname. cbv zeta.
  unfold Legacy._getUserCredentials in H. cbv zeta in H.
  exec_step H. rewrite Hu in H. exec H; [discriminate H|].
  injection H as <- <-. tidy. split; [done|]. split; [done|].
  match goal with
  | |- context [Legacy._getUserCredentials w config res2 cid2 ?s] =>
      destruct (Legacy._getUserCredentials w config res2 cid2 s) as [r2 st2] eqn:H2
  end.
  unfold Legacy._getUserCredentials in H2. cbv zeta in H2.
  exec_step H2. tidy_in H2. rewrite (truthy_nonempty _ Hname) in H2.
  exec H2.
  all: repeat match goal with
         | Hr : respond _ _ _ _ = _ |- _ => tidy_in Hr; rewrite ?Hr; clear Hr
         end.
  all: injection H2 as <- <-; cbn; rewrite <- ?app_assoc; try done.
  all: eexists; rewrite <- ?app_assoc; split; [reflexivity|]; split; reflexivity.
Qed.

(** Two calls in a row in a world that accepts everything. *)
Lemma X7_login_is_remembered_witness :
  let first := Legacy._getUserCredentials Fixtures.happy Fixtures.sample_config None None
                 Fixtures.fresh_state in
  let again := Legacy._getUserCredentials Fixtures.happy Fixtures.sample_config
                 (Some "https://vault.azure.net") (Some "client") first.2 in
  first.1 = inr Fixtures.sample_credentials
  ∧ cfg_userId (mem first.2) = Some "user@example.com"
  ∧ ev_method <$> calls again.2 = ["interactiveLogin"; "acquireToken"]
  ∧ mem again.2 = mem first.2.
Proof.
  cbv zeta.
  pose proof (X7_login_is_remembered Fixtures.happy Fixtures.sample_config None None
                (Some "https://vault.azure.net") (Some "client") Fixtures.fresh_state
                Fixtures.sample_credentials _ eq_refl eq_refl) as H.
  cbv zeta in H. destruct H as (_ & Hid & Hagain); [by vm_compute|].
  split; [reflexivity|]. split; [exact Hid|].
  split; vm_compute; reflexivity.
Defined.

(** X8. The authenticator of the user client, asked once a user has
    logged in, does not prompt when the token cache answers: it asks
    [acquireToken] for a token of the cached user for the resource of the
    challenge, then [getToken] on the credentials made from that token,
    and answers the challenge with the token type, a space and the access
    token.  It prints nothing and leaves [config._userId] as it is.  When
    [getToken] is rejected the challenge is never answered: the rejection
    stays with the callback's own promise chain. *)
Theorem X8_authenticator_uses_the_cached_login w config challenge st user token :
  truthy (cfg_userId (mem st)) = Some user →
  let refresh :=
    AcquireToken (js_or (Some (ch_resource challenge)) "https://management.core.windows.net/")
      user (DEFAULT_ADAL_CLIENT_ID w) in
  respond w _ (calls st) refresh = inr token →
  let creds := {| cred_username := tok_userId token;
                  cred_tokenAudience := tok_resource token;
                  cred_domain := cfg_tenantId config |} in
  let answer := respond w _ (calls st ++ [Ev refresh None])%list (CredsGetToken creds) in
  Legacy._getKeyVaultUserClient_adalCallback w config challenge st
  = (match answer with
     | inr tokenResponse =>
         inr (tok_tokenType tokenResponse +:+ " " +:+ tok_accessToken tokenResponse)
     | inl e => inl e
     end,
     {| mem := mem st;
        calls := (calls st ++ [Ev refresh None; Ev (CredsGetToken creds) (rejection answer)])%list;
        console := console st |}).
Proof.
  cbv zeta. intros Hu Hr.
  destruct (Legacy._getKeyVaultUserClient_adalCallback w config challenge st)
    as [r st'] eqn:H.
  unfold Legacy._getKeyVaultUserClient_adalCallback, Legacy._getUserCredentials,
    Legacy._tokenFromUserCredentials in H.
  cbv zeta in H. do 2 exec_step H. rewrite Hu in H.
  exec H.
  all: repeat match goal with
         | Ha : respond _ _ _ _ = _ |- _ => progress tidy_in Ha
         end.
  all: try congruence.
  all: match goal with
       | Ha : respond _ AdalToken _ _ = inr _ |- _ =>
           rewrite Hr in Ha; injection Ha as <-
       end.
  all: match goal with
       | Ha : respond _ UserToken _ _ = _ |- _ => rewrite Ha
       end.
  all: injection H as <- <-; unfold record_call; cbn; by rewrite <- ?app_assoc.
Qed.

(** The logged-in user of the sample, and a challenge for the vault. *)
Lemma X8_authenticator_uses_the_cached_login_witness :
  let st := {| mem := with_cfg_userId (Some "user@example.com") Fixtures.fresh_mem;
               calls := []; console := [] |} in
  let challenge := {| ch_authorization := "https://login.windows.net/tenant";
                      ch_resource := "https://vault.azure.net" |} in
  let run := Legacy._getKeyVaultUserClient_adalCallback Fixtures.happy
               Fixtures.sample_config challenge st in
  run.1 = inr "Bearer user-jwt"
  ∧ ev_method <$> calls run.2 = ["acquireToken"; "getToken"].
Proof.
  cbv zeta.
  rewrite (X8_authenticator_uses_the_cached_login Fixtures.happy Fixtures.sample_config
             {| ch_authorization := "https://login.windows.net/tenant";
                ch_resource := "https://vault.azure.net" |}
             {| mem := with_cfg_userId (Some "user@example.com") Fixtures.fresh_mem;
                calls := []; console := [] |}
             "user@example.com"
             {| tok_resource := "https://vault.azure.net";
                tok_userId := "user@example.com" |} eq_refl eq_refl).
  split; vm_compute; reflexivity.
Defined.

(** * Edge cases of [addStorageAccount] *)

(** Is in a list that is written out. *)
Ltac listed := repeat first [apply list_elem_of_here | apply list_elem_of_further].

(** An event of a written-out log for which [tac] proves the rest. *)
Ltac some_event tac :=
  lazymatch goal with
  | |- ∃ ev, ev ∈ ?l ∧ _ =>
      let rec go l' :=
        lazymatch l' with
        | ?x :: ?r => first [ exists x; split; [listed | tac] | go r ]
        end in
      go l
  end.

(** Taking a [Forall] over a log that is written out apart. *)
Ltac each_event H :=
  repeat match type of H with
         | Forall _ (_ :: _) => apply Forall_cons in H as [? H]
         end;
  cbn in *.

(** X9. When the list of role definitions comes back empty,
    [addStorageAccount] of either generation cannot return: [roleList[0]]
    is [undefined] and reading its [id] throws a TypeError.  No role
    assignment is attempted, no vault definition is sent and the vault
    objects in memory are as before; the storage account has been
    created by then and stays. *)
Theorem X9_no_role_definition g w config vault st :
  (∀ hist, respond w _ hist (RoleDefinitionsList "/" KEY_OPERATOR_ROLE_FILTER) = inr []) →
  let run := addStorageAccount_of g w config vault st in
  ∃ e evs,
    run.1 = inl e
    ∧ calls run.2 = (calls st ++ evs)%list
    ∧ heap (mem run.2) = heap (mem st)
    ∧ Forall (λ ev, is_role_assignment ev = false ∧ ev_pushed_vault ev = None) evs
    ∧ (Forall (λ ev, ev_error ev = None) evs →
       e = undefined_property "id"
       ∧ ∃ ev, ev ∈ evs ∧ storage_account_creation (ev_method ev) = true).
Proof.
  intros Hroles. cbv zeta.
  destruct (addStorageAccount_of g w config vault st) as [r st'] eqn:H. cbn [fst snd].
  destruct g; cbn [addStorageAccount_of] in H;
    [ unfold Legacy.addStorageAccount, Legacy._getUserCredentials in H
    | unfold Modern.addStorageAccount in H ];
    cbv zeta in H.
  all: repeat (first [ rewrite Hroles in H | exec_step H ]).
  all: try match goal with
         | Ha : respond _ _ _ (RoleDefinitionsList _ _) = _ |- _ =>
             rewrite Hroles in Ha; try discriminate Ha
         end.
  all: injection H as <- <-; tidy; rewrite <- ?app_assoc; cbn [app].
  all: eexists _, _; split; [reflexivity|]; split; [reflexivity|]; split; [reflexivity|].
  all: split; [repeat constructor|].
  all: intros Hall; each_event Hall; try discriminate.
  all: split; [reflexivity|].
  all: some_event ltac:(reflexivity).
Qed.

(** The newer sample in a subscription without the role. *)
Lemma X9_no_role_definition_witness :
  let run := addStorageAccount_of ModernSdk Scenarios.no_role_world Fixtures.sample_config 0
               Fixtures.state_with_vault in
  (∀ hist, respond Scenarios.no_role_world _ hist
             (RoleDefinitionsList "/" KEY_OPERATOR_ROLE_FILTER) = inr [])
  ∧ run.1 = inl (undefined_property "id")
  ∧ ev_method <$> calls run.2 = ["storageAccounts.beginCreateAndWait"; "roleDefinitions.list"]
  ∧ ∃ e evs, run.1 = inl e ∧ calls run.2 = (calls Fixtures.state_with_vault ++ evs)%list.
Proof.
  cbv zeta. split; [reflexivity|]. split; [vm_compute; reflexivity|].
  split; [vm_compute; reflexivity|].
  destruct (X9_no_role_definition ModernSdk Scenarios.no_role_world Fixtures.sample_config 0
              Fixtures.state_with_vault (λ _, eq_refl)) as (e & evs & He & Hc & _).
  by exists e, evs.
Defined.

(** X10. When the created storage account carries no managed identity,
    [addStorageAccount] of the newer sample cannot return, and once the
    role assignment has completed it ends with the TypeError of reading
    [storageAccount.identity.principalId].  The vault is never reached:
    no access-policy entry is added, no vault definition is sent, no key
    is created and the account is not updated, while the account and the
    role assignment made by then stay. *)
Theorem X10_account_without_identity w config vault st :
  (∀ hist group name p sa,
     respond w _ hist (StorageAccountsBeginCreateAndWait group name p) = inr sa →
     sa_identity sa = None) →
  let run := Modern.addStorageAccount w config vault st in
  ∃ e evs,
    run.1 = inl e
    ∧ calls run.2 = (calls st ++ evs)%list
    ∧ heap (mem run.2) = heap (mem st)
    ∧ Forall (λ ev, ev_pushed_vault ev = None ∧ key_management (ev_method ev) = false) evs
    ∧ ((∃ ev, ev ∈ evs ∧ is_role_assignment ev = true ∧ completed ev = true) →
       e = undefined_property "principalId").
Proof.
  intros Hnone. cbv zeta.
  destruct (Modern.addStorageAccount w config vault st) as [r st'] eqn:H. cbn [fst snd].
  unfold Modern.addStorageAccount, Modern.grant_key_operator_role,
    Modern.grant_vault_access_and_register in H.
  cbv zeta in H.
  do 2 exec_step H.
  2: match goal with
     | Ha : respond _ _ _ (StorageAccountsBeginCreateAndWait _ _ _) = inr ?sa |- _ =>
         pose proof (Hnone _ _ _ _ _ Ha) as Hid
     end.
  all: repeat (first [ rewrite Hid in H | exec_step H ]).
  all: injection H as <- <-; tidy; rewrite <- ?app_assoc; cbn [app].
  all: eexists _, _; split; [reflexivity|]; split; [reflexivity|]; split; [reflexivity|].
  all: split; [repeat constructor|].
  all: intros (ev & Hin & Hra & Hc).
  all: repeat (apply elem_of_cons in Hin as [->|Hin]); try (by apply elem_of_nil in Hin).
  all: try discriminate Hra; try reflexivity.
  all: unfold completed, conflict_swallowed in Hc; cbn in Hc.
  all: by apply bool_decide_eq_true in Hc as [_ Hc].
Qed.

(** The vault is there, but accounts come without identity. *)
Lemma X10_account_without_identity_witness :
  let run := Modern.addStorageAccount Scenarios.no_identity_world Fixtures.sample_config 0
               Fixtures.state_with_vault in
  run.1 = inl (undefined_property "principalId")
  ∧ ev_method <$> calls run.2
    = ["storageAccounts.beginCreateAndWait"; "roleDefinitions.list"; "roleAssignments.create"]
  ∧ heap (mem run.2) = [Fixtures.sample_vault]
  ∧ ∃ e evs, run.1 = inl e ∧ calls run.2 = (calls Fixtures.state_with_vault ++ evs)%list.
Proof.
  cbv zeta. split; [vm_compute; reflexivity|]. split; [vm_compute; reflexivity|].
  split; [vm_compute; reflexivity|].
  destruct (X10_account_without_identity Scenarios.no_identity_world
              Fixtures.sample_config 0 Fixtures.state_with_vault) as (e & evs & He & Hc & _).
  - intros hist group name p sa [= <-]. reflexivity.
  - by exists e, evs.
Defined.

(** X11. The role assignment of [addStorageAccount] (either generation):
    at most one is requested, exactly one when the function returns.  It
    is scoped to the id of a storage account that the creation call has
    returned (the account the function returns, when it returns), named
    by the next unused draw of [uuidv4], for the id of the first role
    definition listed, and its principal is the fixed id of the Key Vault
    service. *)
Theorem X11_role_assignment_arguments g w config vault st :
  let run := addStorageAccount_of g w config vault st in
  ∃ evs,
    calls run.2 = (calls st ++ evs)%list
    ∧ (length (role_assignments evs) ≤ 1)%nat
    ∧ (∀ sa, run.1 = inr sa → length (role_assignments evs) = 1)
    ∧ ∀ scope name roleDefinitionId principalId,
        (scope, name, roleDefinitionId, principalId) ∈ role_assignments evs →
        principalId = KEY_VAULT_SERVICE_ID
        ∧ name = uuidv4 w (uuids (mem st))
        ∧ uuids (mem run.2) = S (uuids (mem st))
        ∧ (∃ hist c created,
             respond w StorageAccount hist c = inr created
             ∧ storage_account_creation (method c) = true
             ∧ scope = sa_id created
             ∧ ∀ sa, run.1 = inr sa → sa = created)
        ∧ (∃ hist role others,
             respond w _ hist (RoleDefinitionsList "/" KEY_OPERATOR_ROLE_FILTER)
             = inr (role :: others)
             ∧ roleDefinitionId = role_id role).
Proof.
  cbv zeta.
  destruct (addStorageAccount_of g w config vault st) as [r st'] eqn:H. cbn [fst snd].
  destruct g; cbn [addStorageAccount_of] in H;
    [ unfold Legacy.addStorageAccount, Legacy._getUserCredentials,
        Legacy.grant_key_operator_role, Legacy.grant_vault_access_and_register in H
    | unfold Modern.addStorageAccount,
        Modern.grant_key_operator_role, Modern.grant_vault_access_and_register in H ];
    cbv zeta in H.
  all: repeat (tidy_in H; exec_step H).
  all: injection H as <- <-; tidy; rewrite <- ?app_assoc; cbn [app].
  all: without_tokens role_assignment_of.
  all: eexists; split; [reflexivity|]; unfold role_assignments; cbn;
    repeat match goal with Hno : omap _ _ = [] |- _ => rewrite ?omap_app, Hno; clear Hno end;
    cbn; split; [lia|]; split; [by intros ? [=]|].
  all: intros scope name rid principal Hin.
  all: try (by apply elem_of_nil in Hin).
  all: apply list_elem_of_singleton in Hin; injection Hin as -> -> -> ->.
  all: subst.
  all: split; [reflexivity|]; split; [reflexivity|]; split; [reflexivity|].
  all: split; [ eexists _, _, _; split; [eassumption|]; split; [reflexivity|];
                split; [reflexivity|]; by intros ? [=]
              | eexists _, _, _; split; [eassumption|reflexivity] ].
Qed.

(** * SAS definitions (older sample) *)

(** The token requests of an authenticator write nothing. *)
Ltac not_a_token Hin :=
  lazymatch goal with
  | Ht : Forall (client_token_request _) ?t, Hin : _ ∈ ?t |- _ =>
      rewrite Forall_forall in Ht; specialize (Ht _ Hin);
      lazymatch type of Hin with
      | ?ev ∈ _ => destruct ev as [? [] ?]; by try destruct Ht
      end
  end.

(** Where the writes of one of the two functions go. *)
Ltac writes_of Hv H :=
  repeat (first [ rewrite Hv in H | exec_step H; tidy_in H ]);
  injection H as <- <-; tidy; rewrite <- ?app_assoc; cbn [app];
  eexists; (split; [reflexivity|]); (split; [reflexivity|]);
  (split; [each_call ltac:(discriminate)|]);
  intros ev svc Hin Hsvc; one_call Hin;
  try discriminate Hsvc; try not_a_token Hin;
  injection Hsvc as <-; (split; [reflexivity|]);
  match goal with
  | Hd : respond _ _ _ (SetSasDefinition _ _ _ _ _ _ _) = inr ?d,
    Hp : parseSecretIdentifier _ (sas_secretId ?d) = inr ?s,
    Hs : respond _ _ _ (GetSecret (sid_vault ?s) (sid_name ?s) _) = inr ?x
    |- _ =>
      eexists _, _, _, _, _, _, _, _;
      exact (conj Hd (conj Hp (conj Hs eq_refl)))
  end.

Lemma sas_definition_writes w config sa vault v st (account : bool) :
  heap (mem st) !! vault = Some v →
  let run := (if account then Legacy.createAccountSASDefinition w config sa vault
              else Legacy.createBlobSASDefinition w config sa vault) st in
  ∃ evs,
    calls run.2 = (calls st ++ evs)%list
    ∧ mem run.2 = mem st
    ∧ Forall (λ ev, account = false → ev_method ev ≠ "createContainerIfNotExists") evs
    ∧ ∀ ev svc, ev ∈ evs → write_service ev = Some svc →
        bs_host svc = sa_name sa +:+ "." +:+ CLOUD_BLOB_HOST w
        ∧ ∃ hist1 hist2 defName template sasType sasDef secretId secret,
            respond w _ hist1
              (SetSasDefinition (vaultUri v) (sa_name sa) defName template sasType
                 "PT2H" true) = inr sasDef
            ∧ parseSecretIdentifier w (sas_secretId sasDef) = inr secretId
            ∧ respond w _ hist2
                (GetSecret (sid_vault secretId) (sid_name secretId) EmptyString)
              = inr secret
            ∧ bs_sas svc = secret_value secret.
Proof.
  intros Hv. cbv zeta. destruct account.
  - destruct (Legacy.createAccountSASDefinition w config sa vault st) as [r st'] eqn:H.
    cbn [fst snd].
    unfold Legacy.createAccountSASDefinition, Legacy.blob_service_with_sas,
      Legacy.parse_secret_id in H.
    cbv zeta in H. writes_of Hv H.
  - destruct (Legacy.createBlobSASDefinition w config sa vault st) as [r st'] eqn:H.
    cbn [fst snd].
    unfold Legacy.createBlobSASDefinition, Legacy.blob_service_with_sas,
      Legacy.parse_secret_id in H.
    cbv zeta in H. writes_of Hv H.
Qed.

(** X12. In [createAccountSASDefinition] and [createBlobSASDefinition]
    every data-plane write goes to the blob host of the account
    ([name.CLOUD_BLOB_HOST]) and carries, as its SAS token, the value of
    a secret that [getSecret] has returned for the vault and the name
    parsed from the [secretId] of the definition just set, asked without
    a version.  Neither function touches the memory, and only the account
    variant creates the container. *)
Theorem X12_writes_use_the_managed_secret w config sa vault v st :
  heap (mem st) !! vault = Some v →
  let account := Legacy.createAccountSASDefinition w config sa vault st in
  let blob := Legacy.createBlobSASDefinition w config sa vault st in
  ∃ evs_account evs_blob,
    calls account.2 = (calls st ++ evs_account)%list
    ∧ calls blob.2 = (calls st ++ evs_blob)%list
    ∧ mem account.2 = mem st
    ∧ mem blob.2 = mem st
    ∧ Forall (λ ev, ev_method ev ≠ "createContainerIfNotExists") evs_blob
    ∧ ∀ ev svc, ev ∈ (evs_account ++ evs_blob)%list → write_service ev = Some svc →
        bs_host svc = sa_name sa +:+ "." +:+ CLOUD_BLOB_HOST w
        ∧ ∃ hist1 hist2 defName template sasType sasDef secretId secret,
            respond w _ hist1
              (SetSasDefinition (vaultUri v) (sa_name sa) defName template sasType
                 "PT2H" true) = inr sasDef
            ∧ parseSecretIdentifier w (sas_secretId sasDef) = inr secretId
            ∧ respond w _ hist2
                (GetSecret (sid_vault secretId) (sid_name secretId) EmptyString)
              = inr secret
            ∧ bs_sas svc = secret_value secret.
Proof.
  intros Hv. cbv zeta.
  destruct (sas_definition_writes w config sa vault v st true Hv)
    as (evs1 & Hc1 & Hm1 & _ & Hw1).
  destruct (sas_definition_writes w config sa vault v st false Hv)
    as (evs2 & Hc2 & Hm2 & Hno & Hw2).
  exists evs1, evs2. repeat (split; [done|]). split.
  - eapply Forall_impl; [exact Hno|]. intros ev Hev. by apply Hev.
  - intros ev svc Hin Hsvc. apply elem_of_app in Hin as [Hin|Hin]; eauto.
Qed.

(** The two definitions on the acquired vault, every call accepted. *)
Lemma X12_writes_use_the_managed_secret_witness :
  let st := Fixtures.state_with_vault in
  let blob := Legacy.createBlobSASDefinition Fixtures.happy Fixtures.sample_config
                Fixtures.sample_account 0 st in
  heap (mem st) !! 0 = Some Fixtures.sample_vault
  ∧ omap write_service (calls blob.2)
    = [{| bs_host := "sa0.blob.core.windows.net"; bs_sas := "sv=token" |}]
  ∧ ∃ evs_blob, calls blob.2 = (calls st ++ evs_blob)%list
                ∧ Forall (λ ev, ev_method ev ≠ "createContainerIfNotExists") evs_blob.
Proof.
  cbv zeta. split; [reflexivity|]. split; [vm_compute; reflexivity|].
  destruct (X12_writes_use_the_managed_secret Fixtures.happy Fixtures.sample_config
              Fixtures.sample_account 0 Fixtures.sample_vault Fixtures.state_with_vault
              eq_refl)
    as (evs_account & evs_blob & _ & Hb & _ & _ & Hno & _).
  by exists evs_blob.
Defined.

(** Stepping through one of the two functions when the parser fails. *)
Ltac unparsable Hv Hparse H :=
  repeat (first [ rewrite Hv in H | rewrite Hparse in H | exec_step H; tidy_in H ]);
  injection H as <- <-; tidy;
  eexists; (split; [eassumption|]); (split; [reflexivity|]); (split; [reflexivity|]);
  first [ left; split; [reflexivity|]; eexists; split; [reflexivity|assumption]
        | right; eexists; split; [cbn; by rewrite <- app_assoc|]; by split ].

(** X13. When the [secretId] of a SAS definition cannot be parsed,
    [createAccountSASDefinition] and [createBlobSASDefinition] stop right
    after setting the definition: apart from the token requests that the
    authenticator of their client makes before it, that is their only
    call, no secret is read and nothing is written, and when the
    definition was accepted the parser's error is the outcome.  (When a
    token request is rejected the definition is not set and the run ends
    with that rejection.)  The definition stays set; memory and console
    are as before. *)
Theorem X13_unparsable_secret_id w config sa vault v st e :
  heap (mem st) !! vault = Some v →
  (∀ id, parseSecretIdentifier w id = inl e) →
  Forall (λ step : M unit,
    ∃ tokens,
      Forall (client_token_request config) tokens
      ∧ mem (step st).2 = mem st
      ∧ console (step st).2 = console st
      ∧ (calls (step st).2 = (calls st ++ tokens)%list
         ∧ (∃ e', (step st).1 = inl e' ∧ ends_at_rejection tokens (inl e' : Result unit))
         ∨ ∃ ev, calls (step st).2 = (calls st ++ tokens ++ [ev])%list
                 ∧ ev_method ev = "setSasDefinition"
                 ∧ (step st).1 = inl (default e (ev_error ev))))
    [Legacy.createAccountSASDefinition w config sa vault;
     Legacy.createBlobSASDefinition w config sa vault].
Proof.
  intros Hv Hparse.
  constructor; [|constructor; [|constructor]].
  - destruct (Legacy.createAccountSASDefinition w config sa vault st) as [r st'] eqn:H.
    unfold Legacy.createAccountSASDefinition, Legacy.parse_secret_id in H. cbv zeta in H.
    unparsable Hv Hparse H.
  - destruct (Legacy.createBlobSASDefinition w config sa vault st) as [r st'] eqn:H.
    unfold Legacy.createBlobSASDefinition, Legacy.parse_secret_id in H. cbv zeta in H.
    unparsable Hv Hparse H.
Qed.

Lemma X13_unparsable_secret_id_witness :
  let st := Fixtures.state_with_vault in
  let run := Legacy.createAccountSASDefinition Scenarios.unparsable_world
               Fixtures.sample_config Fixtures.sample_account 0 st in
  heap (mem st) !! 0 = Some Fixtures.sample_vault
  ∧ (∀ id, parseSecretIdentifier Scenarios.unparsable_world id
           = inl Scenarios.malformed_id)
  ∧ run.1 = inl Scenarios.malformed_id
  ∧ ev_method <$> calls run.2 = ["acquireTokenWithClientCredentials"; "setSasDefinition"]
  ∧ ∃ tokens, Forall (client_token_request Fixtures.sample_config) tokens
              ∧ mem run.2 = mem st ∧ console run.2 = console st.
Proof.
  cbv zeta. split; [reflexivity|]. split; [reflexivity|].
  split; [vm_compute; reflexivity|]. split; [vm_compute; reflexivity|].
  pose proof (X13_unparsable_secret_id Scenarios.unparsable_world Fixtures.sample_config
                Fixtures.sample_account 0 Fixtures.sample_vault Fixtures.state_with_vault
                Scenarios.malformed_id eq_refl (λ _, eq_refl)) as H.
  apply Forall_cons in H as [(tokens & Ht & Hm & Ho & _) _].
  by exists tokens.
Defined.

(** * The account SAS of the newer sample *)

(** X14. [createAccountSASDefinition] of the newer sample prints its
    messages ahead of the operations they speak of: it makes at most the
    three calls [listAccountSAS], container [create] and blob [upload],
    stopping at the first rejection, and the console gets one message per
    accepted call.  So "Created sample container ..." is printed as soon
    as the SAS token is issued, also when the creation of the container is
    then rejected, and likewise "Created sample blob ..." before the
    upload.  The memory is not touched. *)
Theorem X14_messages_run_ahead w config sa st :
  let run := Modern.createAccountSASDefinition w config sa st in
  ∃ evs,
    calls run.2 = (calls st ++ evs)%list
    ∧ mem run.2 = mem st
    ∧ (ev_method <$> evs)
      `prefix_of` ["storageAccounts.listAccountSAS"; "containerClient.create";
                   "blockBlobClient.upload"]
    ∧ console run.2
      = (console st
         ++ take (length (filter (λ ev, accepted ev = true) evs))
              ["Created sample container using account SAS definition.";
               "Created sample blob using account SAS definition.";
               "Upload block blob blob1 successfully"])%list
    ∧ (∀ e, ev_error <$> evs = [None; Some e] →
         run.1 = inl e
         ∧ console run.2
           = (console st
              ++ ["Created sample container using account SAS definition."])%list).
Proof.
  cbv zeta.
  destruct (Modern.createAccountSASDefinition w config sa st) as [r st'] eqn:H.
  cbn [fst snd].
  unfold Modern.createAccountSASDefinition in H. cbv zeta in H.
  exec H.
  all: injection H as <- <-; tidy; rewrite <- ?app_assoc; cbn [app].
  all: eexists; split; [reflexivity|]; split; [reflexivity|].
  all: split; [by eexists|].
  all: split; [cbn; by rewrite ?app_nil_r|].
  all: intros e [=]; by subst.
Qed.

(** X15. In [createAccountSASDefinition] of the newer sample the
    container and the blob are written through one service URL, made of
    the account's name and of the SAS token that [listAccountSAS] has
    just returned for that account in the configured group:
    [https://name.blob.core.windows.net?token].  The token is asked for
    with the permissions "acdlpruw" on all services and resource types,
    signed with key1. *)
Theorem X15_writes_use_the_issued_token w config sa st :
  let run := Modern.createAccountSASDefinition w config sa st in
  ∃ evs,
    calls run.2 = (calls st ++ evs)%list
    ∧ ∀ ev url, ev ∈ evs → write_url ev = Some url →
        ∃ hist policy sasToken,
          respond w _ hist
            (StorageAccountsListAccountSAS (cfg_groupName config) (sa_name sa) policy)
          = inr sasToken
          ∧ asp_permissions policy = "acdlpruw"
          ∧ asp_services policy = "bfqt"
          ∧ asp_resourceTypes policy = "sco"
          ∧ asp_keyToSign policy = "key1"
          ∧ url = "https://" +:+ sa_name sa +:+ ".blob.core.windows.net?"
                  +:+ accountSasToken sasToken.
Proof.
  cbv zeta.
  destruct (Modern.createAccountSASDefinition w config sa st) as [r st'] eqn:H.
  cbn [fst snd].
  unfold Modern.createAccountSASDefinition in H. cbv zeta in H.
  repeat (tidy_in H; exec_step H).
  all: injection H as <- <-; new_calls.
  all: intros ev url Hin Hurl.
  all: repeat (apply elem_of_cons in Hin as [->|Hin]); try (by apply elem_of_nil in Hin).
  all: try discriminate Hurl.
  all: injection Hurl as <-.
  all: eexists _, _, _; split; [eassumption|]; by repeat split.
Qed.

(** * Invariants of whole runs *)




Lemma load_of_inr g w env cm : load_of g w env = inr cm → cm = build_config w env.
Proof.
  destruct g; cbn [load_of]; unfold Legacy.load, Modern.load, load_sample_util;
    destruct (validate_env _ env); congruence.
Qed.

Lemma issued_of_run g w mode env :
  issued (program_of g w mode env)
  = match load_of g w env with
    | inl _ => []
    | inr (config, m) => calls (main_of g w config (initial_state m)).2
    end.
Proof.
  rewrite program_of_unfold. unfold node.
  destruct (load_of g w env) as [e | [config m]]; [done|].
  destruct (main_of g w config (initial_state m)) as [[e|a] st']; [|done].
  by destruct (thrown_in_callback _), mode.
Qed.


(** ** One vault per run *)

Lemma vault_at_lookup vault uri m v :
  vault_at vault uri m → heap m !! vault = Some v → vaultUri v = uri.
Proof. intros (v' & Hv' & Hu) Hv. congruence. Qed.

Lemma keeps_push_accessPolicy vault uri T `{!TraceClosed T} r0 entry :
  keeps (vault_at vault uri) T (push_accessPolicy r0 entry).
Proof.
  apply keeps_quiet; [done|]. intros st r st' (v & Hv & Hu) H.
  apply push_accessPolicy_inv in H.
  destruct (heap (mem st) !! r0) as [v0|] eqn:Hv0; destruct H as [-> ->]; cbn.
  - split; [|done]. unfold vault_at. cbn.
    destruct (decide (vault = r0)) as [->|Hne].
    + eexists. split; [apply list_lookup_insert_eq; by eapply lookup_lt_Some|].
      cbn. congruence.
    + exists v. by rewrite list_lookup_insert_ne.
  - split; [by exists v | done].
Qed.

(** Walking through a computation that works on the vault at [uri]. *)
Ltac vault_step :=
  lazymatch goal with
  | |- keeps _ _ (deref _ ≫= _) =>
      let HI := fresh "HI" in
      let Hv := fresh "Hv" in
      rule keeps_deref_bind; intros ? ? HI Hv;
      pose proof (vault_at_lookup _ _ _ _ HI Hv); clear HI Hv
  | |- keeps _ _ (push_accessPolicy _ _ ≫= _) =>
      rule keeps_bind; [ apply keeps_push_accessPolicy; apply _ | intros ? ]
  | |- keeps _ _ (_ ≫= _) => rule keeps_bind; [ | intros ? ]
  | |- keeps _ _ (try_catch _ _) => rule keeps_try_catch; [ | intros ? ]
  | |- keeps _ _ (ret _) => rule keeps_ret
  | |- keeps _ _ (throw _) => rule keeps_throw
  | |- keeps _ _ (gets _) => rule keeps_gets
  | |- keeps _ _ (console_log _) => rule keeps_console_log
  | |- keeps _ _ (asked _ _) => rule keeps_asked
  | |- keeps _ _ (modify _) => rule keeps_modify; intros ? HI; exact HI
  | |- keeps _ _ (await _ _) =>
      rule keeps_await; intros ?; constructor; [|constructor];
      intros ? Hu; cbn in Hu; congruence
  | |- keeps _ _ (forEach _ _) => rule keeps_forEach; intros ?
  | |- keeps _ _ (match ?x with _ => _ end) => destruct x
  | |- keeps _ _ ?m => let h := head_of m in unfold h
  end.

Ltac vault_steps := cbv zeta; repeat (vault_step; cbv zeta).

Lemma main_unfold g w config :
  main_of g w config
  = (console_log "Azure Key Vault - Managed Storage Account Key Sample";;
     vault ← getSampleVault_of g w config;
     after_acquisition g w config vault).
Proof. by destruct g. Qed.

Lemma after_acquisition_one_vault g w config vault uri :
  keeps (vault_at vault uri) (Forall (addressed_to uri)) (after_acquisition g w config vault).
Proof.
  destruct g; unfold after_acquisition;
    cbn [addStorageAccount_of after_addStorageAccount]; vault_steps.
Qed.

(** X17. One vault per run.  In the whole process of either generation
    all the calls that are addressed to a vault by its URI, or that carry
    one in a vault definition or in an encryption setting, name the same
    URI: that of the vault object which the lookup, or the creation of
    the new vault, has returned at the start.  What the service answers
    when the whole vault definition is sent later is not used. *)
Theorem X17_one_vault_per_run g w mode env :
  let log := issued (program_of g w mode env) in
  ∃ uri,
    Forall (addressed_to uri) log
    ∧ (Forall (λ ev, ev_vaultUri ev = None) log
       ∨ ∃ hist (c : Call Vault) v,
           respond w Vault hist c = inr v
           ∧ vault_acquisition (method c) = true
           ∧ pushes_whole_vault (Ev c None) = false
           ∧ uri = vaultUri v).
Proof.
  cbv zeta. rewrite issued_of_run.
  destruct (load_of g w env) as [e | [config m]] eqn:Hload.
  { exists EmptyString. split; [constructor | left; constructor]. }
  pose proof (load_at_start _ _ _ _ _ Hload) as [Hstart _].
  destruct (main_of g w config (initial_state m)) as [r st'] eqn:H. cbn [snd].
  rewrite main_unfold in H. exec_step H.
  apply bind_inv in H as [(e1 & H1 & ->) | (vault & st1 & H1 & H)];
    (eapply getSampleVault_object in H1 as (evs1 & Hc1 & Hno & Hobj); [|exact Hstart]).
  - exists EmptyString. rewrite Hc1. cbn.
    split; [|by left]. eapply Forall_impl; [exact Hno|].
    intros ev Hev u. by rewrite Hev.
  - destruct (Hobj vault eq_refl) as (hist & c & v & Hr & Hk & Hnew & Hv).
    destruct (after_acquisition_one_vault g w config vault (vaultUri v) st1 r st')
      as (_ & evs2 & Hc2 & Hall); [by exists v | done |].
    exists (vaultUri v). rewrite Hc2, Hc1. cbn. split; [|right; by exists hist, c, v].
    apply Forall_app. split; [|done].
    eapply Forall_impl; [exact Hno|]. intros ev Hev u. by rewrite Hev.
Qed.

(** ** A key is made before an account is bound to it (newer sample) *)

Lemma keys_made_first_any prev evs :
  keys_made_first None evs → keys_made_first prev evs.
Proof.
  destruct evs as [|ev rest]; [done|]. cbn. intros [Hev Hrest]. split; [|done].
  intros key Hkey. by destruct (Hev key Hkey) as (c & [=] & _).
Qed.

Lemma keys_made_first_app prev a b :
  keys_made_first prev a → keys_made_first None b → keys_made_first prev (a ++ b)%list.
Proof.
  revert prev. induction a as [|ev a IH]; intros prev Ha Hb; cbn.
  - by apply keys_made_first_any.
  - destruct Ha as [Hev Ha]. split; [done|]. by apply IH.
Qed.

#[global] Instance keys_made_first_closed : TraceClosed (keys_made_first None).
Proof. split; [done | intros a b; apply keys_made_first_app]. Qed.

Lemma keys_made_first_unbound prev evs :
  Forall (λ ev, bound_key ev = None) evs → keys_made_first prev evs.
Proof.
  intros Hall. revert prev. induction Hall as [|ev evs Hev _ IH]; intros prev; [done|].
  cbn. split; [|apply IH]. intros key Hkey. congruence.
Qed.

(** Walking through a computation that binds no account to a key. *)
Ltac unbound_step :=
  lazymatch goal with
  | |- keeps _ _ (_ ≫= _) => rule keeps_bind; [ | intros ? ]
  | |- keeps _ _ (try_catch _ _) => rule keeps_try_catch; [ | intros ? ]
  | |- keeps _ _ (ret _) => rule keeps_ret
  | |- keeps _ _ (throw _) => rule keeps_throw
  | |- keeps _ _ (gets _) => rule keeps_gets
  | |- keeps _ _ (console_log _) => rule keeps_console_log
  | |- keeps _ _ (asked _ _) => rule keeps_asked
  | |- keeps _ _ (modify _) => rule keeps_modify; done
  | |- keeps _ _ (await _ _) => rule keeps_await; intros ?; by repeat constructor
  | |- keeps _ _ (forEach _ _) => rule keeps_forEach; intros ?
  | |- keeps _ _ (match ?x with _ => _ end) => destruct x
  | |- keeps _ _ ?m => let h := head_of m in unfold h
  end.

Ltac unbound :=
  apply (keeps_weaken _ (Forall (λ ev, bound_key ev = None)));
  [ intros ?; apply keys_made_first_unbound
  | cbv zeta; repeat (unbound_step; cbv zeta) ].

(** The two functions that bind, stepped through. *)
Ltac bound_after_creation H :=
  injection H as <- <-; (split; [done|]); new_calls; cbn;
  repeat split; intros ? [=]; subst;
  eexists; (split; [reflexivity|]); cbn; congruence.

Lemma modern_addStorageAccount_keys w config vault :
  keeps (λ _, True) (keys_made_first None) (Modern.addStorageAccount w config vault).
Proof.
  intros st r st' _ H.
  unfold Modern.addStorageAccount, Modern.grant_key_operator_role,
    Modern.grant_vault_access_and_register in H.
  cbv zeta in H. repeat (tidy_in H; exec_step H).
  all: bound_after_creation H.
Qed.

Lemma modern_updateStorageAccount_keys w config sa vault :
  keeps (λ _, True) (keys_made_first None) (Modern.updateStorageAccount w config sa vault).
Proof.
  intros st r st' _ H. unfold Modern.updateStorageAccount in H.
  repeat (tidy_in H; exec_step H).
  all: bound_after_creation H.
Qed.

Lemma modern_main_keys w config :
  keeps (λ _, True) (keys_made_first None) (Modern.main w config).
Proof.
  unfold Modern.main.
  rule keeps_bind; [rule keeps_console_log | intros _].
  rule keeps_bind; [unbound | intros vault].
  rule keeps_bind; [apply modern_addStorageAccount_keys | intros sa].
  rule keeps_bind; [apply modern_updateStorageAccount_keys | intros _].
  rule keeps_bind; [unbound | intros _].
  rule keeps_bind; [unbound | intros _].
  unbound.
Qed.

(** X18. In the whole process of the newer sample, every update that
    binds the encryption of the storage account to a key of a vault comes
    directly after a [createKey] call that was accepted and that made a
    key of that name in that vault: the account is never pointed at a key
    the run has not just made (and the update that ends the run names no
    key at all). *)
Theorem X18_key_made_before_bound w mode env :
  keys_made_first None (issued (Modern.program w mode env)).
Proof.
  change (Modern.program w mode env) with (program_of ModernSdk w mode env).
  rewrite issued_of_run.
  destruct (load_of ModernSdk w env) as [e | [config m]]; [done|].
  destruct (main_of ModernSdk w config (initial_state m)) as [r st'] eqn:H.
  destruct (modern_main_keys w config _ _ _ I H) as (_ & evs & Hc & Hall).
  cbn [snd]. by rewrite Hc.
Qed.

(** * The message of the validation (newer sample) *)

Lemma push_if_unset_filter env name envs :
  push_if_unset env name envs
  = (envs ++ filter (λ x, truthy (env !! x) = None) [name])%list.
Proof.
  unfold push_if_unset. cbn. unfold filter, list_filter.
  destruct (truthy (env !! name)) as [s|] eqn:Ht.
  - rewrite decide_False by done. by rewrite app_nil_r.
  - by rewrite decide_True.
Qed.

(** X19. The newer [sample_util.js] reports all that is missing at once:
    when a required variable is unset or empty the process ends with
    status 1 before any call and without output, and the one line on the
    error stream ends with the names of exactly the required variables
    that are unset or empty, each once, in the order of the checks,
    separated by commas. *)
Theorem X19_validation_lists_what_is_missing w mode env :
  let missing := filter (λ name, truthy (env !! name) = None) required_variables in
  missing ≠ [] →
  let x := Modern.program w mode env in
  stderr x = ["Error: please set/export the following environment variables: "
              +:+ array_toString missing]
  ∧ exit_code x = 1 ∧ issued x = [] ∧ stdout x = [].
Proof.
  cbv zeta. intros Hne.
  assert (Hu : unset_variables env
               = filter (λ name, truthy (env !! name) = None) required_variables).
  { unfold unset_variables, required_variables. cbv zeta.
    rewrite !push_if_unset_filter. cbn [app].
    by rewrite <- !filter_app. }
  rewrite <- Hu in *.
  destruct (modern_validation_lists_unset_variables w mode env Hne) as (? & ? & ? & ?).
  done.
Qed.

(** Nothing is set. *)
Lemma X19_validation_lists_what_is_missing_witness :
  stderr (Modern.program Fixtures.happy ModeThrow ∅)
  = ["Error: please set/export the following environment variables: "
     +:+ "AZURE_SUBSCRIPTION_ID,AZURE_TENANT_ID,AZURE_CLIENT_ID,AZURE_CLIENT_OID,"
     +:+ "AZURE_CLIENT_SECRET"].
Proof.
  destruct (X19_validation_lists_what_is_missing Fixtures.happy ModeThrow ∅) as [H _].
  - vm_compute. discriminate.
  - rewrite H. vm_compute. reflexivity.
Defined.

(** * Who gets access to the vault *)

Lemma with_policy_neq v entry : v ≠ with_policy v entry.
Proof.
  intros Heq. apply (f_equal (λ x, length (accessPolicies x))) in Heq.
  cbn in Heq. rewrite length_app in Heq. cbn in Heq. lia.
Qed.

(** Sorting out the leaves of a run of [addStorageAccount] by what has
    become of the vault object. *)
Ltac entry_leaves Hv Hafter H :=
  injection H as <- <-; tidy_in Hafter;
  first
    [ rewrite Hv in Hafter; injection Hafter as Hafter;
      by apply with_policy_neq in Hafter
    | rewrite list_lookup_insert_eq in Hafter by done;
      injection Hafter as Hafter; apply app_inv_head in Hafter;
      injection Hafter as <-;
      cbn; split; [reflexivity|]; eauto ].

(** X20. Whom [addStorageAccount] lets into the vault.  When the run has
    added an entry to the access policies of the vault object, the older
    sample has granted every permission (keys, secrets, storage,
    certificates) to the object id of a token that [getToken] has
    returned for the user's credentials; the newer sample has granted the
    permissions it also gives on a vault it creates (no certificates) to
    the principal of the managed identity of a storage account that the
    creation call has returned. *)
Theorem X20_who_is_let_into_the_vault g w config vault v0 entry st :
  heap (mem st) !! vault = Some v0 →
  heap (mem (addStorageAccount_of g w config vault st).2) !! vault
  = Some (with_policy v0 entry) →
  match g with
  | LegacySdk =>
      permissions entry = every_permission
      ∧ ∃ hist creds token,
          respond w UserToken hist (CredsGetToken creds) = inr token
          ∧ objectId entry = tok_oid token
  | ModernSdk =>
      permissions entry = Modern.sample_permissions
      ∧ ∃ hist c created,
          respond w StorageAccount hist c = inr created
          ∧ sa_identity created = Some (objectId entry)
  end.
Proof.
  intros Hv Hafter.
  assert (Hlt : vault < length (heap (mem st))) by (by eapply lookup_lt_Some).
  destruct (addStorageAccount_of g w config vault st) as [r st'] eqn:H.
  cbn [snd] in Hafter.
  destruct g; cbn [addStorageAccount_of] in H.
  - unfold Legacy.addStorageAccount, Legacy.grant_key_operator_role,
      Legacy.grant_vault_access_and_register, Legacy._getUserCredentials in H.
    cbv zeta in H.
    repeat (first [ rewrite Hv in H
                  | rewrite list_lookup_insert_eq in H by done
                  | exec_step H; tidy_in H ]).
    all: entry_leaves Hv Hafter H.
  - unfold Modern.addStorageAccount, Modern.grant_key_operator_role,
      Modern.grant_vault_access_and_register in H.
    cbv zeta in H.
    repeat (first [ rewrite Hv in H
                  | rewrite list_lookup_insert_eq in H by done
                  | exec_step H; tidy_in H ]).
    all: entry_leaves Hv Hafter H.
Qed.

(** The newer sample on the acquired vault, every call accepted. *)
Lemma X20_who_is_let_into_the_vault_witness :
  let entry := {| tenantId := "tenant"; objectId := "account-principal";
                  permissions := Modern.sample_permissions |} in
  let st := Fixtures.state_with_vault in
  heap (mem st) !! 0 = Some Fixtures.sample_vault
  ∧ heap (mem (addStorageAccount_of ModernSdk Fixtures.happy Fixtures.sample_config 0 st).2)
      !! 0 = Some (with_policy Fixtures.sample_vault entry)
  ∧ ∃ hist c created,
      respond Fixtures.happy StorageAccount hist c = inr created
      ∧ sa_identity created = Some "account-principal".
Proof.
  cbv zeta.
  assert (Hafter :
    heap (mem (addStorageAccount_of ModernSdk Fixtures.happy Fixtures.sample_config 0
                 Fixtures.state_with_vault).2) !! 0
    = Some (with_policy Fixtures.sample_vault
              {| tenantId := "tenant"; objectId := "account-principal";
                 permissions := Modern.sample_permissions |}))
    by (vm_compute; reflexivity).
  split; [reflexivity|]. split; [exact Hafter|].
  exact (proj2 (X20_who_is_let_into_the_vault ModernSdk Fixtures.happy
                  Fixtures.sample_config 0 Fixtures.sample_vault _
                  Fixtures.state_with_vault eq_refl Hafter)).
Defined.

(** ** One storage account per run *)

(** Walking through a computation whose calls are about one account. *)
Ltac account_step :=
  lazymatch goal with
  | |- keeps _ _ (_ ≫= _) => rule keeps_bind; [ | intros ? ]
  | |- keeps _ _ (try_catch _ _) => rule keeps_try_catch; [ | intros ? ]
  | |- keeps _ _ (ret _) => rule keeps_ret
  | |- keeps _ _ (throw _) => rule keeps_throw
  | |- keeps _ _ (gets _) => rule keeps_gets
  | |- keeps _ _ (console_log _) => rule keeps_console_log
  | |- keeps _ _ (asked _ _) => rule keeps_asked
  | |- keeps _ _ (modify _) => rule keeps_modify; done
  | |- keeps _ _ (await _ _) =>
      rule keeps_await; intros ?; constructor; [|constructor];
      first [ reflexivity | intros ? Hn; cbn in Hn; congruence ]
  | |- keeps _ _ (forEach _ _) => rule keeps_forEach; intros ?
  | |- keeps _ _ (match ?x with _ => _ end) => destruct x
  | |- keeps _ _ ?m => let h := head_of m in unfold h
  end.

Ltac account_steps := cbv zeta; repeat (account_step; cbv zeta).

Lemma after_addStorageAccount_one_account g w config vault sa :
  keeps (λ _, True) (Forall (about (sa_name sa)))
    (after_addStorageAccount g w config vault sa).
Proof. destruct g; cbn [after_addStorageAccount]; account_steps. Qed.

Lemma getSampleVault_no_account g w config :
  keeps (λ _, True) (Forall (λ ev, ev_account ev = None)) (getSampleVault_of g w config).
Proof. destruct g; cbn [getSampleVault_of]; account_steps. Qed.

Lemma main_new_account g w config :
  keeps (λ _, True)
    (Forall (λ ev, ∀ n, ev_new_account ev = Some n → n = cfg_storageAccName config))
    (main_of g w config).
Proof. destruct g; cbn [main_of]; account_steps. Qed.

(** In [addStorageAccount] the calls about an account are about the one
    the creation has returned, which is also the one the function
    returns. *)
Lemma addStorageAccount_one_account g w config vault st r st' :
  addStorageAccount_of g w config vault st = (r, st') →
  ∃ evs, calls st' = (calls st ++ evs)%list
    ∧ (Forall (λ ev, ev_account ev = None) evs ∧ (∃ e, r = inl e)
       ∨ ∃ hist (c : Call StorageAccount) created,
           respond w StorageAccount hist c = inr created
           ∧ storage_account_creation (method c) = true
           ∧ Forall (about (sa_name created)) evs
           ∧ ∀ sa, r = inr sa → sa = created).
Proof.
  intros H.
  destruct g; cbn [addStorageAccount_of] in H;
    [ unfold Legacy.addStorageAccount, Legacy._getUserCredentials,
        Legacy.grant_key_operator_role, Legacy.grant_vault_access_and_register in H
    | unfold Modern.addStorageAccount,
        Modern.grant_key_operator_role, Modern.grant_vault_access_and_register in H ];
    cbv zeta in H.
  all: repeat (tidy_in H; exec_step H).
  all: injection H as <- <-; new_calls.
  all: first
         [ left; split; [by each_call ltac:(reflexivity) | by eexists]
         | right; eexists _, _, _; split; [eassumption|]; split; [reflexivity|];
           split; [|by intros ? [=]];
           by each_call ltac:(intros ? Hn; cbn in Hn; congruence) ].
Qed.

Lemma unnamed_about name evs :
  Forall (λ ev, ev_account ev = None) evs → Forall (about name) evs.
Proof. intros Hall. eapply Forall_impl; [exact Hall|]. intros ev Hev n. by rewrite Hev. Qed.

(** X21. One storage account per run.  In the whole process of either
    generation a storage account is only ever asked for under the name
    fixed when [sample_util] loaded, "sa" followed by the first draw of
    [random_id]; and all the calls that are about a storage account by
    name (registration with the vault, updates, key regeneration, SAS
    definitions and tokens, removal) name one and the same account: the
    one that the creation call has returned. *)
Theorem X21_one_account_per_run g w mode env :
  let log := issued (program_of g w mode env) in
  Forall (λ ev, ∀ n, ev_new_account ev = Some n → n = "sa" +:+ random_id w 0) log
  ∧ ∃ name,
      Forall (about name) log
      ∧ (Forall (λ ev, ev_account ev = None) log
         ∨ ∃ hist (c : Call StorageAccount) created,
             respond w StorageAccount hist c = inr created
             ∧ storage_account_creation (method c) = true
             ∧ name = sa_name created).
Proof.
  cbv zeta. rewrite issued_of_run.
  destruct (load_of g w env) as [e | [config m]] eqn:Hload.
  { split; [constructor|]. exists EmptyString. split; [constructor | left; constructor]. }
  apply load_of_inr in Hload.
  assert (Hname : cfg_storageAccName config = "sa" +:+ random_id w 0)
    by (by injection Hload as -> _).
  destruct (main_of g w config (initial_state m)) as [r st'] eqn:H. cbn [snd].
  split.
  { destruct (main_new_account g w config _ _ _ I H) as (_ & evs & Hc & Hall).
    rewrite Hc, <- Hname. done. }
  rewrite main_unfold in H. exec_step H.
  apply bind_inv in H as [(e1 & H1 & ->) | (vault & st1 & H1 & H)];
    destruct (getSampleVault_no_account g w config _ _ _ I H1) as (_ & evs1 & Hc1 & Hno1).
  { exists EmptyString. rewrite Hc1. cbn. split; [by apply unnamed_about | by left]. }
  unfold after_acquisition in H.
  apply bind_inv in H as [(e2 & H2 & ->) | (sa & st2 & H2 & H)];
    destruct (addStorageAccount_one_account _ _ _ _ _ _ _ H2)
      as (evs2 & Hc2 & [[Hno2 [e Hr]] | (hist & c & created & Hcr & Hk & Hab2 & Hsa)]);
    try discriminate Hr.
  - exists EmptyString. rewrite Hc2, Hc1. cbn. split.
    + apply Forall_app. split; by apply unnamed_about.
    + left. by apply Forall_app.
  - exists (sa_name created). rewrite Hc2, Hc1. cbn. split.
    + apply Forall_app. split; [by apply unnamed_about | done].
    + right. by exists hist, c, created.
  - rewrite (Hsa sa eq_refl) in H.
    destruct (after_addStorageAccount_one_account g w config vault created _ _ _ I H)
      as (_ & evs3 & Hc3 & Hab3).
    exists (sa_name created). rewrite Hc3, Hc2, Hc1. cbn. split.
    + repeat (apply Forall_app; split); [by apply unnamed_about | done..].
    + right. by exists hist, c, created.
Qed.

(** * Key rotation (older sample) *)

Lemma says_more_after s s' ev :
  says_more s s' → says_more (after_event s ev) (after_event s' ev).
Proof.
  intros [Ha Hb]. split; cbn.
  - destruct (sets_active_key ev); auto.
  - destruct (sets_auto_regenerate ev); auto.
Qed.

Lemma regenerates_inactive_more evs : ∀ s s',
  says_more s s' → regenerates_inactive s evs → regenerates_inactive s' evs.
Proof.
  induction evs as [|ev evs IH]; intros s s' Hs; [done|]. cbn. intros [Hev Hrest]. split.
  - intros k Hk. destruct (Hev k Hk) as [(a & Ha & Hne) Hoff]. destruct Hs as [Hsa Hsb].
    split; [exists a; auto | auto].
  - eapply IH; [|exact Hrest]. by apply says_more_after.
Qed.

Lemma regenerates_inactive_app a : ∀ s b,
  regenerates_inactive s a → regenerates_inactive nothing_set b →
  regenerates_inactive s (a ++ b)%list.
Proof.
  induction a as [|ev a IH]; intros s b Ha Hb; cbn.
  - eapply regenerates_inactive_more; [|exact Hb]. by split.
  - destruct Ha as [Hev Ha]. split; [done|]. by apply IH.
Qed.

#[global] Instance regenerates_inactive_closed : TraceClosed (regenerates_inactive nothing_set).
Proof. split; [done | intros a b; apply regenerates_inactive_app]. Qed.

Lemma regenerates_inactive_none evs : ∀ s,
  Forall (λ ev, regenerated_key ev = None) evs → regenerates_inactive s evs.
Proof.
  induction evs as [|ev evs IH]; intros s Hall; [done|].
  apply Forall_cons in Hall as [Hev Hall]. cbn. split; [|by apply IH].
  intros k Hk. congruence.
Qed.

(** Parts of a run that regenerate no key. *)
Ltac no_regeneration :=
  apply (keeps_weaken _ (Forall (λ ev, regenerated_key ev = None)));
  [ intros ?; apply regenerates_inactive_none
  | cbv zeta; repeat (unbound_step; cbv zeta) ].

Lemma bind_assoc_run {A B C} (m : M A) (f : A → M B) (g : B → M C) st :
  (m ≫= (λ a, f a ≫= g)) st = ((m ≫= f) ≫= g) st.
Proof. unfold mbind, M_bind, bind. by destruct (m st) as [[e|a] st1]. Qed.

Lemma keeps_assoc {A B C} I T (m : M A) (f : A → M B) (g : B → M C) :
  keeps I T ((m ≫= f) ≫= g) → keeps I T (m ≫= (λ a, f a ≫= g)).
Proof. intros Hm st r st' HI H. rewrite bind_assoc_run in H. by eapply Hm. Qed.

(** The token requests of an authenticator leave the rotation as it is. *)
Lemma regenerates_inactive_skip toks rest : ∀ s,
  Forall (λ ev, regenerated_key ev = None
                ∧ sets_active_key ev = None ∧ sets_auto_regenerate ev = None) toks →
  regenerates_inactive s rest → regenerates_inactive s (toks ++ rest)%list.
Proof.
  induction toks as [|ev toks IH]; intros s Hall Hrest; [done|].
  apply Forall_cons in Hall as [(Hk & Ha & Hb) Hall]. cbn. split.
  - intros k Hev. congruence.
  - apply IH; [done|]. unfold after_event. rewrite Ha, Hb. by destruct s.
Qed.

Ltac rotation :=
  repeat lazymatch goal with
         | |- regenerates_inactive _ [] => exact I
         | |- regenerates_inactive _ (_ :: _) =>
             split;
             [ cbn; intros ? [=]; subst;
               (split; [eexists; split; [reflexivity | discriminate] | reflexivity])
             | ]
         | |- regenerates_inactive _ (_ ++ _) =>
             apply regenerates_inactive_skip; [of_tokens ltac:(done)|]
         | |- regenerates_inactive _ _ =>
             apply regenerates_inactive_none; of_tokens ltac:(reflexivity)
         end.

(** Switching the active key and regenerating the other one. *)
Lemma legacy_rotation w config sa vault :
  keeps (λ _, True) (regenerates_inactive nothing_set)
    (Legacy.updateStorageAccount w config sa vault;;
     Legacy.regenerateStorageAccountKey w config sa vault).
Proof.
  intros st r st' _ H.
  unfold Legacy.updateStorageAccount, Legacy.regenerateStorageAccountKey in H.
  repeat (tidy_in H; exec_step H).
  all: injection H as <- <-; (split; [done|]); new_calls.
  all: rotation.
Qed.

Lemma legacy_main_rotation w config :
  keeps (λ _, True) (regenerates_inactive nothing_set) (Legacy.main w config).
Proof.
  unfold Legacy.main.
  rule keeps_bind; [rule keeps_console_log | intros _].
  rule keeps_bind; [no_regeneration | intros vault].
  rule keeps_bind; [no_regeneration | intros sa].
  apply keeps_assoc.
  rule keeps_bind; [apply legacy_rotation | intros _].
  rule keeps_bind; [no_regeneration | intros _].
  rule keeps_bind; [no_regeneration | intros _].
  rule keeps_bind; [no_regeneration | intros _].
  rule keeps_bind; [no_regeneration | intros _].
  no_regeneration.
Qed.

(** X22. The older sample rotates keys in a safe order: in its whole
    process, whenever the vault is asked to regenerate a key of the
    managed account, the calls accepted before have made another key the
    active one and have switched automatic regeneration off.  (It
    regenerates key1 after making key2 active.) *)
Theorem X22_regenerates_the_inactive_key w mode env :
  regenerates_inactive nothing_set (issued (Legacy.program w mode env)).
Proof.
  change (Legacy.program w mode env) with (program_of LegacySdk w mode env).
  rewrite issued_of_run.
  destruct (load_of LegacySdk w env) as [e | [config m]]; [done|].
  destruct (main_of LegacySdk w config (initial_state m)) as [r st'] eqn:H.
  destruct (legacy_main_rotation w config _ _ _ I H) as (_ & evs & Hc & Hall).
  cbn [snd]. by rewrite Hc.
Qed.

(** * The script of a run *)

(** X23. A run takes the steps of its script, in that order.  The steps
    of a log are its calls other than the requests for credentials and
    tokens ([interactiveLogin], [acquireToken], [getToken],
    [acquireTokenWithClientCredentials]), which in the older sample the
    authenticators of the Key Vault clients make between the steps; the
    newer sample makes no such request, so that there the steps are the
    whole log.  When [sample_util] does not load, no call is made.
    Otherwise the steps are an initial part of the script of the
    generation (with or without a configured vault name), and when [main]
    returns they are the whole script, and every call of the log has been
    accepted or, for the role assignment and for the refresh of a token,
    its rejection has been caught. *)
Theorem X23_a_run_follows_its_script g w mode env :
  let log := issued (program_of g w mode env) in
  match load_of g w env with
  | inl _ => log = []
  | inr (config, m) =>
      (ev_method <$> steps log) `prefix_of` script g config
      ∧ (g = ModernSdk → steps log = log)
      ∧ ((∃ a, (main_of g w config (initial_state m)).1 = inr a) →
         ev_method <$> steps log = script g config
         ∧ Forall (λ ev, settled ev = true) log)
  end.
Proof.
  cbv zeta. rewrite issued_of_run.
  destruct (load_of g w env) as [e | [config m]] eqn:Hload; [done|].
  pose proof (load_at_start _ _ _ _ _ Hload) as Hstart.
  destruct (main_of g w config (initial_state m)) as [r st'] eqn:H. cbn [fst snd].
  destruct (follows_main g w config (initial_state m) _ _ Hstart H) as (evs & Hc & Hs & Hl).
  rewrite Hc. cbn [calls initial_state app].
  split; [|split].
  - destruct r as [e|a]; [done|]. destruct Hl as [Hl _]. by rewrite Hl.
  - intros ->. cbn [main_of] in H.
    destruct (modern_main_only_steps w config _ _ _ I H) as (_ & evs' & Hc' & Hall).
    rewrite Hc in Hc'. cbn [calls initial_state app] in Hc'. subst evs'.
    by apply steps_all.
  - intros [a ->]. destruct Hl as [Hl _]. by split.
Qed.

(** * The model at work *)

(** A run of the older sample in which every call is accepted takes the
    steps of its script and exits with status 0; between the steps are
    the requests of its authenticators, one round for each operation of
    a Key Vault client. *)
Example legacy_accepted_run :
  let x := Legacy.program Fixtures.happy ModeThrow Fixtures.full_env in
  ev_method <$> steps (issued x) = script LegacySdk Fixtures.sample_config
  ∧ ev_method <$> issued x
    = ["loginWithServicePrincipalSecret"; "resourceGroups.createOrUpdate";
       "vaults.createOrUpdate"; "interactiveLogin"; "storageAccounts.create";
       "roleDefinitions.list"; "roleAssignments.create";
       "loginWithServicePrincipalSecret"; "getToken"; "vaults.createOrUpdate";
       "acquireToken"; "getToken"; "setStorageAccount";
       "acquireTokenWithClientCredentials"; "updateStorageAccount";
       "acquireTokenWithClientCredentials"; "updateStorageAccount";
       "acquireToken"; "getToken"; "regenerateStorageAccountKey";
       "acquireTokenWithClientCredentials"; "getStorageAccounts";
       "acquireTokenWithClientCredentials"; "setSasDefinition";
       "acquireTokenWithClientCredentials"; "getSecret";
       "createContainerIfNotExists"; "createBlockBlobFromText";
       "acquireTokenWithClientCredentials"; "setSasDefinition";
       "acquireTokenWithClientCredentials"; "getSecret";
       "createBlockBlobFromText"; "acquireTokenWithClientCredentials";
       "getSasDefinitions"; "acquireTokenWithClientCredentials";
       "deleteStorageAccount"]
  ∧ exit_code x = 0
  ∧ last (stdout x) = Some "Sample execution complete.".
Proof. cbv zeta. repeat split; vm_compute; reflexivity. Qed.

(** When the service refuses to refresh the user's token, the older
    sample prints the error, logs the user in again and completes. *)
Example legacy_run_with_stale_token :
  let x := Legacy.program Fixtures.stale_token_world ModeThrow Fixtures.full_env in
  ev_method <$> steps (issued x) = script LegacySdk Fixtures.sample_config
  ∧ ev_method <$> filter (λ ev, is_Some (ev_error ev)) (issued x)
    = ["acquireToken"; "acquireToken"]
  ∧ length (filter (λ ev, ev_method ev = "interactiveLogin") (issued x)) = 3
  ∧ filter (λ line, line = "Error: token_expired") (stdout x)
    = ["Error: token_expired"; "Error: token_expired"]
  ∧ exit_code x = 0
  ∧ last (stdout x) = Some "Sample execution complete.".
Proof. cbv zeta. repeat split; vm_compute; reflexivity. Qed.

(** When the token request of the service principal is rejected, the
    older sample dies of the error thrown in the callback, with status 1
    even where an unhandled rejection would leave the status at 0. *)
Example legacy_run_without_client_token :
  let x := Legacy.program Fixtures.no_client_token_world ModeWarn Fixtures.full_env in
  exit_code x = 1
  ∧ ev_method <$> drop 12 (issued x)
    = ["setStorageAccount"; "acquireTokenWithClientCredentials"]
  ∧ length (stderr x) = 1
  ∧ last (stdout x) = Some "Updating storage account active key".
Proof. cbv zeta. repeat split; vm_compute; reflexivity. Qed.

(** The same for the newer sample with a configured vault. *)
Example modern_accepted_run :
  let x := Modern.program Fixtures.happy ModeThrow Fixtures.vault_env in
  ev_method <$> issued x = script ModernSdk Fixtures.vault_config
  ∧ exit_code x = 0
  ∧ last (stdout x) = Some "Sample execution complete.".
Proof. cbv zeta. repeat split; vm_compute; reflexivity. Qed.

(** With the resource group refused, the vault is not created. *)
Example vault_not_created_without_group :
  let run := Modern._getSampleVault Fixtures.no_group_world Fixtures.sample_config
               Fixtures.fresh_state in
  run.1 = inl (Fixtures.service_error "AuthorizationFailed")
  ∧ vault_creations (calls run.2) = [].
Proof. cbv zeta. split; vm_compute; reflexivity. Qed.

(** Every kind of call named in the ordering properties occurs in both
    scripts, and the check does reject a wrong order. *)
Example kinds_of_calls_occur :
  ∀ g, Forall (λ kind : string → bool,
                 filter (λ x, kind x = true) (script g Fixtures.sample_config) ≠ [])
         [vault_acquisition; storage_account_creation; role_assignment;
          key_management; sas_definition; sas_token_issuance; data_plane_write].
Proof. intros []; repeat constructor; vm_compute; discriminate. Qed.

Example guarded_rejects_wrong_order :
  ∀ g, guarded data_plane_write sas_definition false (script g Fixtures.sample_config)
       = false.
Proof. by intros []; vm_compute. Qed.

(** A whole run of the newer sample on an acquired vault without
    policies leaves it with the one entry for the account's identity. *)
Example policy_appended_by_run :
  let run := Modern.main Fixtures.happy Fixtures.sample_config Fixtures.state_with_vault in
  (λ v, objectId <$> accessPolicies v) <$> heap (mem run.2) = [["account-principal"]].
Proof. vm_compute; reflexivity. Qed.

(** After the older sample has logged a user in, the user client's
    authenticator asks [_getUserCredentials] again: a failed token refresh
    is logged and followed by a new interactive login. *)
Example cached_user_falls_back_to_login :
  let w := Fixtures.world_with [("acquireToken", Fixtures.service_error "token_expired")] in
  let st := {| mem := with_cfg_userId (Some "user@example.com") Fixtures.fresh_mem;
               calls := []; console := [] |} in
  let run := Legacy._getKeyVaultUserClient_adalCallback w Fixtures.sample_config
               {| ch_authorization := "https://login.windows.net/tenant";
                  ch_resource := "https://vault.azure.net" |} st in
  run.1 = inr "Bearer user-jwt"
  ∧ ev_method <$> calls run.2 = ["acquireToken"; "interactiveLogin"; "getToken"]
  ∧ console run.2 = ["Error: token_expired"].
Proof. cbv zeta. repeat split; vm_compute; reflexivity. Qed.

(** What the invariants of whole runs speak of, in the runs in which
    every call is accepted: the keys the older sample makes active and
    the one it regenerates, the keys the newer sample binds the account
    to, the vault and the account the calls name, and where they are
    placed.  (The service of these runs calls the account [sa0], whatever
    name was asked for.) *)
Example invariants_at_work :
  let old := issued (Legacy.program Fixtures.happy ModeThrow Fixtures.full_env) in
  let new := issued (Modern.program Fixtures.happy ModeThrow Fixtures.vault_env) in
  omap sets_active_key old = ["key1"; "key2"]
  ∧ omap sets_auto_regenerate old = [true; false]
  ∧ omap regenerated_key old = ["key1"]
  ∧ omap bound_key new = [("key1", "https://samplevault.vault.azure.net/");
                          ("key2", "https://samplevault.vault.azure.net/")]
  ∧ omap ev_vaultUri old = replicate 10 "https://samplevault.vault.azure.net/"
  ∧ omap ev_vaultUri new = replicate 5 "https://samplevault.vault.azure.net/"
  ∧ omap ev_new_account old = ["said0"]
  ∧ omap ev_account old = replicate 8 "sa0"
  ∧ omap ev_account new = replicate 5 "sa0"
  ∧ omap ev_group old = replicate 4 "azure-sample-group"
  ∧ omap ev_location old = replicate 3 "westus"
  ∧ omap ev_tenant old = replicate 4 "tenant"
  ∧ role_assignments old
    = [("/subscriptions/sub/storageAccounts/sa0", "uuid0", "role-definition-0",
        KEY_VAULT_SERVICE_ID)]
  ∧ omap write_url new = replicate 2 "https://sa0.blob.core.windows.net?sv=token".
Proof. cbv zeta. repeat split; vm_compute; reflexivity. Qed.

(** The order of the key rotation is checked, not assumed: a log that
    regenerates the active key is refused. *)
Example regenerating_the_active_key_is_refused :
  ¬ regenerates_inactive nothing_set
      [Ev (UpdateStorageAccount "uri" "sa0" (ActiveKeyName "key1")) None;
       Ev (UpdateStorageAccount "uri" "sa0" (AutoRegenerateKey false)) None;
       Ev (RegenerateStorageAccountKey "uri" "sa0" "key1") None].
Proof.
  cbn. intros (_ & _ & Hregen & _).
  destruct (Hregen "key1" eq_refl) as [(a & [= <-] & Hne) _]. done.
Qed.

(** Likewise a binding that does not follow the creation of its key. *)
Example binding_without_key_is_refused :
  ¬ keys_made_first None
      [Ev (StorageAccountsUpdate "group" "sa0"
             {| enc_keySource := "Microsoft.Keyvault";
                enc_keyVaultProperties := Some ("key1", "uri");
                enc_blob := None |}) None].
Proof. cbn. intros [Hbind _]. by destruct (Hbind _ eq_refl) as (c & [=] & _). Qed.
